(** * The Penrose optimizer: exterior-point driver, L-BFGS and line search

    A shallow embedding of the optimizer of the engine ([step],
    [minimize], [lbfgs], [awLineSearch2], [genOptProblem]) together with
    theorems about its state machine, its inner minimizer, the L-BFGS
    preconditioner and the Armijo/Wolfe line search.

    JavaScript numbers are IEEE-754 binary64 values.  The embedding is written
    over an interface [Number] of the arithmetic the optimizer uses, whose
    instance is Rocq's primitive binary64 floats ([float_Number]), the
    arithmetic of the source.  Control-flow theorems are proved for every
    instance; the theorems that depend on the arithmetic are proved of
    binary64, from the specification of the primitive floats. *)

From Stdlib Require Import ZArith Floats Lia Bool String.
From stdpp Require Import base option list gmap pretty.

Set Default Proof Using "Type".
Local Open Scope Z_scope.

(** ** Numbers *)

Class Number (num : Type) := {
  lit : float → num;              (* a numeric literal of the source *)
  nadd : num → num → num;
  nsub : num → num → num;
  nmul : num → num → num;
  ndiv : num → num → num;
  nopp : num → num;               (* unary minus *)
  nabs : num → num;               (* Math.abs *)
  nsqrt : num → num;              (* Math.sqrt *)
  nltb : num → num → bool;        (* < *)
  nleb : num → num → bool;        (* <= *)
  isNaN : num → bool;             (* Number.isNaN on a number *)
}.

Declare Scope num_scope.
Delimit Scope num_scope with num.
Infix "+" := nadd : num_scope.
Infix "-" := nsub : num_scope.
Infix "*" := nmul : num_scope.
Infix "/" := ndiv : num_scope.
Notation "- x" := (nopp x) : num_scope.
Infix "<?" := nltb : num_scope.
Infix "<=?" := nleb : num_scope.
Notation "x >? y" := (nltb y x) (only parsing) : num_scope.
Notation "x >=? y" := (nleb y x) (only parsing) : num_scope.

(** The arithmetic of the source: binary64 with round-to-nearest. *)
#[export] Instance float_Number : Number float := {|
  lit := fun x => x;
  nadd := PrimFloat.add;
  nsub := PrimFloat.sub;
  nmul := PrimFloat.mul;
  ndiv := PrimFloat.div;
  nopp := PrimFloat.opp;
  nabs := PrimFloat.abs;
  nsqrt := PrimFloat.sqrt;
  nltb := PrimFloat.ltb;
  nleb := PrimFloat.leb;
  isNaN := PrimFloat.is_nan;
|}.

(** ** Exceptions

    One constructor per [throw] of the source, [TypeError] for the
    run-time error JavaScript raises on a property access of [undefined],
    and [RangeError] for the error the matrix library raises on operands
    of different dimensions. *)

Inductive exn : Set :=
  | InsufficientSteps   (* "must step at least 1 times in the optimizer" *)
  | NaNInState          (* "NaN in xs" *)
  | NaNInGradient       (* "NaN in gradfxs" *)
  | InvalidLbfgsState   (* "Invalid L-BFGS state" *)
  | TypeError
  | RangeError.

Inductive result (A : Type) : Type :=
  | Ok (a : A)
  | Throw (e : exn).
Arguments Ok {A} a.
Arguments Throw {A} e.

#[export] Instance result_ret : MRet result := fun A a => Ok a.
#[export] Instance result_bind : MBind result := fun A B k m =>
  match m with
  | Ok a => k a
  | Throw e => Throw e
  end.

(** ** JavaScript values met by [containsNaN]

    [for (const n in numberList)] enumerates the property keys of the array,
    which are strings; [Number.isNaN] does not coerce its argument and is
    [false] on everything that is not the number NaN. *)

Inductive jsval (num : Type) : Type :=
  | JSNumber (x : num)
  | JSString (s : string).
Arguments JSNumber {num} x.
Arguments JSString {num} s.

Section Optimizer.
Context {num : Type} `{Number num}.
Local Open Scope num_scope.

Definition Number_isNaN (v : jsval num) : bool :=
  match v with
  | JSNumber x => isNaN x
  | JSString _ => false
  end.

(** The keys a [for ... in] loop visits on an array of numbers. *)
Definition forInKeys (numberList : list num) : list (jsval num) :=
  (fun i : nat => JSString (pretty i)) <$> seq 0 (length numberList).

Fixpoint containsNaN_loop (keys : list (jsval num)) : bool :=
  match keys with
  | [] => false
  | n :: rest => if Number_isNaN n then true else containsNaN_loop rest
  end.

Definition containsNaN (numberList : list num) : bool :=
  containsNaN_loop (forInKeys numberList).

(** ** Globals *)

Definition weightGrowthFactor : num := lit 10.
Definition constraintWeight : num := lit 10e4.
Definition epStop : num := lit 1e-3.
Definition EPSD : num := lit 1e-11.
Definition uoStop : num := lit 1e-2.
Definition USE_LINE_SEARCH : bool := true.
Definition BREAK_EARLY : bool := true.

(** ** Vector helpers *)

(** Modelled from the spec: [addv] of [utils/Util], which is not among the
    sources: the component-wise sum. *)
Definition addv (xs ys : list num) : list num := zip_with nadd xs ys.

(** Modelled from the spec: [subv] of [utils/Util], which is not among the
    sources: the component-wise difference. *)
Definition subv (xs ys : list num) : list num := zip_with nsub xs ys.

(** Modelled from the spec: [scalev] of [utils/Util], which is not among
    the sources: the product of a vector by a scalar. *)
Definition scalev (c : num) (xs : list num) : list num := (fun x => c * x) <$> xs.

(** Modelled from the spec: [negv] of [utils/Util], which is not among the
    sources: the opposite vector. *)
Definition negv (xs : list num) : list num := (fun e => - e) <$> xs.

(** Modelled from the spec: [dot] of [utils/Util], which is not among the
    sources: the inner product [⟨xs, ys⟩], accumulated from the left. *)
Definition dot (xs ys : list num) : num :=
  foldl (fun z p => z + fst p * snd p) (lit 0) (zip xs ys).

(** Modelled from the spec: [normList] of [utils/Util], which is not among
    the sources: the Euclidean norm [‖xs‖₂]. *)
Definition normList (xs : list num) : num :=
  nsqrt (foldl nadd (lit 0) ((fun e => e * e) <$> xs)).

(** Modelled from the spec: [repeat] of [utils/Util], which is not among
    the sources: the list of [i] copies of [x]. *)
Definition repeat (i : nat) (x : num) : list num := replicate i x.

(** Modelled from the spec: [zip2] of [utils/Util], which is not among the
    sources: the list of pairs of two lists of one length. *)
Definition zip2 {A B : Type} (a1 : list A) (a2 : list B) : list (A * B) := zip a1 a2.

(** Modelled from the spec: [zip3] of [utils/Util], which is not among the
    sources: the list of triples of three lists of one length. *)
Definition zip3 {A B C : Type} (a1 : list A) (a2 : list B) (a3 : list C)
  : list (A * B * C) := zip (zip a1 a2) a3.

(** ** Matrices

    The matrices of the library [ml-matrix], as the list of their rows.
    [Matrix.sub] and [Matrix.add] raise a [RangeError] when the two
    operands do not have the same numbers of rows and columns, and [dot]
    raises one when the two operands do not have the same number of
    entries.  The matrices the optimizer subtracts and adds are column
    vectors; a matrix without rows is given 0 columns. *)

Definition Matrix : Type := list (list num).

Definition columnVector (xs : list num) : Matrix := (fun x => [x]) <$> xs.
Definition to1DArray (m : Matrix) : list num := concat m.
Definition rows (m : Matrix) : nat := length m.
Definition columns (m : Matrix) : nat :=
  match m with
  | [] => 0
  | row :: _ => length row
  end.

(** [this.rows !== matrix.rows || this.columns !== matrix.columns] *)
Definition dimensionsDiffer (a b : Matrix) : bool :=
  negb (bool_decide (rows a = rows b)) || negb (bool_decide (columns a = columns b)).

Definition Matrix_sub (a b : Matrix) : result Matrix :=
  if dimensionsDiffer a b then Throw RangeError
  else Ok (zip_with (zip_with nsub) a b).
Definition Matrix_add (a b : Matrix) : result Matrix :=
  if dimensionsDiffer a b then Throw RangeError
  else Ok (zip_with (zip_with nadd) a b).
Definition Matrix_mul (a : Matrix) (c : num) : Matrix :=
  (fun row : list num => (fun x => x * c) <$> row) <$> (a : list (list num)).
Definition Matrix_dot (a b : Matrix) : result num :=
  let vector1 := to1DArray a in
  let vector2 := to1DArray b in
  if negb (bool_decide (length vector1 = length vector2)) then Throw RangeError
  else Ok (dot vector1 vector2).
Definition Matrix_identity (n : nat) : Matrix :=
  (fun i : nat => (fun j : nat => if decide (i = j) then lit 1 else lit 0) <$> seq 0 n)
    <$> seq 0 n.
(** [a.mmul(b)] for a column vector [b]: one inner product per row of [a]. *)
Definition Matrix_mmul (a b : Matrix) : Matrix :=
  (fun row : list num => [dot row (to1DArray b)]) <$> (a : list (list num)).

(** ** The oracle

    [FnCached] of [types/state]: the compiled energy, its gradient and the
    per-term energies at a point.  A call can raise (see
    [objectiveAndGradient] below). *)

Record FnEvaled : Type := {
  fe_f : num;
  fe_gradf : list num;
  fe_objEngs : list num;
  fe_constrEngs : list num;
}.

Definition FnCached : Type := list num → result FnEvaled.

(** ** Line search ([awLineSearch2]) *)

Definition minInterval : num := lit 10e-10.
Definition c1 : num := lit 0.001. (* Armijo *)
Definition c2 : num := lit 0.9.   (* Wolfe *)

(** [duf(u)(zs) = dot(u, f(zs).gradf)] *)
Definition duf (f : FnCached) (u zs : list num) : result num :=
  r ← f zs; mret (dot u (fe_gradf r)).

Definition armijo (fxs0 dufAtx0 : num) (ti objective : num) : bool :=
  let cond1 := objective in
  let cond2 := fxs0 + c1 * ti * dufAtx0 in
  cond1 <=? cond2.

Definition strongWolfe (descentDir : list num) (dufAtx0 : num)
    (ti : num) (gradient : list num) : bool :=
  let cond1 := nabs (dot descentDir gradient) in
  let cond2 := c2 * nabs dufAtx0 in
  cond1 <=? cond2.

Definition weakWolfe (descentDir : list num) (dufAtx0 : num)
    (ti : num) (gradient : list num) : bool :=
  let cond1 := dot descentDir gradient in
  let cond2 := c2 * dufAtx0 in
  cond1 >=? cond2.

Definition wolfe := weakWolfe.

Definition shouldStop (maxSteps : Z) (numUpdates : Z) (ai bi t : num) : bool :=
  let intervalTooSmall := nabs (bi - ai) <? minInterval in
  let tooManySteps := (maxSteps <? numUpdates)%Z in
  let needToStop := intervalTooSmall || tooManySteps in
  needToStop.

(** The variables of the bracketing loop. *)
Record LsVars : Type := {
  ls_a : num;
  ls_b : num;
  ls_t : num;
  ls_i : Z;
}.

(** The tail of the loop body: the next trial step from the bracket. *)
Definition nextTrial (a b : num) (i : Z) : LsVars :=
  let t := if b <? lit infinity then (a + b) / lit 2.0 else lit 2.0 * a in
  {| ls_a := a; ls_b := b; ls_t := t; ls_i := (i + 1)%Z |}.

(** [while (!shouldStop(i, a, b, t)) { ... }].  Each turn increments [i] and
    the loop is left once [i > maxSteps], so [maxSteps + 1 - i] turns are
    enough ([awLineSearch_loop_fuel]); with no fuel left the loop has
    stopped. *)
Fixpoint awLineSearch_loop (xs0 : list num) (f : FnCached) (descentDir : list num)
    (fxs0 dufAtx0 : num) (maxSteps : Z) (fuel : nat) (v : LsVars) : result LsVars :=
  if shouldStop maxSteps (ls_i v) (ls_a v) (ls_b v) (ls_t v) then Ok v else
  match fuel with
  | O => Ok v
  | S fuel' =>
      let t := ls_t v in
      r ← f (addv xs0 (scalev t descentDir));
      let isArmijo := armijo fxs0 dufAtx0 t (fe_f r) in
      let isWolfe := wolfe descentDir dufAtx0 t (fe_gradf r) in
      if negb isArmijo then
        awLineSearch_loop xs0 f descentDir fxs0 dufAtx0 maxSteps fuel'
          (nextTrial (ls_a v) t (ls_i v))
      else if negb isWolfe then
        awLineSearch_loop xs0 f descentDir fxs0 dufAtx0 maxSteps fuel'
          (nextTrial t (ls_b v) (ls_i v))
      else Ok v (* break *)
  end.

Definition lsInit : LsVars :=
  {| ls_a := lit 0; ls_b := lit infinity; ls_t := lit 1.0; ls_i := 0 |}.

(** The loop of [awLineSearch2] run from its initial values: the variables
    [a], [b], [t], [i] as the loop leaves them. *)
Definition awLineSearch2_vars (xs0 : list num) (f : FnCached) (gradfxs0 : list num)
    (fxs0 : num) (maxSteps : option Z) : result LsVars :=
  let maxSteps := default 10%Z maxSteps in
  let descentDir := negv gradfxs0 in
  dufAtx0 ← duf f descentDir xs0;
  awLineSearch_loop xs0 f descentDir fxs0 dufAtx0 maxSteps
    (Z.to_nat (maxSteps + 1)) lsInit.

(** [awLineSearch2]; [maxSteps = None] is the call that leaves the
    parameter to its default. *)
Definition awLineSearch2 (xs0 : list num) (f : FnCached) (gradfxs0 : list num)
    (fxs0 : num) (maxSteps : option Z) : result num :=
  v ← awLineSearch2_vars xs0 f gradfxs0 fxs0 maxSteps; mret (ls_t v).

(** ** L-BFGS *)

Record LbfgsParams : Type := {
  lastState : option Matrix;
  lastGrad : option Matrix;
  s_list : list Matrix;
  y_list : list Matrix;
  numUnconstrSteps : Z;
  memSize : Z;
}.

(** [array.reduce(callback, init)] for a callback that can raise. *)
Fixpoint reduceM {A B : Type} (callback : B → A → result B) (init : B) (l : list A)
    : result B :=
  match l with
  | [] => Ok init
  | x :: l' => acc ← callback init x; reduceM callback acc l'
  end.

Definition calculate_rho (s y : Matrix) : result num :=
  ys ← Matrix_dot y s;
  mret (lit 1.0 / (ys + EPSD)).

Definition pull_q_back (acc : Matrix * list num) (curr : num * Matrix * Matrix)
    : result (Matrix * list num) :=
  let '(q_i_plus_1, alphas2) := acc in
  let '(rho_i, s_i, y_i) := curr in
  sq ← Matrix_dot s_i q_i_plus_1;
  let alpha_i := rho_i * sq in
  q_i ← Matrix_sub q_i_plus_1 (Matrix_mul y_i alpha_i);
  mret (q_i, alphas2 ++ [alpha_i]).

Definition estimate_hess (y_km1 s_km1 : Matrix) : result Matrix :=
  sy ← Matrix_dot s_km1 y_km1;
  yy ← Matrix_dot y_km1 y_km1;
  let gamma_k := sy / (yy + EPSD) in
  let n := rows y_km1 in
  mret (Matrix_mul (Matrix_identity n) gamma_k).

Definition push_r_forward (r_i : Matrix) (curr : (num * num) * (Matrix * Matrix))
    : result Matrix :=
  let '((rho_i, alpha_i), (s_i, y_i)) := curr in
  yr ← Matrix_dot y_i r_i;
  let beta_i := rho_i * yr in
  r_i_plus_1 ← Matrix_add r_i (Matrix_mul s_i (alpha_i - beta_i));
  mret r_i_plus_1.

(** [ys[0]] and [ss[0]] are [undefined] on empty lists, and
    [s_km1.dot(y_km1)] then raises a [TypeError]. *)
Definition lbfgsInner (grad_fx_k : Matrix) (ss ys : list Matrix) : result Matrix :=
  rhos ← mapM (fun p : Matrix * Matrix => calculate_rho (fst p) (snd p)) (zip2 ss ys);
  let q_k := grad_fx_k in
  acc ← reduceM pull_q_back (q_k, []) (zip3 rhos ss ys);
  let '(q_k_minus_m, alphas) := acc in
  match ys, ss with
  | y0 :: _, s0 :: _ =>
      h_0_k ← estimate_hess y0 s0;
      let r_k_minus_m := Matrix_mmul h_0_k q_k_minus_m in
      let inputs := reverse (zip2 (zip2 rhos alphas) (zip2 ss ys)) in
      reduceM push_r_forward r_k_minus_m inputs
  | _, _ => Throw TypeError
  end.

(** [-1.0 * gradPreconditioned.dot(grad_fx_k)] *)
Definition descentDirCheck (gradPreconditioned grad_fx_k : Matrix) : result num :=
  d ← Matrix_dot gradPreconditioned grad_fx_k;
  mret (lit (-1.0) * d).

Definition lbfgs (xs gradfxs : list num) (lbfgsInfo : LbfgsParams)
    : result (list num * LbfgsParams) :=
  if (numUnconstrSteps lbfgsInfo =? 0)%Z then
    Ok (gradfxs,
        {| lastState := Some (columnVector xs);
           lastGrad := Some (columnVector gradfxs);
           s_list := [];
           y_list := [];
           numUnconstrSteps := 1;
           memSize := memSize lbfgsInfo |})
  else
    match lastState lbfgsInfo, lastGrad lbfgsInfo with
    | Some x_km1, Some grad_fx_km1 =>
        let x_k := columnVector xs in
        let grad_fx_k := columnVector gradfxs in
        let km1 := numUnconstrSteps lbfgsInfo in
        let ss_km2 := s_list lbfgsInfo in
        let ys_km2 := y_list lbfgsInfo in
        s_km1 ← Matrix_sub x_k x_km1;
        y_km1 ← Matrix_sub grad_fx_k grad_fx_km1;
        let ss_km1 := take (Z.to_nat (memSize lbfgsInfo)) ([s_km1] ++ ss_km2) in
        let ys_km1 := take (Z.to_nat (memSize lbfgsInfo)) ([y_km1] ++ ys_km2) in
        gradPreconditioned ← lbfgsInner grad_fx_k ss_km1 ys_km1;
        check ← descentDirCheck gradPreconditioned grad_fx_k;
        if check >? lit 0.0 then
          Ok (gradfxs,
              {| lastState := Some x_k;
                 lastGrad := Some grad_fx_k;
                 s_list := [];
                 y_list := [];
                 numUnconstrSteps := 1;
                 memSize := memSize lbfgsInfo |})
        else
          Ok (to1DArray gradPreconditioned,
              {| lastState := Some x_k;
                 lastGrad := Some grad_fx_k;
                 s_list := ss_km1;
                 y_list := ys_km1;
                 numUnconstrSteps := (km1 + 1)%Z;
                 memSize := memSize lbfgsInfo |})
    | _, _ => Throw InvalidLbfgsState
    end.

(** ** The inner minimizer ([minimize]) *)

Definition unconstrainedConverged2 (normGrad : num) : bool := normGrad <? uoStop.

(** The result of [minimize] ([ad.OptInfo]). *)
Record OptInfo : Type := {
  oi_xs : list num;
  oi_energyVal : num;
  oi_normGrad : num;
  oi_newLbfgsInfo : LbfgsParams;
  oi_gradient : list num;
  oi_gradientPreconditioned : list num;
  oi_failed : bool;
  oi_objEngs : list num;
  oi_constrEngs : list num;
}.

(** The mutable locals of [minimize] ([let xs], [let fxs], ...).  The
    counter [i] is the number of completed turns of the loop. *)
Record MinVars : Type := {
  v_xs : list num;
  v_fxs : num;
  v_gradfxs : list num;
  v_gradientPreconditioned : list num;
  v_normGradfxs : num;
  v_t : num;
  v_failed : bool;
  v_objEngs : list num;
  v_constrEngs : list num;
  v_newLbfgsInfo : LbfgsParams;
}.

(** How a turn of the loop ends: it falls through to [i++], or it leaves
    the loop with [break]. *)
Inductive flow : Type :=
  | Next (v : MinVars)
  | Break (v : MinVars).

(** [xs.map((x, j) => x - t * gradfxsPreconditioned[j])]; an index past the
    end of [gradfxsPreconditioned] reads [undefined], which is NaN in
    arithmetic. *)
Definition gdUpdate (t : num) (gradfxsPreconditioned xs : list num) : list num :=
  imap (fun (j : nat) (x : num) =>
          x - t * default (lit nan) (gradfxsPreconditioned !! j)) xs.

(** The locals after the oracle and [lbfgs] have been evaluated in a turn:
    [fxs], [gradfxs], [objEngs], [constrEngs], [newLbfgsInfo],
    [gradientPreconditioned] and [normGradfxs] are overwritten; [t],
    [failed] and [xs] are as given. *)
Definition evaluated (r : FnEvaled) (gradfxsPreconditioned : list num)
    (updatedLbfgsInfo : LbfgsParams) (t : num) (failed : bool) (xs' : list num)
    : MinVars :=
  {| v_xs := xs'; v_fxs := fe_f r; v_gradfxs := fe_gradf r;
     v_gradientPreconditioned := gradfxsPreconditioned;
     v_normGradfxs := dot (fe_gradf r) gradfxsPreconditioned;
     v_t := t; v_failed := failed;
     v_objEngs := fe_objEngs r; v_constrEngs := fe_constrEngs r;
     v_newLbfgsInfo := updatedLbfgsInfo |}.

Definition minimize_body (f : FnCached) (v : MinVars) : result flow :=
  let xs := v_xs v in
  if containsNaN xs then Throw NaNInState else
  r ← f xs;
  let fxs := fe_f r in
  let gradfxs := fe_gradf r in
  if containsNaN gradfxs then Throw NaNInGradient else
  p ← lbfgs xs gradfxs (v_newLbfgsInfo v);
  let gradfxsPreconditioned := fst p in
  let updatedLbfgsInfo := snd p in
  let normGradfxs := dot gradfxs gradfxsPreconditioned in
  if BREAK_EARLY && unconstrainedConverged2 normGradfxs then
    Ok (Break (evaluated r gradfxsPreconditioned updatedLbfgsInfo
                 (v_t v) (v_failed v) xs))
  else
    t ← (if USE_LINE_SEARCH
         then awLineSearch2 xs f gradfxsPreconditioned fxs None
         else Ok (v_t v));
    let normGrad := normList gradfxs in
    if isNaN fxs || isNaN normGrad then
      Ok (Break (evaluated r gradfxsPreconditioned updatedLbfgsInfo t true xs))
    else
      Ok (Next (evaluated r gradfxsPreconditioned updatedLbfgsInfo
                  t (v_failed v) (gdUpdate t gradfxsPreconditioned xs))).

(** [while (i < numSteps) { ...; i++ }] with [n = numSteps - i] turns left. *)
Fixpoint minimize_loop (f : FnCached) (n : nat) (v : MinVars) : result MinVars :=
  match n with
  | O => Ok v
  | S n' =>
      fl ← minimize_body f v;
      match fl with
      | Break v' => Ok v'
      | Next v' => minimize_loop f n' v'
      end
  end.

Definition MIN_STEPS : Z := 1.

Definition minimize_init (xs0 : list num) (lbfgsInfo : LbfgsParams) : MinVars :=
  let gradfxs := repeat (length xs0) (lit 0) in
  {| v_xs := xs0; v_fxs := lit 0.0; v_gradfxs := gradfxs;
     v_gradientPreconditioned := gradfxs; v_normGradfxs := lit 0.0;
     v_t := lit 0.0001; v_failed := false;
     v_objEngs := []; v_constrEngs := [];
     v_newLbfgsInfo := lbfgsInfo |}.

Definition minimize_return (v : MinVars) : OptInfo :=
  {| oi_xs := v_xs v; oi_energyVal := v_fxs v; oi_normGrad := v_normGradfxs v;
     oi_newLbfgsInfo := v_newLbfgsInfo v; oi_gradient := v_gradfxs v;
     oi_gradientPreconditioned := v_gradientPreconditioned v;
     oi_failed := v_failed v;
     oi_objEngs := v_objEngs v; oi_constrEngs := v_constrEngs v |}.

Definition minimize (xs0 : list num) (f : FnCached) (lbfgsInfo : LbfgsParams)
    (numSteps : Z) : result OptInfo :=
  if (numSteps <? MIN_STEPS)%Z then Throw InsufficientSteps else
  v ← minimize_loop f (Z.to_nat numSteps) (minimize_init xs0 lbfgsInfo);
  mret (minimize_return v).

(** ** Computation graphs ([types/ad])

    The implicit representation [ad.Num], for the node kinds the energy is
    built from.  The transcendental unary operators and the [Ternary],
    [Index] and [PolyRoots] nodes play no part in the scalarization. *)

Inductive unop : Set := neg | squared | usqrt | inverse | uabs.
Inductive binop : Set := bplus | btimes | bminus | bdiv | bmax | bmin.
Inductive naryop : Set := addN.

Inductive ad_Num : Type :=
  | Const (n : num)                      (* [number] *)
  | Input (key : nat) (val : num)
  | Unary (op : unop) (param : ad_Num)
  | Binary (op : binop) (left right : ad_Num)
  | Nary (op : naryop) (params : list ad_Num).

(** [Math.max] and [Math.min] are NaN as soon as one argument is. *)
Definition Math_max (a b : num) : num :=
  if isNaN a || isNaN b then lit nan else if a <? b then b else a.
Definition Math_min (a b : num) : num :=
  if isNaN a || isNaN b then lit nan else if b <? a then b else a.

Definition evalUnop (op : unop) (x : num) : num :=
  match op with
  | neg => - x
  | squared => x * x
  | usqrt => nsqrt x
  | inverse => lit 1 / x
  | uabs => nabs x
  end.

Definition evalBinop (op : binop) (x y : num) : num :=
  match op with
  | bplus => x + y
  | btimes => x * y
  | bminus => x - y
  | bdiv => x / y
  | bmax => Math_max x y
  | bmin => Math_min x y
  end.

(** The sum of a list of numbers, accumulated from the left. *)
Definition sumList (l : list num) : num := foldl nadd (lit 0) l.

(** Modelled from the spec: the value of a graph at an input vector, which
    is what the function compiled from the graph returns ([genCode] of
    [engine/Autodiff] is not among the sources).  An [Input] reads the
    component of the input vector at its key. *)
Fixpoint evalNum (inputs : list num) (e : ad_Num) : num :=
  match e with
  | Const n => n
  | Input key _ => default (lit nan) (inputs !! key)
  | Unary op param => evalUnop op (evalNum inputs param)
  | Binary op l r => evalBinop op (evalNum inputs l) (evalNum inputs r)
  | Nary addN params =>
      sumList ((fix evalList (es : list ad_Num) : list num :=
                  match es with
                  | [] => []
                  | e' :: es' => evalNum inputs e' :: evalList es'
                  end) params)
  end.

(** Modelled from the spec: [add] of [engine/AutodiffFunctions], which is
    not among the sources: the node of a sum. *)
Definition add (v w : ad_Num) : ad_Num := Binary bplus v w.

(** Modelled from the spec: [mul] of [engine/AutodiffFunctions], which is
    not among the sources: the node of a product. *)
Definition mul (v w : ad_Num) : ad_Num := Binary btimes v w.

(** Modelled from the spec: [ops.vsum] of [engine/Autodiff], which is not
    among the sources: the node of the sum [Σ] of a list of terms. *)
Definition vsum (v : list ad_Num) : ad_Num := Nary addN v.

(** Modelled from the spec: [fns.toPenalty] of [engine/Autodiff], which is
    not among the sources: [penalty(v) = max(v, 0)²]. *)
Definition toPenalty (x : ad_Num) : ad_Num := Unary squared (Binary bmax x (Const (lit 0))).

(** Modelled from the spec: [input] of [engine/Autodiff], which is not among
    the sources: the input node with a key and an initial value. *)
Definition input (val : num) (key : nat) : ad_Num := Input key val.

Definition evalEnergyOnCustom (epWeightNode : ad_Num) (objEngs constrEngs : list ad_Num)
    : ad_Num :=
  let constrWeightNode := Const constraintWeight in
  let objEng := vsum objEngs in
  let constrEng := vsum (toPenalty <$> constrEngs) in
  let overallEng := add objEng (mul constrEng (mul constrWeightNode epWeightNode)) in
  overallEng.

(** [Outputs<number>]: what a compiled graph returns.  [gradient] can have
    holes ([None]) for inputs the graph does not use. *)
Record Outputs : Type := {
  gradient : list (option num);
  primary : num;
  secondary : list num;
}.

Definition Compiled : Type := list num → Outputs.

(** ** Optimizer state ([types/state])

    The declarations of [types/state] and of [InputMeta] are not among the
    sources; the records below have the fields the optimizer reads and
    writes, an optional field being an [option]. *)

Inductive InputMetaTag : Set := Optimized | Pending.
Record InputMeta : Set := { tag : InputMetaTag }.

Inductive OptStatus : Set :=
  | NewIter
  | UnconstrainedRunning
  | UnconstrainedConverged
  | EPConverged
  | Error.

Record OptParams : Type := {
  optStatus : OptStatus;
  weight : num;
  UOround : Z;
  EPround : Z;
  lastUOstate : option (list num);
  lastUOenergy : option num;
  lastEPstate : option (list num);
  lastEPenergy : option num;
  lastGradient : list num;
  lastGradientPreconditioned : list num;
  lastObjEnergies : option (list num);
  lastConstrEnergies : option (list num);
  objectiveAndGradient : num → option (gset nat) → FnCached;
  currObjectiveAndGradient : FnCached;
  energyGraph : ad_Num;
  lbfgsInfo : LbfgsParams;
}.

Record State : Type := {
  varyingValues : list num;
  frozenValues : gset nat;
  params : OptParams;
}.

(** Modelled from the spec: [defaultLbfgsParams] of [engine/EngineUtils],
    which is not among the sources: no history, counter 0, [memSize] 17. *)
Definition defaultLbfgsParams : LbfgsParams :=
  {| lastState := None; lastGrad := None; s_list := []; y_list := [];
     numUnconstrSteps := 0; memSize := 17 |}.

(** [initConstraintWeight] of [engine/EngineUtils] is not among the sources;
    it is a parameter of the development. *)
Variable initConstraintWeight : num.

(** ** The problem builder ([genOptProblem]) *)

(** One component of [gradf]: [xs.map((x, i) => ...)]. *)
Definition maskedGradient (inputs : list InputMeta) (frozenValues : option (gset nat))
    (gradient : list (option num)) (i : nat) : result num :=
  match gradient !! i with
  | None | Some None => Ok (lit 0)        (* !(i in gradient) *)
  | Some (Some g) =>
      match inputs !! i with
      | None => Throw TypeError           (* meta.tag on undefined *)
      | Some meta =>
          Ok (match tag meta, frozenValues with
              | Optimized, Some frozen =>
                  if bool_decide (i ∈ frozen) then lit 0 else g
              | _, _ => lit 0
              end)
      end
  end.

(** [objectiveAndGradient] of [genOptProblem], for the compiled energy [f]. *)
Definition mkObjectiveAndGradient (f : Compiled) (inputs : list InputMeta)
    (objEngs : list ad_Num) (epWeight : num) (frozenValues : option (gset nat))
    : FnCached :=
  fun xs =>
    let out := f (xs ++ [epWeight]) in
    gradf ← mapM (maskedGradient inputs frozenValues (gradient out))
                 (seq 0 (length xs));
    mret {| fe_f := primary out;
            fe_gradf := gradf;
            fe_objEngs := take (length objEngs) (secondary out);
            fe_constrEngs := drop (length objEngs) (secondary out) |}.

(** [genOptProblem].  [genCode energyGraph secondary] stands for
    [genCode(makeGraph({primary: energyGraph, secondary}))]: graph
    construction, symbolic differentiation and compilation are external to
    the optimizer. *)
Definition genOptProblem (genCode : ad_Num → list ad_Num → Compiled)
    (inputs : list InputMeta) (objEngs constrEngs : list ad_Num) : OptParams :=
  let weight0 := initConstraintWeight in
  let epWeightNode := input weight0 (length inputs) in
  let energyGraph0 := evalEnergyOnCustom epWeightNode objEngs constrEngs in
  let f := genCode energyGraph0 (objEngs ++ constrEngs) in
  let objectiveAndGradient0 := mkObjectiveAndGradient f inputs objEngs in
  {| optStatus := UnconstrainedRunning;
     weight := weight0;
     UOround := 0;
     EPround := 0;
     lastUOstate := None;
     lastUOenergy := None;
     lastEPstate := None;
     lastEPenergy := None;
     lastGradient := repeat (length inputs) (lit 0);
     lastGradientPreconditioned := repeat (length inputs) (lit 0);
     lastObjEnergies := None;
     lastConstrEnergies := None;
     objectiveAndGradient := objectiveAndGradient0;
     currObjectiveAndGradient := objectiveAndGradient0 weight0 (Some ∅);
     energyGraph := energyGraph0;
     lbfgsInfo := defaultLbfgsParams |}.

(** ** The exterior-point driver ([step]) *)

(** [lastEPstate!] and [lastUOstate!] are [undefined] before the first
    round; [subv] then raises.  An [undefined] energy is NaN in
    arithmetic. *)
Definition epConverged2 (xs0 xs1 : list num) (fxs0 fxs1 : num) : bool :=
  let stateChange := normList (subv xs1 xs0) in
  let energyChange := nabs (fxs1 - fxs0) in
  (stateChange <? epStop) || (energyChange <? epStop).

Definition step_NewIter (state : State) : State :=
  let p := params state in
  {| varyingValues := varyingValues state;
     frozenValues := frozenValues state;
     params :=
       {| optStatus := UnconstrainedRunning;
          weight := initConstraintWeight;
          UOround := 0;
          EPround := 0;
          lastUOstate := lastUOstate p;
          lastUOenergy := lastUOenergy p;
          lastEPstate := lastEPstate p;
          lastEPenergy := lastEPenergy p;
          lastGradient := lastGradient p;
          lastGradientPreconditioned := lastGradientPreconditioned p;
          lastObjEnergies := lastObjEnergies p;
          lastConstrEnergies := lastConstrEnergies p;
          objectiveAndGradient := objectiveAndGradient p;
          currObjectiveAndGradient :=
            objectiveAndGradient p initConstraintWeight (Some (frozenValues state));
          energyGraph := energyGraph p;
          lbfgsInfo := defaultLbfgsParams |} |}.

Definition step_UnconstrainedRunning (state : State) (steps : Z) : result State :=
  let p := params state in
  let xs := varyingValues state in
  res ← minimize xs (currObjectiveAndGradient p) (lbfgsInfo p) steps;
  let xs := oi_xs res in
  let converged := unconstrainedConverged2 (oi_normGrad res) in
  let optParams :=
    {| optStatus :=
         if oi_failed res then Error
         else if converged then UnconstrainedConverged
         else UnconstrainedRunning;
       weight := weight p;
       UOround := (UOround p + 1)%Z;
       EPround := EPround p;
       lastUOstate := Some xs;
       lastUOenergy := Some (oi_energyVal res);
       lastEPstate := lastEPstate p;
       lastEPenergy := lastEPenergy p;
       lastGradient := oi_gradient res;
       lastGradientPreconditioned := oi_gradientPreconditioned res;
       lastObjEnergies := Some (oi_objEngs res);
       lastConstrEnergies := Some (oi_constrEngs res);
       objectiveAndGradient := objectiveAndGradient p;
       currObjectiveAndGradient := currObjectiveAndGradient p;
       energyGraph := energyGraph p;
       lbfgsInfo := if converged then defaultLbfgsParams else oi_newLbfgsInfo res |} in
  if oi_failed res then
    (* return { ...state, params: optParams } *)
    Ok {| varyingValues := varyingValues state;
          frozenValues := frozenValues state;
          params := optParams |}
  else
    Ok {| varyingValues := xs;
          frozenValues := frozenValues state;
          params := optParams |}.

(** The test [optParams.EPround > 1 && epConverged2(...)]. *)
Definition epConvergedCheck (p : OptParams) : result bool :=
  let undefinedNum (o : option num) : num := default (lit nan) o in
  if (1 <? EPround p)%Z then
    match lastEPstate p, lastUOstate p with
    | Some xs0, Some xs1 =>
        Ok (epConverged2 xs0 xs1 (undefinedNum (lastEPenergy p))
              (undefinedNum (lastUOenergy p)))
    | _, _ => Throw TypeError
    end
  else Ok false.

(** The transition out of [UnconstrainedConverged], for either outcome of
    the test. *)
Definition epTransition (state : State) (isEPConverged : bool) : State :=
  let p := params state in
     let weight' :=
       if isEPConverged then weight p else weightGrowthFactor * weight p in
     {| varyingValues := varyingValues state;
        frozenValues := frozenValues state;
        params :=
          {| optStatus := if isEPConverged then EPConverged else UnconstrainedRunning;
             weight := weight';
             UOround := if isEPConverged then UOround p else 0%Z;
             EPround := if isEPConverged then EPround p else (EPround p + 1)%Z;
             lastUOstate := lastUOstate p;
             lastUOenergy := lastUOenergy p;
             lastEPstate := lastUOstate p;
             lastEPenergy := lastUOenergy p;
             lastGradient := lastGradient p;
             lastGradientPreconditioned := lastGradientPreconditioned p;
             lastObjEnergies := lastObjEnergies p;
             lastConstrEnergies := lastConstrEnergies p;
             objectiveAndGradient := objectiveAndGradient p;
             currObjectiveAndGradient :=
               if isEPConverged then currObjectiveAndGradient p
               else objectiveAndGradient p weight' (Some (frozenValues state));
             energyGraph := energyGraph p;
             lbfgsInfo := lbfgsInfo p |} |}.

Definition step_UnconstrainedConverged (state : State) : result State :=
  isEPConverged ← epConvergedCheck (params state);
  mret (epTransition state isEPConverged).

Definition step (state : State) (steps : Z) : result State :=
  match optStatus (params state) with
  | NewIter => Ok (step_NewIter state)
  | UnconstrainedRunning => step_UnconstrainedRunning state steps
  | UnconstrainedConverged => step_UnconstrainedConverged state
  | EPConverged => Ok state
  | Error => Ok state
  end.

(** ** Vocabulary of the specification *)

(** The history invariant of the data model:
    [|sList| == |yList| ≤ memSize], and both lists are empty when the
    counter is 0. *)
Definition lbfgsInv (info : LbfgsParams) : Prop :=
  length (s_list info) = length (y_list info)
  ∧ (Z.of_nat (length (s_list info)) ≤ memSize info)%Z
  ∧ (0 ≤ numUnconstrSteps info)%Z
  ∧ (numUnconstrSteps info = 0%Z → s_list info = [] ∧ y_list info = []).

(** [exhausts f n v v']: from the locals [v], [n] turns of the loop of
    [minimize] run to their end ([i++]) and leave the locals [v']; none of
    them breaks and none raises. *)
Inductive exhausts (f : FnCached) : nat → MinVars → MinVars → Prop :=
  | exhausts_O (v : MinVars) : exhausts f O v v
  | exhausts_S (n : nat) (v v1 v2 : MinVars) :
      exhausts f n v v1 →
      minimize_body f v1 = Ok (Next v2) →
      exhausts f (S n) v v2.

(** Successive calls of [step], each on the state the previous one
    returned, with the given budgets. *)
Inductive stepsFrom : State → list Z → State → Prop :=
  | stepsFrom_nil (s : State) : stepsFrom s [] s
  | stepsFrom_cons (s s1 s2 : State) (k : Z) (ks : list Z) :
      step s k = Ok s1 →
      stepsFrom s1 ks s2 →
      stepsFrom s (k :: ks) s2.

(** The compiler is external; what the builder relies on is that the
    primary output of the compiled function is the value of the graph. *)
Definition compilesPrimary (genCode : ad_Num → list ad_Num → Compiled) : Prop :=
  ∀ (g : ad_Num) (sec : list ad_Num) (inp : list num),
    primary (genCode g sec inp) = evalNum inp g.

(** [penalty(v) = max(v, 0)²] *)
Definition penalty (v : num) : num := Math_max v (lit 0) * Math_max v (lit 0).

(** The scalarized energy in the words of the specification, with
    [c₀ = 10⁴]. *)
Definition spec_energy (objs constrs : list num) (w : num) : num :=
  sumList objs + lit 1e4 * w * sumList (penalty <$> constrs).

(** The stopping test of the line search in the words of the
    specification, with [minInterval = 10⁻¹⁰]. *)
Definition spec_shouldStop (maxSteps : Z) (numUpdates : Z) (ai bi : num) : bool :=
  (nabs (bi - ai) <? lit 1e-10) || (maxSteps <? numUpdates)%Z.

(** A column vector: every row has one entry. *)
Definition colvec (M : list (list num)) : Prop :=
  Forall (fun r : list num => length r = 1%nat) M.

(** A column vector whose row [i] holds a number of which [P] is true. *)
Definition rowHas (i : nat) (P : num → bool) (M : list (list num)) : Prop :=
  colvec M ∧ ∃ a : num, M !! i = Some [a] ∧ P a = true.

(** An oracle masks index [i]: component [i] of every gradient it returns
    is 0. *)
Definition masks (i : nat) (f : FnCached) : Prop :=
  ∀ (xs : list num) (r : FnEvaled),
    f xs = Ok r → (i < length xs)%nat → fe_gradf r !! i = Some (lit 0).

(** Every oracle the factory of [p] binds with a frozen set masks the
    members of the set. *)
Definition factoryMasks (i : nat) (p : OptParams) : Prop :=
  ∀ (w : num) (frozen : gset nat),
    i ∈ frozen → masks i (objectiveAndGradient p w (Some frozen)).

(** The brackets the loop of the line search can hold after [n] turns,
    whatever the oracle answers: each turn moves one end of the bracket to
    the trial step. *)
Fixpoint lsReach (n : nat) : list LsVars :=
  match n with
  | O => [lsInit]
  | S n' =>
      flat_map (fun v => [ nextTrial (ls_a v) (ls_t v) (ls_i v);
                           nextTrial (ls_t v) (ls_b v) (ls_i v) ])
               (lsReach n')
  end.

End Optimizer.

Arguments Matrix num : clear implicits.
Arguments FnEvaled num : clear implicits.
Arguments FnCached num : clear implicits.
Arguments LsVars num : clear implicits.
Arguments LbfgsParams num : clear implicits.
Arguments OptInfo num : clear implicits.
Arguments MinVars num : clear implicits.
Arguments flow num : clear implicits.
Arguments ad_Num num : clear implicits.
Arguments Outputs num : clear implicits.
Arguments Compiled num : clear implicits.
Arguments OptParams num : clear implicits.
Arguments State num : clear implicits.

(** ** Vocabulary on binary64 numbers *)

(** [z] is a zero or NaN: [z == 0 || Number.isNaN(z)]. *)
Definition zeroOrNaN (z : float) : bool := (z =? 0)%float || is_nan z.

(** [x] is equal to [xi], or NaN: [x == xi || Number.isNaN(x)]. *)
Definition heldAt (xi x : float) : bool := (x =? xi)%float || is_nan x.

(** [d] is not negative, or NaN: [0 <= d || Number.isNaN(d)]. *)
Definition nonNegOrNaN (d : float) : bool := (0 <=? d)%float || is_nan d.

(** Component [i] of the point is [xi] or NaN. *)
Definition heldIn (i : nat) (xi : float) (xs : list float) : Prop :=
  ∃ x : float, xs !! i = Some x ∧ heldAt xi x = true.

(** The L-BFGS state agrees with an index [i] held at [xi]: once a point
    has been recorded, row [i] of the last point is [xi] or NaN, and row
    [i] of the last gradient and of every correction vector is a zero or
    NaN. *)
Definition histFrozen (i : nat) (xi : float) (info : LbfgsParams float) : Prop :=
  numUnconstrSteps info ≠ 0%Z →
  (∀ X, lastState info = Some X → rowHas i (heldAt xi) X)
  ∧ (∀ G, lastGrad info = Some G → rowHas i zeroOrNaN G)
  ∧ Forall (rowHas i zeroOrNaN) (s_list info)
  ∧ Forall (rowHas i zeroOrNaN) (y_list info).

(** The state holds index [i] frozen at [xi]: component [i] of the
    parameters is [xi] or NaN, and the current oracle masks [i] and the
    L-BFGS state agrees, or the state is [NewIter], whose step rebinds the
    oracle and clears the L-BFGS state. *)
Definition frozenBound (i : nat) (xi : float) (s : State float) : Prop :=
  i ∈ frozenValues s
  ∧ heldIn i xi (varyingValues s)
  ∧ factoryMasks i (params s)
  ∧ (optStatus (params s) = NewIter
     ∨ (masks i (currObjectiveAndGradient (params s))
        ∧ histFrozen i xi (lbfgsInfo (params s)))).

(** ** Example problems *)

(** A compiler that evaluates the graph, with the gradient supplied by
    hand. *)
Definition interpCompile {num : Type} `{Number num}
    (grad : list num → list (option num))
    (g : ad_Num num) (sec : list (ad_Num num)) : Compiled num :=
  fun inp =>
    {| gradient := grad inp;
       primary := evalNum inp g;
       secondary := evalNum inp <$> sec |}.

(** The caller puts a state into a given status (as the front end does
    with [NewIter] when the frozen values change). *)
Definition withStatus {num : Type} (st : OptStatus) (s : State num) : State num :=
  let p := params s in
  {| varyingValues := varyingValues s;
     frozenValues := frozenValues s;
     params :=
       {| optStatus := st;
          weight := weight p;
          UOround := UOround p;
          EPround := EPround p;
          lastUOstate := lastUOstate p;
          lastUOenergy := lastUOenergy p;
          lastEPstate := lastEPstate p;
          lastEPenergy := lastEPenergy p;
          lastGradient := lastGradient p;
          lastGradientPreconditioned := lastGradientPreconditioned p;
          lastObjEnergies := lastObjEnergies p;
          lastConstrEnergies := lastConstrEnergies p;
          objectiveAndGradient := objectiveAndGradient p;
          currObjectiveAndGradient := currObjectiveAndGradient p;
          energyGraph := energyGraph p;
          lbfgsInfo := lbfgsInfo p |} |}.

(** The 2-D problem [ϕ(x) = x₀² + x₁²] with both inputs optimized. *)
Definition example_inputs : list InputMeta :=
  [ {| tag := Optimized |}; {| tag := Optimized |} ].

Definition example_objEngs {num : Type} `{Number num} (x0 x1 : num) : list (ad_Num num) :=
  [ Unary squared (Input 0 x0); Unary squared (Input 1 x1) ].

Definition example_grad {num : Type} `{Number num} (inp : list num)
    : list (option num) :=
  [ Some (lit 2 * default (lit nan) (inp !! 0%nat))%num;
    Some (lit 2 * default (lit nan) (inp !! 1%nat))%num;
    Some (lit 0) ].

Definition example_weight : float := 0.001%float.

(** The state the builder produces for it, with [x₀ = (10, 7)] and index 1
    frozen. *)
Definition example_state : State float :=
  {| varyingValues := [10; 7]%float;
     frozenValues := {[ 1%nat ]};
     params := genOptProblem example_weight (interpCompile example_grad)
                 example_inputs (example_objEngs 10 7)%float [] |}.

(** The same problem at a point whose energy overflows. *)
Definition example_state_huge : State float :=
  {| varyingValues := [1e200; 7]%float;
     frozenValues := {[ 1%nat ]};
     params := params (withStatus NewIter example_state) |}.

(** A problem with the one constraint [x₀ ≤ 0] and no objective. *)
Definition example_constrEngs : list (ad_Num float) := [ Input 0 1%float ].
Definition example_constr_params : OptParams float :=
  genOptProblem example_weight (interpCompile (fun _ => []))
    [ {| tag := Optimized |} ] [] example_constrEngs.

(** A problem with the objective [x₀²] and the constraint [x₀ ≤ 0]. *)
Definition example_both_params : OptParams float :=
  genOptProblem example_weight (interpCompile (fun _ => []))
    [ {| tag := Optimized |} ] [ Unary squared (Input 0 3%float) ] example_constrEngs.

(** The 2-D problem [ϕ(x) = x₀⁴ + x₁²], on which L-BFGS builds a history. *)
Definition quartic_grad (inp : list float) : list (option float) :=
  let x0 := default nan (inp !! 0%nat) in
  [ Some (4 * (x0 * x0 * x0))%float;
    Some (2 * default nan (inp !! 1%nat))%float;
    Some 0%float ].

(** The state the builder produces for it, with [x₀ = (100, 7)] and index
    1 frozen, put into status [NewIter]. *)
Definition quartic_new : State float :=
  withStatus NewIter
    {| varyingValues := [100; 7]%float;
       frozenValues := {[ 1%nat ]};
       params := genOptProblem example_weight (interpCompile quartic_grad)
                   example_inputs
                   [ Unary squared (Unary squared (Input 0 100%float));
                     Unary squared (Input 1 7%float) ] [] |}.

(** The oracle of the 1-D quadratic [ϕ(x) = (x - 3)²]. *)
Definition quadratic : FnCached float := fun xs =>
  let x := default nan (xs !! 0%nat) in
  Ok {| fe_f := ((x - 3) * (x - 3))%float;
        fe_gradf := [ (2 * (x - 3))%float ];
        fe_objEngs := [ ((x - 3) * (x - 3))%float ];
        fe_constrEngs := [] |}.

(** The oracle of the ill-conditioned quadratic [ϕ(x) = 10¹²·x² - x], whose
    gradient at 0 is -1. *)
Definition steep : FnCached float := fun xs =>
  let x := default nan (xs !! 0%nat) in
  Ok {| fe_f := (1e12 * x * x - x)%float;
        fe_gradf := [ (2e12 * x - 1)%float ];
        fe_objEngs := [ (1e12 * x * x - x)%float ];
        fe_constrEngs := [] |}.

(** The L-BFGS state after a first call at [x = 1] with gradient 2. *)
Definition lbfgs_after_first : LbfgsParams float :=
  {| lastState := Some [[1%float]];
     lastGrad := Some [[2%float]];
     s_list := []; y_list := [];
     numUnconstrSteps := 1; memSize := 17 |}.

(** An L-BFGS state whose last point and gradient make [yᵀs + EPSD]
    cancel at [x = 1] with gradient [1e-11]. *)
Definition lbfgs_cancelling : LbfgsParams float :=
  {| lastState := Some [[0%float]];
     lastGrad := Some [[2e-11%float]];
     s_list := []; y_list := [];
     numUnconstrSteps := 1; memSize := 17 |}.

(** The variables with which the line search on [steep] from 0, capped at
    40 turns, leaves its loop. *)
Definition steep_exit : LsVars float :=
  {| ls_a := 0%float; ls_b := 0x1p-30%float; ls_t := 0x1p-31%float; ls_i := 31 |}.

(** ** Further vocabulary *)

(** A column vector with [n] rows. *)
Definition colvecN {num : Type} (n : nat) (M : list (list num)) : Prop :=
  length M = n ∧ Forall (fun r : list num => length r = 1%nat) M.

(** Every vector the L-BFGS state holds has [n] rows. *)
Definition histDim {num : Type} (n : nat) (info : LbfgsParams num) : Prop :=
  (∀ X, lastState info = Some X → colvecN n X)
  ∧ (∀ G, lastGrad info = Some G → colvecN n G)
  ∧ Forall (colvecN n) (s_list info)
  ∧ Forall (colvecN n) (y_list info).

(** The status a call of [step] can leave a state of a given status in. *)
Definition statusNext (st st' : OptStatus) : Prop :=
  match st with
  | NewIter => st' = UnconstrainedRunning
  | UnconstrainedRunning =>
      st' = UnconstrainedRunning ∨ st' = UnconstrainedConverged ∨ st' = Error
  | UnconstrainedConverged => st' = EPConverged ∨ st' = UnconstrainedRunning
  | EPConverged => st' = EPConverged
  | Error => st' = Error
  end.

(** A state of the builder for a problem whose list of inputs is empty,
    with one parameter: [inputs[0]] is [undefined]. *)
Definition example_uncovered_state : State float :=
  {| varyingValues := [1%float];
     frozenValues := ∅;
     params := genOptProblem example_weight (interpCompile (fun _ => [Some 2%float]))
                 [] [] [] |}.

(** The example state after two rounds that the caller declared converged,
    declared converged once more: [EPround] is 2 and no snapshot was ever
    taken. *)
Definition example_state_round2 : State float :=
  withStatus UnconstrainedConverged
    (epTransition
       (withStatus UnconstrainedConverged
          (epTransition (withStatus UnconstrainedConverged example_state) false))
       false).

(** The L-BFGS state after a first call, with [memSize = 0]. *)
Definition lbfgs_no_memory : LbfgsParams float :=
  {| lastState := Some [[1%float]];
     lastGrad := Some [[2%float]];
     s_list := []; y_list := [];
     numUnconstrSteps := 1; memSize := 0 |}.

(** A fresh L-BFGS state with [memSize = 0]. *)
Definition lbfgs_fresh_no_memory : LbfgsParams float :=
  {| lastState := None; lastGrad := None; s_list := []; y_list := [];
     numUnconstrSteps := 0; memSize := 0 |}.

(** The L-BFGS state after a first call, with the last point missing. *)
Definition lbfgs_missing_state : LbfgsParams float :=
  {| lastState := None;
     lastGrad := Some [[2%float]];
     s_list := []; y_list := [];
     numUnconstrSteps := 1; memSize := 17 |}.


(** * Theorems *)

(** ** NaN detection *)

Section NaNDetection.
Context {num : Type} `{Number num}.

Lemma containsNaN_loop_keys (l : list nat) :
  containsNaN_loop ((fun i : nat => JSString (num:=num) (pretty i)) <$> l) = false.
Proof. induction l as [|i l IH]; simpl; [reflexivity | exact IH]. Qed.

(** [containsNaN] tests the keys of the array, never its elements. *)
Lemma containsNaN_false (numberList : list num) : containsNaN numberList = false.
Proof. unfold containsNaN, forInKeys. apply containsNaN_loop_keys. Qed.

End NaNDetection.

(** ** The driver *)

Section Driver.
Context {num : Type} `{Number num}.
Variable initConstraintWeight : num.

(** C7.  Terminal stickiness: on a state whose status is [EPConverged] or
    [Error], [step] returns the state itself, whatever the budget, so
    [step(step(s, k), k') = step(s, k)]. *)
Theorem step_terminal_sticky (s : State num) (k k' : Z) :
  optStatus (params s) = EPConverged ∨ optStatus (params s) = Error →
  (1 ≤ k)%Z → (1 ≤ k')%Z →
  step initConstraintWeight s k = Ok s
  ∧ (step initConstraintWeight s k ≫= fun s' => step initConstraintWeight s' k')
    = step initConstraintWeight s k.
Proof.
  intros Hterm _ _.
  assert (Hs : ∀ j, step initConstraintWeight s j = Ok s).
  { intros j. unfold step. destruct Hterm as [-> | ->]; reflexivity. }
  split; [apply Hs |]. rewrite (Hs k). simpl. apply Hs.
Qed.

(** C4, amended.  The test [steps ≥ 1] is made by [minimize], which only
    the [UnconstrainedRunning] case of [step] calls: with [steps < 1],
    [step] raises on an [UnconstrainedRunning] state, and returns a state,
    without looking at [steps], on a [NewIter], [EPConverged] or [Error]
    state. *)
Theorem step_insufficient_steps (s : State num) (steps : Z) :
  (steps < 1)%Z →
  (optStatus (params s) = UnconstrainedRunning →
     step initConstraintWeight s steps = Throw InsufficientSteps)
  ∧ (optStatus (params s) = NewIter →
       step initConstraintWeight s steps = Ok (step_NewIter initConstraintWeight s))
  ∧ (optStatus (params s) = EPConverged ∨ optStatus (params s) = Error →
       step initConstraintWeight s steps = Ok s).
Proof.
  intros Hlt. unfold step. repeat split.
  - intros ->. unfold step_UnconstrainedRunning, minimize, MIN_STEPS.
    destruct (Z.ltb_spec steps 1); [reflexivity | lia].
  - intros ->. reflexivity.
  - intros [-> | ->]; reflexivity.
Qed.

End Driver.

(** ** The line search *)

Section LineSearch.
Context {num : Type} `{Number num}.
Local Open Scope num_scope.
Variables (xs0 : list num) (f : FnCached num) (descentDir : list num).
Variables (fxs0 dufAtx0 : num) (maxSteps : Z).

Lemma awLineSearch_loop_stopped (fuel : nat) (v : LsVars num) :
  shouldStop maxSteps (ls_i v) (ls_a v) (ls_b v) (ls_t v) = true →
  awLineSearch_loop xs0 f descentDir fxs0 dufAtx0 maxSteps fuel v = Ok v.
Proof. intros Hstop. destruct fuel; simpl; rewrite Hstop; reflexivity. Qed.

Lemma shouldStop_no_fuel (v : LsVars num) :
  (maxSteps + 1 - ls_i v ≤ 0)%Z →
  shouldStop maxSteps (ls_i v) (ls_a v) (ls_b v) (ls_t v) = true.
Proof.
  intros Hle. unfold shouldStop.
  destruct (Z.ltb_spec maxSteps (ls_i v)); [apply orb_true_r | lia].
Qed.

(** Past [maxSteps + 1 - i] turns the fuel plays no part. *)
Lemma awLineSearch_loop_fuel (fuel fuel' : nat) (v : LsVars num) :
  (maxSteps + 1 - ls_i v ≤ Z.of_nat fuel)%Z →
  (maxSteps + 1 - ls_i v ≤ Z.of_nat fuel')%Z →
  awLineSearch_loop xs0 f descentDir fxs0 dufAtx0 maxSteps fuel v
  = awLineSearch_loop xs0 f descentDir fxs0 dufAtx0 maxSteps fuel' v.
Proof.
  revert fuel' v. induction fuel as [|fuel IH]; intros fuel' v Hf Hf'.
  - rewrite !awLineSearch_loop_stopped; [reflexivity | |];
      apply shouldStop_no_fuel; lia.
  - destruct fuel' as [|fuel'].
    { rewrite !awLineSearch_loop_stopped; [reflexivity | |];
        apply shouldStop_no_fuel; lia. }
    simpl.
    destruct (shouldStop maxSteps (ls_i v) (ls_a v) (ls_b v) (ls_t v)); [reflexivity |].
    destruct (f (addv xs0 (scalev (ls_t v) descentDir))) as [r | e]; simpl; [| reflexivity].
    destruct (armijo fxs0 dufAtx0 (ls_t v) (fe_f r)); simpl.
    + destruct (wolfe descentDir dufAtx0 (ls_t v) (fe_gradf r)); simpl; [reflexivity |].
      apply IH; simpl; lia.
    + apply IH; simpl; lia.
Qed.

(** How the loop is left: stopped by [shouldStop], or by [break] at a trial
    step at which both conditions hold. *)
Lemma awLineSearch_loop_exit (fuel : nat) (v v' : LsVars num) :
  (maxSteps + 1 - ls_i v ≤ Z.of_nat fuel)%Z →
  awLineSearch_loop xs0 f descentDir fxs0 dufAtx0 maxSteps fuel v = Ok v' →
  shouldStop maxSteps (ls_i v') (ls_a v') (ls_b v') (ls_t v') = true
  ∨ ∃ r, f (addv xs0 (scalev (ls_t v') descentDir)) = Ok r
         ∧ armijo fxs0 dufAtx0 (ls_t v') (fe_f r) = true
         ∧ wolfe descentDir dufAtx0 (ls_t v') (fe_gradf r) = true.
Proof.
  revert v. induction fuel as [|fuel IH]; intros v Hf.
  - rewrite awLineSearch_loop_stopped by (apply shouldStop_no_fuel; lia).
    intros [= <-]. left. apply shouldStop_no_fuel; lia.
  - simpl.
    destruct (shouldStop maxSteps (ls_i v) (ls_a v) (ls_b v) (ls_t v)) eqn:Hstop.
    { intros [= <-]. left. exact Hstop. }
    destruct (f (addv xs0 (scalev (ls_t v) descentDir))) as [r | e] eqn:Hr; simpl;
      [| discriminate].
    destruct (armijo fxs0 dufAtx0 (ls_t v) (fe_f r)) eqn:Ha; simpl.
    + destruct (wolfe descentDir dufAtx0 (ls_t v) (fe_gradf r)) eqn:Hw; simpl.
      * intros [= <-]. right. exists r. auto.
      * apply IH; simpl; lia.
    + apply IH; simpl; lia.
Qed.

(** The variables of the loop always lie among [lsReach]. *)
Lemma awLineSearch_loop_reach (fuel n : nat) (v v' : LsVars num) :
  In v (lsReach n) →
  awLineSearch_loop xs0 f descentDir fxs0 dufAtx0 maxSteps fuel v = Ok v' →
  ∃ m : nat, (n ≤ m ≤ n + fuel)%nat ∧ In v' (lsReach m).
Proof.
  revert n v. induction fuel as [|fuel IH]; intros n v Hin; simpl.
  - intros Heq. assert (Hv : v = v').
    { revert Heq. destruct (shouldStop maxSteps _ _ _ _); congruence. }
    subst v'. exists n. split; [lia | assumption].
  - destruct (shouldStop maxSteps _ _ _ _).
    { intros Heq. assert (v = v') as <- by congruence.
      exists n. split; [lia | assumption]. }
    destruct (f _) as [r | e]; simpl; [| discriminate].
    assert (Hnext : ∀ w, In w [ nextTrial (ls_a v) (ls_t v) (ls_i v);
                                 nextTrial (ls_t v) (ls_b v) (ls_i v) ] →
              In w (lsReach (S n))).
    { intros w Hw. simpl. apply in_flat_map. exists v. split; assumption. }
    destruct (armijo fxs0 dufAtx0 (ls_t v) (fe_f r)); simpl.
    + destruct (wolfe descentDir dufAtx0 (ls_t v) (fe_gradf r)); simpl.
      * intros Heq. assert (v = v') as <- by congruence.
        exists n. split; [lia | assumption].
      * intros Hloop. apply (IH (S n)) in Hloop; [| apply Hnext; simpl; auto].
        destruct Hloop as (m & Hm & Hin'). exists m. split; [lia | assumption].
    + intros Hloop. apply (IH (S n)) in Hloop; [| apply Hnext; simpl; auto].
      destruct Hloop as (m & Hm & Hin'). exists m. split; [lia | assumption].
Qed.

End LineSearch.

Section LineSearchResults.
Context {num : Type} `{Number num}.
Local Open Scope num_scope.

Lemma awLineSearch_loop_turns (xs0 : list num) (f : FnCached num) (d : list num)
    (fxs0 dufAtx0 : num) (maxSteps : Z) (fuel : nat) (v v' : LsVars num) :
  awLineSearch_loop xs0 f d fxs0 dufAtx0 maxSteps fuel v = Ok v' →
  (ls_i v ≤ ls_i v' ≤ Z.max (ls_i v) (maxSteps + 1))%Z.
Proof.
  revert v. induction fuel as [|fuel IH]; intros v; simpl.
  - intros Heq. assert (Hv : v = v').
    { revert Heq. destruct (shouldStop maxSteps _ _ _ _); congruence. }
    subst v'. lia.
  - unfold shouldStop at 1.
    destruct (nabs (ls_b v - ls_a v) <? minInterval); simpl.
    { intros Heq. assert (v = v') as <- by congruence. lia. }
    destruct (Z.ltb_spec maxSteps (ls_i v)).
    { intros Heq. assert (v = v') as <- by congruence. lia. }
    destruct (f _) as [r | e]; simpl; [| discriminate].
    destruct (armijo fxs0 dufAtx0 (ls_t v) (fe_f r)); simpl.
    + destruct (wolfe d dufAtx0 (ls_t v) (fe_gradf r)); simpl.
      * intros Heq. assert (v = v') as <- by congruence. lia.
      * intros Hloop. apply IH in Hloop. simpl in Hloop. lia.
    + intros Hloop. apply IH in Hloop. simpl in Hloop. lia.
Qed.

(** C9, amended.  [minInterval] is [10e-10], that is [10⁻⁹].  The loop of
    the line search stops exactly when [|b - a| < 10⁻⁹] or the count of
    turns exceeds [maxSteps] (10 by default).  When the test holds, the
    loop is left with its variables as they are, the oracle not being
    evaluated again.  When the test does not hold, the loop goes on: it
    evaluates the oracle at the trial point [x₀ + t·d], so that an error
    the oracle raises there is the error of the loop, and unless both the
    Armijo and the Wolfe condition hold there it makes a further turn.
    [awLineSearch2] returns the [t] the loop is left with. *)
Theorem awLineSearch_stopping_rule (xs0 : list num) (f : FnCached num)
    (gradfxs0 : list num) (fxs0 dufAtx0 : num) (maxSteps : option Z)
    (fuel : nat) (v : LsVars num) :
  (default 10%Z maxSteps + 1 - ls_i v ≤ Z.of_nat fuel)%Z →
  let stop :=
    (nabs (ls_b v - ls_a v) <? lit 1e-9) || (default 10%Z maxSteps <? ls_i v)%Z in
  let loop :=
    awLineSearch_loop xs0 f (negv gradfxs0) fxs0 dufAtx0 (default 10%Z maxSteps)
      fuel v in
  (stop = true → loop = Ok v)
  ∧ (stop = false →
     ∀ e : exn,
       f (addv xs0 (scalev (ls_t v) (negv gradfxs0))) = Throw e → loop = Throw e)
  ∧ (stop = false →
     ∀ (r : FnEvaled num) (v' : LsVars num),
       f (addv xs0 (scalev (ls_t v) (negv gradfxs0))) = Ok r →
       armijo fxs0 dufAtx0 (ls_t v) (fe_f r)
       && wolfe (negv gradfxs0) dufAtx0 (ls_t v) (fe_gradf r) = false →
       loop = Ok v' → (ls_i v < ls_i v')%Z)
  ∧ (∀ v' : LsVars num,
       awLineSearch2_vars xs0 f gradfxs0 fxs0 maxSteps = Ok v' →
       awLineSearch2 xs0 f gradfxs0 fxs0 maxSteps = Ok (ls_t v')).
Proof.
  intros Hfuel stop loop. split_and!.
  - intros Hstop. apply awLineSearch_loop_stopped. exact Hstop.
  - intros Hstop e He. subst loop.
    destruct fuel as [|fuel].
    { apply orb_false_iff in Hstop as [_ Hmany]. apply Z.ltb_ge in Hmany. lia. }
    simpl.
    change (shouldStop (default 10%Z maxSteps) (ls_i v) (ls_a v) (ls_b v) (ls_t v))
      with stop.
    rewrite Hstop, He. reflexivity.
  - intros Hstop r v' Hr Hcond. subst loop.
    destruct fuel as [|fuel].
    { apply orb_false_iff in Hstop as [_ Hmany]. apply Z.ltb_ge in Hmany. lia. }
    simpl.
    change (shouldStop (default 10%Z maxSteps) (ls_i v) (ls_a v) (ls_b v) (ls_t v))
      with stop.
    rewrite Hstop, Hr. cbn [mbind result_bind].
    destruct (armijo fxs0 dufAtx0 (ls_t v) (fe_f r)); simpl in Hcond |- *.
    + rewrite Hcond. simpl. intros Hloop.
      apply awLineSearch_loop_turns in Hloop. simpl in Hloop. lia.
    + intros Hloop. apply awLineSearch_loop_turns in Hloop. simpl in Hloop. lia.
  - intros v' Hv'. unfold awLineSearch2. rewrite Hv'. reflexivity.
Qed.

(** C6, amended.  When [awLineSearch2] returns [t], the loop was left with
    the cap [maxSteps] exceeded, or with the bracket narrower than
    [minInterval], or the Armijo inequality
    [ϕ(x₀ + t·d) ≤ ϕ₀ + c₁·t·⟨d, g₀⟩] holds at [t], with [d] the negated
    direction given and [⟨d, g₀⟩] taken with the gradient of the oracle at
    [x₀]. *)
Theorem awLineSearch2_exit (xs0 : list num) (f : FnCached num) (gradfxs0 : list num)
    (fxs0 : num) (maxSteps : option Z) (t : num) :
  awLineSearch2 xs0 f gradfxs0 fxs0 maxSteps = Ok t →
  ∃ (dufAtx0 : num) (v : LsVars num),
    duf f (negv gradfxs0) xs0 = Ok dufAtx0
    ∧ awLineSearch2_vars xs0 f gradfxs0 fxs0 maxSteps = Ok v
    ∧ t = ls_t v
    ∧ ((default 10%Z maxSteps < ls_i v)%Z
       ∨ (nabs (ls_b v - ls_a v) <? minInterval) = true
       ∨ ∃ r, f (addv xs0 (scalev t (negv gradfxs0))) = Ok r
              ∧ armijo fxs0 dufAtx0 t (fe_f r) = true).
Proof.
  unfold awLineSearch2, awLineSearch2_vars.
  destruct (duf f (negv gradfxs0) xs0) as [d0 | e] eqn:Hd; simpl; [| discriminate].
  destruct (awLineSearch_loop _ _ _ _ _ _ _ _) as [v | e] eqn:Hloop; simpl; [| discriminate].
  intros [= <-]. exists d0, v. repeat split.
  apply awLineSearch_loop_exit in Hloop; [| simpl; lia].
  destruct Hloop as [Hstop | (r & Hr & Ha & _)].
  - unfold shouldStop in Hstop. apply orb_true_iff in Hstop as [Hsmall | Hmany].
    + right; left. exact Hsmall.
    + left. apply Z.ltb_lt. exact Hmany.
  - right; right. exists r. auto.
Qed.

End LineSearchResults.

(** ** L-BFGS *)

Section Lbfgs.
Context {num : Type} `{Number num}.
Local Open Scope num_scope.

Lemma to1DArray_columnVector (xs : list num) : to1DArray (columnVector xs) = xs.
Proof.
  unfold to1DArray, columnVector.
  induction xs as [|x xs IH]; simpl; [reflexivity | f_equal; exact IH].
Qed.

Lemma colvec_zip_with (op : num → num → num) (A B : list (list num)) :
  colvec A → colvec B → colvec (zip_with (zip_with op) A B).
Proof.
  intros HA HB. apply Forall_lookup. intros j r Hr.
  apply lookup_zip_with_Some in Hr as (x & y & -> & Hx & Hy).
  apply (proj1 (Forall_lookup _ _) HA) in Hx.
  apply (proj1 (Forall_lookup _ _) HB) in Hy.
  destruct x as [|x0 [|]]; try discriminate.
  destruct y as [|y0 [|]]; try discriminate. reflexivity.
Qed.

(** The matrix operations that return. *)
Lemma Matrix_sub_Ok (a b M : Matrix num) :
  Matrix_sub a b = Ok M →
  M = zip_with (zip_with nsub) a b ∧ length a = length b ∧ columns a = columns b.
Proof.
  unfold Matrix_sub, dimensionsDiffer, rows.
  destruct (bool_decide_reflect (length a = length b)); simpl; [| discriminate].
  destruct (bool_decide_reflect (columns a = columns b)); simpl; [| discriminate].
  intros [= <-]. auto.
Qed.

Lemma Matrix_sub_Throw (a b : Matrix num) (e : exn) :
  Matrix_sub a b = Throw e → e = RangeError.
Proof. unfold Matrix_sub. destruct (dimensionsDiffer a b); congruence. Qed.

Lemma Matrix_add_Ok (a b M : Matrix num) :
  Matrix_add a b = Ok M →
  M = zip_with (zip_with nadd) a b ∧ length a = length b ∧ columns a = columns b.
Proof.
  unfold Matrix_add, dimensionsDiffer, rows.
  destruct (bool_decide_reflect (length a = length b)); simpl; [| discriminate].
  destruct (bool_decide_reflect (columns a = columns b)); simpl; [| discriminate].
  intros [= <-]. auto.
Qed.

Lemma Matrix_dot_Ok (a b : Matrix num) (d : num) :
  Matrix_dot a b = Ok d →
  d = dot (to1DArray a) (to1DArray b)
  ∧ length (to1DArray a) = length (to1DArray b).
Proof.
  unfold Matrix_dot.
  destruct (bool_decide_reflect (length (to1DArray a) = length (to1DArray b)));
    simpl; [| discriminate].
  intros [= <-]. auto.
Qed.

(** What holds of the initial value and is kept by every call of the
    callback that returns holds of the result of [reduce]. *)
Lemma reduceM_inv {A B : Type} (P : B → Prop) (Q : A → Prop)
    (callback : B → A → result B) (l : list A) (init r : B) :
  (∀ b a b', P b → Q a → callback b a = Ok b' → P b') →
  Forall Q l → P init → reduceM callback init l = Ok r → P r.
Proof.
  intros Hstep Hl. revert init.
  induction Hl as [|a l Ha _ IH]; intros init Hinit; simpl.
  - intros [= <-]. exact Hinit.
  - destruct (callback init a) as [acc | e] eqn:Hc; simpl; [| discriminate].
    apply IH. eapply Hstep; eassumption.
Qed.

(** The steps of a call of [lbfgsInner] that returns. *)
Lemma lbfgsInner_Ok (g : Matrix num) (ss ys : list (Matrix num)) (M : Matrix num) :
  lbfgsInner g ss ys = Ok M →
  ∃ (rhos : list num) (q : Matrix num) (alphas : list num)
    (y0 s0 : Matrix num) (ys' ss' : list (Matrix num)) (h : Matrix num),
    mapM (fun p : Matrix num * Matrix num => calculate_rho (fst p) (snd p))
         (zip2 ss ys) = Ok rhos
    ∧ reduceM pull_q_back (g, []) (zip3 rhos ss ys) = Ok (q, alphas)
    ∧ ys = y0 :: ys' ∧ ss = s0 :: ss'
    ∧ estimate_hess y0 s0 = Ok h
    ∧ reduceM push_r_forward (Matrix_mmul h q)
        (reverse (zip2 (zip2 rhos alphas) (zip2 ss ys))) = Ok M.
Proof.
  unfold lbfgsInner.
  destruct (mapM _ _) as [rhos | e] eqn:Hrhos; simpl; [| discriminate].
  destruct (reduceM pull_q_back _ _) as [[q alphas] | e] eqn:Hq; simpl; [| discriminate].
  destruct ys as [|y0 ys']; [discriminate |].
  destruct ss as [|s0 ss']; [discriminate |].
  destruct (estimate_hess y0 s0) as [h | e] eqn:Hh; simpl; [| discriminate].
  intros HM. exists rhos, q, alphas, y0, s0, ys', ss', h. auto 10.
Qed.

(** The steps of a call of [lbfgs], other than the initial one, that
    returns. *)
Lemma lbfgs_later (xs gradfxs : list num) (info : LbfgsParams num)
    (gPre : list num) (info' : LbfgsParams num) :
  numUnconstrSteps info ≠ 0%Z →
  lbfgs xs gradfxs info = Ok (gPre, info') →
  ∃ (X G s y M : Matrix num) (check : num),
    lastState info = Some X ∧ lastGrad info = Some G
    ∧ Matrix_sub (columnVector xs) X = Ok s
    ∧ Matrix_sub (columnVector gradfxs) G = Ok y
    ∧ lbfgsInner (columnVector gradfxs)
        (take (Z.to_nat (memSize info)) (s :: s_list info))
        (take (Z.to_nat (memSize info)) (y :: y_list info)) = Ok M
    ∧ descentDirCheck M (columnVector gradfxs) = Ok check
    ∧ (((check >? lit 0.0) = true
        ∧ gPre = gradfxs
        ∧ info' = {| lastState := Some (columnVector xs);
                     lastGrad := Some (columnVector gradfxs);
                     s_list := []; y_list := [];
                     numUnconstrSteps := 1; memSize := memSize info |})
       ∨ ((check >? lit 0.0) = false
          ∧ gPre = to1DArray M
          ∧ info' = {| lastState := Some (columnVector xs);
                       lastGrad := Some (columnVector gradfxs);
                       s_list := take (Z.to_nat (memSize info)) (s :: s_list info);
                       y_list := take (Z.to_nat (memSize info)) (y :: y_list info);
                       numUnconstrSteps := (numUnconstrSteps info + 1)%Z;
                       memSize := memSize info |})).
Proof.
  intros H0. unfold lbfgs.
  destruct (Z.eqb_spec (numUnconstrSteps info) 0); [contradiction |].
  destruct (lastState info) as [X |]; [| discriminate].
  destruct (lastGrad info) as [G |]; [| discriminate].
  destruct (Matrix_sub (columnVector xs) X) as [s | e] eqn:Hs; simpl; [| discriminate].
  destruct (Matrix_sub (columnVector gradfxs) G) as [y | e] eqn:Hy; simpl;
    [| discriminate].
  destruct (lbfgsInner _ _ _) as [M | e] eqn:HM; simpl; [| discriminate].
  destruct (descentDirCheck M _) as [check | e] eqn:Hc; simpl; [| discriminate].
  intros Hret. exists X, G, s, y, M, check. split_and!; try reflexivity; try assumption.
  destruct (nltb (lit 0.0) check); injection Hret as <- <-; [left | right]; auto.
Qed.

Lemma descentDirCheck_Ok (M : Matrix num) (g : list num) (check : num) :
  descentDirCheck M (columnVector g) = Ok check →
  check = lit (-1.0) * dot (to1DArray M) g.
Proof.
  unfold descentDirCheck.
  destruct (Matrix_dot _ _) as [d | e] eqn:Hd; simpl; [| discriminate].
  apply Matrix_dot_Ok in Hd as [-> _]. rewrite to1DArray_columnVector.
  intros [= <-]. reflexivity.
Qed.

(** The three ways [lbfgs] returns. *)
Lemma lbfgs_cases (xs gradfxs : list num) (info : LbfgsParams num)
    (gPre : list num) (info' : LbfgsParams num) :
  lbfgs xs gradfxs info = Ok (gPre, info') →
  (* the initial call *)
  (numUnconstrSteps info = 0%Z ∧ gPre = gradfxs
   ∧ s_list info' = [] ∧ y_list info' = [] ∧ numUnconstrSteps info' = 1%Z
   ∧ memSize info' = memSize info)
  (* a reset *)
  ∨ (numUnconstrSteps info ≠ 0%Z ∧ gPre = gradfxs
     ∧ s_list info' = [] ∧ y_list info' = [] ∧ numUnconstrSteps info' = 1%Z
     ∧ memSize info' = memSize info)
  (* an update *)
  ∨ (numUnconstrSteps info ≠ 0%Z
     ∧ (lit (-1.0) * dot gPre gradfxs >? lit 0.0) = false
     ∧ (∃ s y, s_list info' = take (Z.to_nat (memSize info)) (s :: s_list info)
               ∧ y_list info' = take (Z.to_nat (memSize info)) (y :: y_list info))
     ∧ numUnconstrSteps info' = (numUnconstrSteps info + 1)%Z
     ∧ memSize info' = memSize info).
Proof.
  destruct (Z.eq_dec (numUnconstrSteps info) 0) as [H0 | H0].
  { unfold lbfgs. rewrite H0. intros [= <- <-]. left. simpl. auto 10. }
  intros Hl. apply lbfgs_later in Hl; [| exact H0].
  destruct Hl as (X & G & s & y & M & check & _ & _ & _ & _ & _ & Hc
                  & [(Ht & -> & ->) | (Ht & -> & ->)]).
  - right; left. simpl. auto 10.
  - right; right. simpl. apply descentDirCheck_Ok in Hc. subst check.
    split_and!; eauto.
Qed.

Lemma lbfgsInv_default : lbfgsInv (defaultLbfgsParams (num:=num)).
Proof. unfold lbfgsInv; simpl. repeat split; lia. Qed.

Lemma lbfgs_inv (xs gradfxs : list num) (info : LbfgsParams num)
    (gPre : list num) (info' : LbfgsParams num) :
  lbfgsInv info →
  lbfgs xs gradfxs info = Ok (gPre, info') →
  lbfgsInv info'.
Proof.
  intros (Hlen & Hmem & Hpos & Hzero) Hl. apply lbfgs_cases in Hl.
  unfold lbfgsInv.
  destruct Hl as [(_ & _ & -> & -> & -> & ->) | [(_ & _ & -> & -> & -> & ->)
                 | (H0 & _ & (s & y & -> & ->) & -> & ->)]];
    simpl; try (repeat split; (lia || discriminate)).
  rewrite !length_take. simpl. repeat split; lia.
Qed.

(** The ways a turn of the loop of [minimize] ends without raising. *)
Lemma minimize_body_cases (f : FnCached num) (v : MinVars num) (fl : flow num) :
  minimize_body f v = Ok fl →
  ∃ (r : FnEvaled num) (gPre : list num) (info' : LbfgsParams num),
    f (v_xs v) = Ok r
    ∧ lbfgs (v_xs v) (fe_gradf r) (v_newLbfgsInfo v) = Ok (gPre, info')
    ∧ ((unconstrainedConverged2 (dot (fe_gradf r) gPre) = true
        ∧ fl = Break (evaluated r gPre info' (v_t v) (v_failed v) (v_xs v)))
       ∨ (unconstrainedConverged2 (dot (fe_gradf r) gPre) = false
          ∧ ∃ t, awLineSearch2 (v_xs v) f gPre (fe_f r) None = Ok t
                 ∧ ((isNaN (fe_f r) || isNaN (normList (fe_gradf r)) = true
                     ∧ fl = Break (evaluated r gPre info' t true (v_xs v)))
                    ∨ (isNaN (fe_f r) || isNaN (normList (fe_gradf r)) = false
                       ∧ fl = Next (evaluated r gPre info' t (v_failed v)
                                      (gdUpdate t gPre (v_xs v))))))).
Proof.
  unfold minimize_body, BREAK_EARLY, USE_LINE_SEARCH.
  destruct (containsNaN (v_xs v)); [discriminate |].
  destruct (f (v_xs v)) as [r | e] eqn:Hr; [| discriminate].
  cbn [mbind result_bind].
  destruct (containsNaN (fe_gradf r)); [discriminate |].
  destruct (lbfgs _ _ _) as [[gPre info'] | e] eqn:Hl; [| discriminate].
  cbn [mbind result_bind fst snd andb].
  intros Hfl. exists r, gPre, info'. split; [reflexivity |]. split; [exact Hl |].
  destruct (unconstrainedConverged2 _) eqn:Hc.
  { left. injection Hfl as <-. auto. }
  right. split; [reflexivity |].
  destruct (awLineSearch2 _ _ _ _ _) as [t | e] eqn:Ht; [| discriminate].
  cbn [mbind result_bind] in Hfl. exists t. split; [reflexivity |].
  destruct (isNaN (fe_f r) || isNaN (normList (fe_gradf r))) eqn:Hn;
    injection Hfl as <-; auto.
Qed.

Lemma minimize_body_inv (f : FnCached num) (v : MinVars num) (fl : flow num) :
  lbfgsInv (v_newLbfgsInfo v) →
  minimize_body f v = Ok fl →
  lbfgsInv (v_newLbfgsInfo (match fl with Next v' | Break v' => v' end)).
Proof.
  intros Hinv Hb. apply minimize_body_cases in Hb.
  destruct Hb as (r & gPre & info' & _ & Hl & Hfl).
  apply lbfgs_inv in Hl; [| exact Hinv].
  destruct Hfl as [[_ ->] | (_ & t & _ & [[_ ->] | [_ ->]])]; exact Hl.
Qed.

Lemma minimize_loop_inv (f : FnCached num) (n : nat) (v v' : MinVars num) :
  lbfgsInv (v_newLbfgsInfo v) →
  minimize_loop f n v = Ok v' →
  lbfgsInv (v_newLbfgsInfo v').
Proof.
  revert v. induction n as [|n IH]; intros v Hinv; simpl.
  - intros [= <-]. exact Hinv.
  - destruct (minimize_body f v) as [fl | e] eqn:Hb; simpl; [| discriminate].
    apply minimize_body_inv in Hb; [| exact Hinv].
    destruct fl as [v1 | v1].
    + apply IH. exact Hb.
    + intros [= <-]. exact Hb.
Qed.

Lemma minimize_inv (xs0 : list num) (f : FnCached num) (info : LbfgsParams num)
    (numSteps : Z) (res : OptInfo num) :
  lbfgsInv info →
  minimize xs0 f info numSteps = Ok res →
  lbfgsInv (oi_newLbfgsInfo res).
Proof.
  intros Hinv. unfold minimize.
  destruct (numSteps <? MIN_STEPS)%Z; [discriminate |].
  destruct (minimize_loop _ _ _) as [v | e] eqn:Hloop; simpl; [| discriminate].
  intros [= <-]. simpl. eapply minimize_loop_inv; [| exact Hloop]. exact Hinv.
Qed.

Variable initConstraintWeight : num.

Lemma genOptProblem_lbfgsInv
    (genCode : ad_Num num → list (ad_Num num) → Compiled num)
    (inputs : list InputMeta) (objEngs constrEngs : list (ad_Num num)) :
  lbfgsInv (lbfgsInfo (genOptProblem initConstraintWeight genCode inputs
                         objEngs constrEngs)).
Proof. apply lbfgsInv_default. Qed.

Lemma step_lbfgsInv (s s' : State num) (steps : Z) :
  lbfgsInv (lbfgsInfo (params s)) →
  step initConstraintWeight s steps = Ok s' →
  lbfgsInv (lbfgsInfo (params s')).
Proof.
  intros Hinv. unfold step.
  destruct (optStatus (params s)).
  - intros [= <-]. apply lbfgsInv_default.
  - unfold step_UnconstrainedRunning.
    destruct (minimize _ _ _ _) as [res | e] eqn:Hm; simpl; [| discriminate].
    apply minimize_inv in Hm; [| exact Hinv].
    destruct (oi_failed res); intros [= <-]; simpl;
      (destruct (unconstrainedConverged2 _); [apply lbfgsInv_default | exact Hm]).
  - unfold step_UnconstrainedConverged.
    destruct (epConvergedCheck _) as [b | e]; simpl; [| discriminate].
    intros [= <-]. exact Hinv.
  - intros [= <-]. exact Hinv.
  - intros [= <-]. exact Hinv.
Qed.

(** C8.  History bound: [step] keeps the invariant of the L-BFGS state,
    which holds of the state the builder produces.  In the state a call of
    [step] returns, [|sList| = |yList| ≤ memSize], and both lists are empty
    when [numUnconstrSteps] is 0. *)
Theorem step_history_bound (s s' : State num) (steps : Z) :
  lbfgsInv (lbfgsInfo (params s)) →
  step initConstraintWeight s steps = Ok s' →
  let info' := lbfgsInfo (params s') in
  length (s_list info') = length (y_list info')
  ∧ (Z.of_nat (length (s_list info')) ≤ memSize info')%Z
  ∧ (numUnconstrSteps info' = 0%Z → s_list info' = [] ∧ y_list info' = []).
Proof.
  intros Hinv Hstep.
  destruct (step_lbfgsInv _ _ _ Hinv Hstep) as (? & ? & ? & ?). auto.
Qed.

End Lbfgs.

(** ** The inner minimizer *)

Section Minimize.
Context {num : Type} `{Number num}.
Local Open Scope num_scope.

Lemma exhausts_loop (f : FnCached num) (n : nat) (v v' : MinVars num) :
  exhausts f n v v' →
  ∀ m : nat, minimize_loop f (n + m) v = minimize_loop f m v'.
Proof.
  induction 1 as [v | n v v1 v2 _ IH Hbody]; intros m; [reflexivity |].
  replace (S n + m)%nat with (n + S m)%nat by lia.
  rewrite IH. simpl. rewrite Hbody. reflexivity.
Qed.

(** C10.  When the loop of [minimize] runs all its [numSteps] turns, with
    no break and no failure, the last turn evaluates the oracle at the
    point [xs] held before it, takes the direction [gPre] of [lbfgs] and
    the step [t] of the line search there, and moves every component [x]
    of the point to [x - t·gPre[j]].  The [energyVal] returned is the
    energy of that evaluation, at the point before the move; the [xs]
    returned is the moved point, at which the oracle is not evaluated. *)
Theorem minimize_exhausted_energy (xs0 : list num) (f : FnCached num)
    (info : LbfgsParams num) (numSteps : Z) (v' : MinVars num) :
  (1 ≤ numSteps)%Z →
  exhausts f (Z.to_nat numSteps) (minimize_init xs0 info) v' →
  ∃ (res : OptInfo num) (vprev : MinVars num) (r : FnEvaled num)
    (gPre : list num) (info' : LbfgsParams num) (t : num),
    minimize xs0 f info numSteps = Ok res
    ∧ exhausts f (Z.to_nat numSteps - 1) (minimize_init xs0 info) vprev
    ∧ f (v_xs vprev) = Ok r
    ∧ lbfgs (v_xs vprev) (fe_gradf r) (v_newLbfgsInfo vprev) = Ok (gPre, info')
    ∧ awLineSearch2 (v_xs vprev) f gPre (fe_f r) None = Ok t
    ∧ oi_energyVal res = fe_f r
    ∧ length (oi_xs res) = length (v_xs vprev)
    ∧ ∀ (j : nat) (x : num),
        v_xs vprev !! j = Some x →
        oi_xs res !! j = Some (x - t * default (lit nan) (gPre !! j)).
Proof.
  intros Hsteps Hex.
  exists (minimize_return v').
  assert (Hmin : minimize xs0 f info numSteps = Ok (minimize_return v')).
  { unfold minimize, MIN_STEPS.
    destruct (Z.ltb_spec numSteps 1); [lia |].
    pose proof (exhausts_loop _ _ _ _ Hex 0%nat) as Hloop.
    rewrite Nat.add_0_r in Hloop. rewrite Hloop. reflexivity. }
  destruct (Z.to_nat numSteps) as [|n] eqn:Hn; [lia |].
  inversion Hex as [| n' v0 vprev v2 Hprev Hbody]; subst.
  exists vprev.
  apply minimize_body_cases in Hbody.
  destruct Hbody as (r & gPre & info' & Hr & Hl & Hfl).
  destruct Hfl as [[_ Hfl] | (_ & t & Ht & [[_ Hfl] | [_ Hfl]])]; try discriminate.
  injection Hfl as ->.
  exists r, gPre, info', t. simpl. rewrite Nat.sub_0_r.
  split_and!; try assumption; try reflexivity.
  - unfold gdUpdate. apply length_imap.
  - intros j x Hx. unfold gdUpdate. rewrite list_lookup_imap, Hx. reflexivity.
Qed.

End Minimize.

(** ** The builder *)

Section Builder.
Context {num : Type} `{Number num}.
Local Open Scope num_scope.
Variable initConstraintWeight : num.

Lemma evalNum_vsum (inp : list num) (es : list (ad_Num num)) :
  evalNum inp (vsum es) = sumList (evalNum inp <$> es).
Proof.
  reflexivity.
Qed.

Lemma evalNum_toPenalty (inp : list num) (es : list (ad_Num num)) :
  evalNum inp <$> (toPenalty <$> es) = penalty <$> (evalNum inp <$> es).
Proof.
  induction es as [|e es IH]; simpl; [reflexivity | f_equal; exact IH].
Qed.

(** C3, amended.  The energy the oracle of the builder returns at [x] for
    the weight [w] is [Σⱼ oⱼ(x) + (Σᵢ max(cᵢ(x), 0)²)·(c₀·w)] with
    [c₀ = 10e4], that is [10⁵]. *)
Theorem oracle_energy (genCode : ad_Num num → list (ad_Num num) → Compiled num)
    (inputs : list InputMeta) (objEngs constrEngs : list (ad_Num num))
    (w : num) (frozen : option (gset nat)) (xs : list num) (r : FnEvaled num) :
  compilesPrimary genCode →
  length xs = length inputs →
  objectiveAndGradient
    (genOptProblem initConstraintWeight genCode inputs objEngs constrEngs)
    w frozen xs = Ok r →
  fe_f r = sumList (evalNum (xs ++ [w]) <$> objEngs)
           + sumList (penalty <$> (evalNum (xs ++ [w]) <$> constrEngs))
             * (lit 100000 * w).
Proof.
  intros Hc Hlen. simpl. unfold mkObjectiveAndGradient.
  destruct (mapM _ _) as [gradf | e]; simpl; [| discriminate].
  intros [= <-]. simpl. rewrite Hc.
  unfold evalEnergyOnCustom, add, mul.
  cbn [evalNum evalBinop]. rewrite !evalNum_vsum, evalNum_toPenalty.
  unfold input. cbn [evalNum].
  rewrite <- Hlen, lookup_app_r, Nat.sub_diag by lia. reflexivity.
Qed.
End Builder.

(** ** Binary64 arithmetic

    Facts of the arithmetic of the source, from the specification of the
    primitive floats: zeros and NaN are closed under the operations of
    the L-BFGS recursion, subtracting a zero keeps a number, multiplying
    by -1 is exact, and sums of squares are not negative. *)

Section Binary64.
Local Open Scope float_scope.


Lemma Prim2SF_zero : Prim2SF 0 = S754_zero false.
Proof. reflexivity. Qed.

Lemma Prim2SF_m1 : Prim2SF (-1) = S754_finite true 4503599627370496 (-52).
Proof. reflexivity. Qed.

Lemma SFcompare_refl (x : spec_float) : x ≠ S754_nan → SFcompare x x = Some Eq.
Proof.
  destruct x as [s | s | | s m e]; intros Hn; try reflexivity.
  - destruct s; reflexivity.
  - contradiction.
  - simpl. rewrite Z.compare_refl.
    assert (Hm : Pos.compare_cont Eq m m = Eq) by apply Pos.compare_cont_refl.
    rewrite Hm. destruct s; reflexivity.
Qed.

Lemma is_nan_spec (x : float) : is_nan x = true ↔ Prim2SF x = S754_nan.
Proof.
  unfold is_nan. rewrite FloatAxioms.eqb_spec. unfold SFeqb. split.
  - intros Hx. destruct (Prim2SF x) as [s | s | | s m e] eqn:Hsf; try reflexivity;
      rewrite SFcompare_refl in Hx by discriminate; discriminate.
  - intros ->. reflexivity.
Qed.

Lemma zeroOrNaN_spec (z : float) :
  zeroOrNaN z = true ↔ (∃ s, Prim2SF z = S754_zero s) ∨ Prim2SF z = S754_nan.
Proof.
  unfold zeroOrNaN. rewrite orb_true_iff, is_nan_spec, FloatAxioms.eqb_spec, Prim2SF_zero.
  unfold SFeqb. split.
  - intros [Hz | Hn]; [| right; exact Hn].
    destruct (Prim2SF z) as [s | s | | s m e]; try discriminate; eauto.
    + destruct s; discriminate.
    + destruct s; discriminate.
  - intros [[s ->] | ->]; [left; reflexivity | right; reflexivity].
Qed.

Lemma zeroOrNaN_0 : zeroOrNaN 0 = true.
Proof. reflexivity. Qed.

Lemma zeroOrNaN_mul_r (a z : float) : zeroOrNaN z = true → zeroOrNaN (a * z) = true.
Proof.
  rewrite !zeroOrNaN_spec, FloatAxioms.mul_spec. unfold SF64mul.
  intros [[s ->] | ->]; destruct (Prim2SF a) as [sa | sa | | sa ma ea]; simpl; eauto.
Qed.

Lemma zeroOrNaN_mul_l (a z : float) : zeroOrNaN z = true → zeroOrNaN (z * a) = true.
Proof.
  rewrite !zeroOrNaN_spec, FloatAxioms.mul_spec. unfold SF64mul.
  intros [[s ->] | ->]; destruct (Prim2SF a) as [sa | sa | | sa ma ea]; simpl; eauto.
Qed.

Lemma zeroOrNaN_add (z z' : float) :
  zeroOrNaN z = true → zeroOrNaN z' = true → zeroOrNaN (z + z') = true.
Proof.
  rewrite !zeroOrNaN_spec, FloatAxioms.add_spec. unfold SF64add.
  intros [[s ->] | ->] [[s' ->] | ->]; simpl; eauto.
  destruct s, s'; eauto.
Qed.

Lemma zeroOrNaN_sub (z z' : float) :
  zeroOrNaN z = true → zeroOrNaN z' = true → zeroOrNaN (z - z') = true.
Proof.
  rewrite !zeroOrNaN_spec, FloatAxioms.sub_spec. unfold SF64sub.
  intros [[s ->] | ->] [[s' ->] | ->]; simpl; eauto.
  destruct s, s'; eauto.
Qed.

(** Two numbers that compare equal have the same representation, or are
    both zeros. *)
Lemma SFeqb_true (x y : spec_float) :
  SFeqb x y = true →
  x = y ∨ ∃ s s', x = S754_zero s ∧ y = S754_zero s'.
Proof.
  unfold SFeqb.
  destruct x as [s | s | | s m e], y as [s' | s' | | s' m' e']; simpl; intros Hc;
    try discriminate; try (destruct s; discriminate);
    try (destruct s'; discriminate); eauto.
  - destruct s, s'; (discriminate || auto).
  - destruct s, s'; try discriminate;
      (destruct (Z.compare_spec e e') as [-> | |]; try discriminate;
       destruct (Pos.compare_cont Eq m m') eqn:Hm; try discriminate;
       apply Pos.compare_eq in Hm as ->; auto).
Qed.

Lemma heldAt_spec (xi x : float) :
  heldAt xi x = true ↔
  Prim2SF x = S754_nan
  ∨ (Prim2SF x ≠ S754_nan ∧
     (Prim2SF x = Prim2SF xi
      ∨ ∃ s s', Prim2SF x = S754_zero s ∧ Prim2SF xi = S754_zero s')).
Proof.
  unfold heldAt. rewrite orb_true_iff, is_nan_spec, FloatAxioms.eqb_spec. split.
  - intros [He | Hn]; [| left; exact Hn]. right. split.
    + intros Hn. rewrite Hn in He. discriminate.
    + apply SFeqb_true. exact He.
  - intros [Hn | [Hn [He | (s & s' & Hx & Hxi)]]]; [right; exact Hn | |].
    + left. rewrite <- He. unfold SFeqb. rewrite SFcompare_refl by exact Hn. reflexivity.
    + left. rewrite Hx, Hxi. reflexivity.
Qed.

Lemma heldAt_refl (xi : float) : heldAt xi xi = true.
Proof.
  apply heldAt_spec. destruct (Prim2SF xi) eqn:Hx; auto; right;
    (split; [discriminate | left; reflexivity]).
Qed.

Lemma SFsub_diag (x : spec_float) :
  (∃ s, SF64sub x x = S754_zero s) ∨ SF64sub x x = S754_nan.
Proof.
  destruct x as [s | s | | s m e]; simpl; eauto.
  - destruct s; eauto.
  - destruct s; eauto.
  - unfold SF64sub, SFsub. rewrite Z.sub_diag. left. eexists. reflexivity.
Qed.

Lemma heldAt_sub (xi x y : float) :
  heldAt xi x = true → heldAt xi y = true → zeroOrNaN (x - y) = true.
Proof.
  rewrite !heldAt_spec, zeroOrNaN_spec, FloatAxioms.sub_spec.
  intros [Hx | [Hxn Hx]] [Hy | [Hyn Hy]].
  - rewrite Hx. right. reflexivity.
  - rewrite Hx. right. reflexivity.
  - rewrite Hy. right. destruct (Prim2SF x); reflexivity.
  - destruct Hx as [Hx | (s & s' & Hx & Hxi)], Hy as [Hy | (t & t' & Hy & Hxi')].
    + rewrite Hx, Hy. apply SFsub_diag.
    + rewrite Hx, Hy, Hxi'. left. destruct t', t; simpl; eauto.
    + rewrite Hx, Hy, Hxi. left. destruct s, s'; simpl; eauto.
    + rewrite Hx, Hy. left. destruct s, t; simpl; eauto.
Qed.

Lemma heldAt_sub_zero (xi x z : float) :
  heldAt xi x = true → zeroOrNaN z = true → heldAt xi (x - z) = true.
Proof.
  rewrite !heldAt_spec, zeroOrNaN_spec, FloatAxioms.sub_spec.
  intros Hx [[s Hz] | Hz]; rewrite Hz.
  - destruct Hx as [Hx | [Hxn Hx]].
    + rewrite Hx. left. reflexivity.
    + right. destruct (Prim2SF x) as [sx | sx | | sx mx ex] eqn:Hsf; simpl.
      * split; [destruct sx, s; discriminate |]. right.
        destruct Hx as [Hx | (t & t' & _ & Hxi)].
        -- rewrite <- Hx. destruct sx, s; simpl; eauto.
        -- rewrite Hxi. destruct sx, s; simpl; eauto.
      * split; [discriminate | exact Hx].
      * contradiction.
      * split; [discriminate | exact Hx].
  - left. destruct (Prim2SF x); reflexivity.
Qed.

Lemma digits2_pos_shift52 (m : positive) :
  Z.pos (digits2_pos (4503599627370496 * m)) = (Z.pos (digits2_pos m) + 52)%Z.
Proof.
  change (4503599627370496 * m)%positive with (Pos.iter xO m 52).
  cbn [Pos.iter digits2_pos]. rewrite !Pos2Z.inj_succ. lia.
Qed.

(** Multiplication by -1 is exact: it is the opposite. *)
Lemma mul_m1 (d : float) : -1 * d = - d.
Proof.
  apply Prim2SF_inj. rewrite FloatAxioms.mul_spec, opp_spec, Prim2SF_m1.
  pose proof (Prim2SF_valid d) as Hv.
  destruct (Prim2SF d) as [s | s | | s m e]; try reflexivity.
  unfold SF64mul, SFmul, SFopp. cbn [valid_binary] in Hv.
  unfold bounded, canonical_mantissa in Hv.
  apply andb_true_iff in Hv as [Hc Hb]. apply Z.eqb_eq in Hc.
  unfold binary_round_aux, shr_fexp, Zdigits2.
  change IntDef.Z.add with Z.add in *. change IntDef.Z.sub with Z.sub in *.
  change IntDef.Z.leb with Z.leb in *. change PosDef.Pos.mul with Pos.mul in *.
  rewrite digits2_pos_shift52.
  replace (Z.pos (digits2_pos m) + 52 + (-52 + e))%Z
    with (Z.pos (digits2_pos m) + e)%Z by lia.
  rewrite Hc. replace (e - (-52 + e))%Z with 52%Z by lia.
  change (4503599627370496 * m)%positive with (Pos.iter xO m 52).
  cbn [shr shr_record_of_loc Pos.iter SpecFloat.iter_pos shr_1 orb shr_m
       loc_of_shr_record round_nearest_even].
  replace (-52 + e + 52)%Z with e by lia.
  unfold Zdigits2. rewrite Hc, Z.sub_diag. cbn [shr shr_record_of_loc shr_m].
  rewrite Hb. reflexivity.
Qed.

Lemma nonNegOrNaN_spec (d : float) :
  nonNegOrNaN d = true ↔
  match Prim2SF d with
  | S754_zero _ | S754_nan => True
  | S754_infinity s | S754_finite s _ _ => s = false
  end.
Proof.
  unfold nonNegOrNaN. rewrite orb_true_iff, is_nan_spec, leb_spec, Prim2SF_zero.
  unfold SFleb. destruct (Prim2SF d) as [s | s | | s m e]; simpl.
  - tauto.
  - destruct s; simpl; split; (discriminate || auto).
    intros [? | ?]; discriminate.
  - tauto.
  - destruct s; simpl; split; (discriminate || auto).
    intros [? | ?]; discriminate.
Qed.

Lemma binary_round_aux_sign (s : bool) (m : Z) (e : Z) (l : location) :
  match binary_round_aux prec emax s m e l with
  | S754_zero _ | S754_nan => True
  | S754_infinity s' | S754_finite s' _ _ => s' = s
  end.
Proof.
  unfold binary_round_aux.
  destruct (shr_fexp _ _ _ _ _) as [mrs' e'].
  destruct (shr_fexp _ _ _ _ _) as [mrs'' e''].
  destruct (shr_m mrs''); try exact I.
  destruct (Z.leb _ _); reflexivity.
Qed.

Lemma nonNegOrNaN_0 : nonNegOrNaN 0 = true.
Proof. reflexivity. Qed.

Lemma nonNegOrNaN_square (x : float) : nonNegOrNaN (x * x) = true.
Proof.
  apply nonNegOrNaN_spec. rewrite FloatAxioms.mul_spec. unfold SF64mul, SFmul.
  destruct (Prim2SF x) as [s | s | | s m e]; try exact I.
  - destruct s; reflexivity.
  - pose proof (binary_round_aux_sign (xorb s s) (Z.pos (m * m)) (e + e) loc_Exact) as Hs.
    destruct (binary_round_aux _ _ _ _ _ _); try exact I;
      rewrite Hs; destruct s; reflexivity.
Qed.

Lemma nonNegOrNaN_add (a b : float) :
  nonNegOrNaN a = true → nonNegOrNaN b = true → nonNegOrNaN (a + b) = true.
Proof.
  rewrite !nonNegOrNaN_spec, FloatAxioms.add_spec. unfold SF64add, SFadd.
  destruct (Prim2SF a) as [s | s | | s m e], (Prim2SF b) as [s' | s' | | s' m' e'];
    intros Ha Hb; subst; try exact I; try reflexivity;
    try (destruct s; exact I); try (destruct s'; exact I).
  - destruct s, s'; exact I.
  - unfold binary_normalize, cond_Zopp.
    change (IntDef.Z.add (Z.pos ?p) (Z.pos ?q)) with (Z.pos (p + q)).
    cbv beta iota. unfold binary_round.
    destruct (shl_align _ _ (fexp _ _ _)) as [mz ez].
    apply (binary_round_aux_sign false).
Qed.

Lemma nonNegOrNaN_neg_test (d : float) :
  (0 <? -1 * d) = false → nonNegOrNaN d = true.
Proof.
  rewrite mul_m1, ltb_spec, opp_spec, Prim2SF_zero, nonNegOrNaN_spec.
  unfold SFltb. destruct (Prim2SF d) as [s | s | | s m e]; simpl; try tauto.
  - destruct s; simpl; (discriminate || reflexivity).
  - destruct s; simpl; (discriminate || reflexivity).
Qed.


Lemma dot_self_nonNeg_acc (g : list float) (acc : float) :
  nonNegOrNaN acc = true →
  nonNegOrNaN (foldl (fun (z : float) (p : float * float) => z + p.1 * p.2) acc (zip g g))
  = true.
Proof.
  revert acc. induction g as [|x g IH]; intros acc Hacc; simpl; [exact Hacc |].
  apply IH. apply nonNegOrNaN_add; [exact Hacc | apply nonNegOrNaN_square].
Qed.

Lemma dot_self_nonNeg (g : list float) : nonNegOrNaN (dot g g) = true.
Proof. apply dot_self_nonNeg_acc. reflexivity. Qed.

(** C5, amended.  [lbfgs] resets when [-1·⟨gPre, g⟩ > 0] and then returns
    the gradient itself, as the initial call does.  So for the direction
    [gPre] of every call that returns, [⟨gPre, g⟩] is not negative: it is
    [≥ 0], which is not strict, or it is NaN, which no comparison
    rejects. *)
Theorem lbfgs_descent_check (xs gradfxs : list float) (info : LbfgsParams float)
    (gPre : list float) (info' : LbfgsParams float) :
  lbfgs xs gradfxs info = Ok (gPre, info') →
  (0 <=? dot gPre gradfxs) = true ∨ is_nan (dot gPre gradfxs) = true.
Proof.
  intros Hl. apply orb_true_iff. change (nonNegOrNaN (dot gPre gradfxs) = true).
  apply lbfgs_cases in Hl.
  destruct Hl as [(_ & -> & _) | [(_ & -> & _) | (_ & Hc & _)]].
  - apply dot_self_nonNeg.
  - apply dot_self_nonNeg.
  - apply nonNegOrNaN_neg_test. exact Hc.
Qed.

End Binary64.

(** ** Frozen indices *)

Section Frozen.
Local Open Scope float_scope.

Lemma rowHas_columnVector (i : nat) (P : float → bool) (a : float) (xs : list float) :
  xs !! i = Some a → P a = true → rowHas i P (columnVector xs).
Proof.
  intros Hi Ha. split.
  - unfold colvec, columnVector. apply Forall_fmap, Forall_forall. reflexivity.
  - exists a. split; [| exact Ha].
    unfold columnVector. rewrite list_lookup_fmap, Hi. reflexivity.
Qed.

Lemma rowHas_zip_with (op : float → float → float) (i : nat)
    (P Q R : float → bool) (A B : list (list float)) :
  (∀ a b, P a = true → Q b = true → R (op a b) = true) →
  rowHas i P A → rowHas i Q B → rowHas i R (zip_with (zip_with op) A B).
Proof.
  intros Hop [HA (a & Ha & HPa)] [HB (b & Hb & HQb)].
  split; [apply colvec_zip_with; assumption |].
  exists (op a b). split; [| apply Hop; assumption].
  rewrite lookup_zip_with, Ha, Hb. reflexivity.
Qed.

Lemma rowHas_sub (i : nat) (P Q R : float → bool) (A B M : Matrix float) :
  (∀ a b, P a = true → Q b = true → R (a - b) = true) →
  rowHas i P A → rowHas i Q B → Matrix_sub A B = Ok M → rowHas i R M.
Proof.
  intros Hop HA HB HM. apply Matrix_sub_Ok in HM as [-> _].
  apply (rowHas_zip_with _ i P Q R); assumption.
Qed.

Lemma rowHas_add (i : nat) (A B M : Matrix float) :
  rowHas i zeroOrNaN A → rowHas i zeroOrNaN B → Matrix_add A B = Ok M → rowHas i zeroOrNaN M.
Proof.
  intros HA HB HM. apply Matrix_add_Ok in HM as [-> _].
  apply (rowHas_zip_with _ i zeroOrNaN zeroOrNaN zeroOrNaN); [| assumption ..].
  intros a b. apply zeroOrNaN_add.
Qed.

Lemma rowHas_mul (i : nat) (c : float) (A : Matrix float) :
  rowHas i zeroOrNaN A → rowHas i zeroOrNaN (Matrix_mul A c).
Proof.
  intros [HA (a & Ha & Hz)]. unfold Matrix_mul. split.
  - apply Forall_fmap. eapply Forall_impl; [exact HA |].
    intros r Hr. simpl. rewrite length_fmap. exact Hr.
  - exists (a * c). split; [| apply zeroOrNaN_mul_l; exact Hz].
    rewrite list_lookup_fmap, Ha. reflexivity.
Qed.

Lemma to1DArray_lookup (i : nat) (P : float → bool) (M : list (list float)) :
  rowHas i P M → ∃ a, to1DArray M !! i = Some a ∧ P a = true.
Proof.
  unfold to1DArray. intros [HM (a & Hi & Ha)]. exists a. split; [| exact Ha].
  clear Ha. revert i Hi.
  induction HM as [|r M Hr HM IH]; intros i Hi; [discriminate |].
  destruct r as [|r0 [|]]; try discriminate.
  destruct i as [|i]; simpl in *.
  - injection Hi as ->. reflexivity.
  - apply IH. exact Hi.
Qed.

Lemma dot_zeroOrNaN (row v : list float) :
  (∀ (j : nat) (a b : float), row !! j = Some a → v !! j = Some b → zeroOrNaN (a * b) = true) →
  zeroOrNaN (dot row v) = true.
Proof.
  unfold dot.
  assert (Hacc : ∀ acc : float, zeroOrNaN acc = true →
            (∀ (j : nat) (a b : float),
               row !! j = Some a → v !! j = Some b → zeroOrNaN (a * b) = true) →
            zeroOrNaN (foldl (fun (z : float) (p : float * float) => z + p.1 * p.2)
                  acc (zip row v)) = true).
  { revert v. induction row as [|a row IH]; intros v acc Hz Hall; [exact Hz |].
    destruct v as [|b v]; [exact Hz |]. simpl.
    apply IH.
    - apply zeroOrNaN_add; [exact Hz | apply (Hall 0%nat); reflexivity].
    - intros j a' b' Ha' Hb'. apply (Hall (S j)); assumption. }
  intros Hall. apply Hacc; [reflexivity | exact Hall].
Qed.

Lemma rowHas_mmul_hess (i : nat) (y s q h : Matrix float) :
  estimate_hess y s = Ok h →
  rowHas i zeroOrNaN y → rowHas i zeroOrNaN q →
  rowHas i zeroOrNaN (Matrix_mmul h q).
Proof.
  unfold estimate_hess.
  destruct (Matrix_dot s y) as [sy | e]; simpl; [| discriminate].
  destruct (Matrix_dot y y) as [yy | e]; simpl; [| discriminate].
  intros [= <-] [_ (y_i & Hy & _)] Hq. unfold Matrix_mmul. split.
  - apply Forall_fmap, Forall_forall. reflexivity.
  - apply lookup_lt_Some in Hy as Hlt.
    unfold Matrix_mul, Matrix_identity, rows.
    rewrite !list_lookup_fmap, lookup_seq_lt by exact Hlt. simpl.
    eexists. split; [reflexivity |].
    apply dot_zeroOrNaN. intros j a b Ha Hb.
    rewrite !list_lookup_fmap in Ha.
    destruct (seq 0 (length y) !! j) as [j' |] eqn:Hj; [| discriminate].
    apply lookup_seq in Hj as [-> _]. simpl in Ha. injection Ha as <-.
    destruct (decide (i = j)) as [-> | Hne].
    + destruct (to1DArray_lookup _ _ _ Hq) as (b' & Hb' & Hz).
      rewrite Hb' in Hb. injection Hb as <-.
      apply zeroOrNaN_mul_r. exact Hz.
    + apply zeroOrNaN_mul_l, zeroOrNaN_mul_l. reflexivity.
Qed.

Lemma rowHas_pull_q_back (i : nat) (acc acc' : Matrix float * list float)
    (curr : float * Matrix float * Matrix float) :
  rowHas i zeroOrNaN acc.1 → rowHas i zeroOrNaN curr.2 →
  pull_q_back acc curr = Ok acc' → rowHas i zeroOrNaN acc'.1.
Proof.
  destruct acc as [q alphas], curr as [[rho s] y]. simpl. intros Hq Hy.
  destruct (Matrix_dot s q) as [sq | e]; simpl; [| discriminate].
  destruct (Matrix_sub q _) as [q' | e] eqn:Hsub; simpl; [| discriminate].
  intros [= <-]. simpl.
  apply (rowHas_sub i zeroOrNaN zeroOrNaN zeroOrNaN) in Hsub; [exact Hsub | | exact Hq |].
  - intros a b. apply zeroOrNaN_sub.
  - apply rowHas_mul. exact Hy.
Qed.

Lemma rowHas_push_r_forward (i : nat) (r r' : Matrix float)
    (curr : (float * float) * (Matrix float * Matrix float)) :
  rowHas i zeroOrNaN r → rowHas i zeroOrNaN curr.2.1 →
  push_r_forward r curr = Ok r' → rowHas i zeroOrNaN r'.
Proof.
  destruct curr as [[rho alpha] [s y]]. simpl. intros Hr Hs.
  destruct (Matrix_dot y r) as [yr | e]; simpl; [| discriminate].
  destruct (Matrix_add r _) as [r1 | e] eqn:Hadd; simpl; [| discriminate].
  intros [= <-].
  apply (rowHas_add i) in Hadd; [exact Hadd | exact Hr |].
  apply rowHas_mul. exact Hs.
Qed.

Lemma Forall_zip_fst {A B : Type} (P : A → Prop) (l : list A) (k : list B) :
  Forall P l → Forall (fun c => P (fst c)) (zip l k).
Proof.
  intros Hl. apply Forall_lookup. intros j c Hc.
  apply lookup_zip_with_Some in Hc as (x & y & -> & Hx & _).
  exact (proj1 (Forall_lookup _ _) Hl _ _ Hx).
Qed.

Lemma Forall_zip_snd {A B : Type} (P : B → Prop) (l : list A) (k : list B) :
  Forall P k → Forall (fun c => P (snd c)) (zip l k).
Proof.
  intros Hk. apply Forall_lookup. intros j c Hc.
  apply lookup_zip_with_Some in Hc as (x & y & -> & _ & Hy).
  exact (proj1 (Forall_lookup _ _) Hk _ _ Hy).
Qed.

Lemma lbfgsInner_frozen (i : nat) (g : Matrix float) (ss ys : list (Matrix float))
    (M : Matrix float) :
  rowHas i zeroOrNaN g →
  Forall (rowHas i zeroOrNaN) ss →
  Forall (rowHas i zeroOrNaN) ys →
  lbfgsInner g ss ys = Ok M →
  rowHas i zeroOrNaN M.
Proof.
  intros Hg Hss Hys HM. apply lbfgsInner_Ok in HM.
  destruct HM as (rhos & q & alphas & y0 & s0 & ys' & ss' & h
                  & _ & Hq & Hys0 & Hss0 & Hh & HM).
  assert (Hq' : rowHas i zeroOrNaN q).
  { apply (reduceM_inv (fun acc => rowHas i zeroOrNaN acc.1) (fun c => rowHas i zeroOrNaN c.2))
      in Hq; [exact Hq | | | exact Hg].
    - intros b a b'. apply rowHas_pull_q_back.
    - apply Forall_zip_snd. exact Hys. }
  apply (reduceM_inv (rowHas i zeroOrNaN) (fun c => rowHas i zeroOrNaN c.2.1)) in HM; [exact HM | | |].
  - intros b a b'. apply rowHas_push_r_forward.
  - apply Forall_reverse.
    apply (Forall_zip_snd (fun c : Matrix float * Matrix float => rowHas i zeroOrNaN c.1)).
    apply Forall_zip_fst. exact Hss.
  - subst ys. apply (rowHas_mmul_hess i y0 s0 q h Hh); [| exact Hq'].
    inversion Hys; assumption.
Qed.

Lemma histFrozen_default (i : nat) (xi : float) : histFrozen i xi defaultLbfgsParams.
Proof. intros Hne. contradiction Hne. reflexivity. Qed.

Lemma lbfgs_frozen (i : nat) (xi x : float) (xs g : list float)
    (info : LbfgsParams float) (gPre : list float) (info' : LbfgsParams float) :
  xs !! i = Some x → heldAt xi x = true →
  g !! i = Some 0 →
  histFrozen i xi info →
  lbfgs xs g info = Ok (gPre, info') →
  (∃ z, gPre !! i = Some z ∧ zeroOrNaN z = true) ∧ histFrozen i xi info'.
Proof.
  intros Hx Hheld Hg Hinfo Hl.
  pose proof (rowHas_columnVector i (heldAt xi) x xs Hx Hheld) as Hxk.
  pose proof (rowHas_columnVector i zeroOrNaN 0 g Hg eq_refl) as Hgk.
  assert (Hfresh : ∀ m, histFrozen i xi
            {| lastState := Some (columnVector xs);
               lastGrad := Some (columnVector g);
               s_list := []; y_list := [];
               numUnconstrSteps := 1; memSize := m |}).
  { intros m _. simpl. split_and!; [| | constructor | constructor].
    - intros X [= <-]. exact Hxk.
    - intros G [= <-]. exact Hgk. }
  destruct (Z.eq_dec (numUnconstrSteps info) 0%Z) as [H0 | H0].
  { unfold lbfgs in Hl. rewrite H0 in Hl. injection Hl as <- <-.
    split; [exists 0; auto | apply Hfresh]. }
  destruct (Hinfo H0) as (HX & HG & Hss & Hys).
  apply lbfgs_later in Hl; [| exact H0].
  destruct Hl as (X & G & s & y & M & check & HlX & HlG & Hs & Hy & HM & _ & Hret).
  specialize (HX _ HlX). specialize (HG _ HlG).
  apply (rowHas_sub i (heldAt xi) (heldAt xi) zeroOrNaN) in Hs;
    [| apply heldAt_sub | exact Hxk | exact HX].
  apply (rowHas_sub i zeroOrNaN zeroOrNaN zeroOrNaN) in Hy;
    [| intros a b; apply zeroOrNaN_sub | exact Hgk | exact HG].
  assert (Hss' : Forall (rowHas i zeroOrNaN)
            (take (Z.to_nat (memSize info)) (s :: s_list info))).
  { apply Forall_take. constructor; assumption. }
  assert (Hys' : Forall (rowHas i zeroOrNaN)
            (take (Z.to_nat (memSize info)) (y :: y_list info))).
  { apply Forall_take. constructor; assumption. }
  apply lbfgsInner_frozen with (i := i) in HM; [| assumption ..].
  destruct Hret as [(_ & -> & ->) | (_ & -> & ->)].
  - split; [exists 0; auto | apply Hfresh].
  - split; [apply to1DArray_lookup; exact HM |].
    intros _. simpl. split_and!; try assumption.
    + intros X' [= <-]. exact Hxk.
    + intros G' [= <-]. exact Hgk.
Qed.

Lemma mapM_result_lookup {A B : Type} (g : A → result B) (l : list A) (k : list B)
    (j : nat) (x : A) :
  mapM g l = Ok k → l !! j = Some x → ∃ y, g x = Ok y ∧ k !! j = Some y.
Proof.
  revert k j. induction l as [|a l IH]; intros k j; [discriminate 2 |].
  simpl. destruct (g a) as [b | e] eqn:Hb; simpl; [| discriminate].
  destruct (mapM g l) as [k' | e]; simpl; [| discriminate].
  intros [= <-]. destruct j as [|j]; simpl.
  - intros [= <-]. eauto.
  - intros Hj. apply (IH k' j eq_refl Hj).
Qed.

Lemma maskedGradient_frozen (inputs : list InputMeta) (frozen : gset nat)
    (gradient : list (option float)) (i : nat) (y : float) :
  i ∈ frozen →
  maskedGradient inputs (Some frozen) gradient i = Ok y → y = 0.
Proof.
  intros Hi. unfold maskedGradient.
  destruct (gradient !! i) as [[g |] |]; try (intros [= <-]; reflexivity).
  destruct (inputs !! i) as [meta |]; [| discriminate].
  destruct (tag meta); [| intros [= <-]; reflexivity].
  rewrite bool_decide_eq_true_2 by exact Hi. intros [= <-]. reflexivity.
Qed.

Lemma mkObjectiveAndGradient_masks (f : Compiled float) (inputs : list InputMeta)
    (objEngs : list (ad_Num float)) (w : float) (frozen : gset nat) (i : nat) :
  i ∈ frozen → masks i (mkObjectiveAndGradient f inputs objEngs w (Some frozen)).
Proof.
  intros Hi xs r. unfold mkObjectiveAndGradient.
  destruct (mapM _ _) as [gradf | e] eqn:Hm; simpl; [| discriminate].
  intros [= <-] Hlt. simpl.
  destruct (mapM_result_lookup _ _ _ i i Hm) as (y & Hy & ->).
  { apply lookup_seq_lt. exact Hlt. }
  f_equal. eapply maskedGradient_frozen; eassumption.
Qed.

Lemma gdUpdate_frozen (i : nat) (xi x z t : float) (gPre xs : list float) :
  xs !! i = Some x → heldAt xi x = true →
  gPre !! i = Some z → zeroOrNaN z = true →
  ∃ x', gdUpdate t gPre xs !! i = Some x' ∧ heldAt xi x' = true.
Proof.
  intros Hx Hheld Hg Hz. unfold gdUpdate. rewrite list_lookup_imap, Hx, Hg. simpl.
  eexists. split; [reflexivity |].
  apply heldAt_sub_zero; [exact Hheld | apply zeroOrNaN_mul_r; exact Hz].
Qed.

Lemma minimize_body_frozen (i : nat) (xi : float) (f : FnCached float)
    (v : MinVars float) (fl : flow float) :
  masks i f →
  heldIn i xi (v_xs v) →
  histFrozen i xi (v_newLbfgsInfo v) →
  minimize_body f v = Ok fl →
  let v' := match fl with Next v' | Break v' => v' end in
  heldIn i xi (v_xs v') ∧ histFrozen i xi (v_newLbfgsInfo v').
Proof.
  intros Hf (x & Hx & Hheld) Hinfo Hb. apply minimize_body_cases in Hb.
  destruct Hb as (r & gPre & info' & Hr & Hl & Hfl).
  pose proof (Hf _ _ Hr (lookup_lt_Some _ _ _ Hx)) as Hg0.
  destruct (lbfgs_frozen _ _ _ _ _ _ _ _ Hx Hheld Hg0 Hinfo Hl)
    as [(z & Hg & Hz) Hinfo'].
  destruct Hfl as [[_ ->] | (_ & t & _ & [[_ ->] | [_ ->]])]; simpl;
    (split; [| exact Hinfo']); try (exists x; split; assumption).
  eapply gdUpdate_frozen; eassumption.
Qed.

Lemma minimize_loop_frozen (i : nat) (xi : float) (f : FnCached float) (n : nat)
    (v v' : MinVars float) :
  masks i f →
  heldIn i xi (v_xs v) →
  histFrozen i xi (v_newLbfgsInfo v) →
  minimize_loop f n v = Ok v' →
  heldIn i xi (v_xs v') ∧ histFrozen i xi (v_newLbfgsInfo v').
Proof.
  intros Hf. revert v. induction n as [|n IH]; intros v Hx Hinfo; simpl.
  - intros [= <-]. auto.
  - destruct (minimize_body f v) as [fl | e] eqn:Hb; simpl; [| discriminate].
    apply (minimize_body_frozen i xi) in Hb; [| assumption ..].
    destruct fl as [v1 | v1]; simpl in Hb.
    + apply IH; apply Hb.
    + intros [= <-]. exact Hb.
Qed.

Lemma minimize_frozen (i : nat) (xi : float) (xs0 : list float) (f : FnCached float)
    (info : LbfgsParams float) (numSteps : Z) (res : OptInfo float) :
  masks i f →
  heldIn i xi xs0 →
  histFrozen i xi info →
  minimize xs0 f info numSteps = Ok res →
  heldIn i xi (oi_xs res) ∧ histFrozen i xi (oi_newLbfgsInfo res).
Proof.
  intros Hf Hx Hinfo. unfold minimize.
  destruct (numSteps <? MIN_STEPS)%Z; [discriminate |].
  destruct (minimize_loop _ _ _) as [v | e] eqn:Hloop; simpl; [| discriminate].
  intros [= <-]. simpl.
  eapply minimize_loop_frozen; [exact Hf | | | exact Hloop]; assumption.
Qed.

Variable initConstraintWeight : float.

Lemma step_frozenBound (i : nat) (xi : float) (s s' : State float) (steps : Z) :
  frozenBound i xi s →
  step initConstraintWeight s steps = Ok s' →
  frozenBound i xi s'.
Proof.
  intros (Hi & Hx & Hfac & Hcur). unfold step.
  destruct (optStatus (params s)) eqn:Hst.
  - intros [= <-]. unfold frozenBound. simpl. split_and!; try assumption.
    right. split; [apply Hfac; exact Hi | apply histFrozen_default].
  - destruct Hcur as [? | [Hm Hh]]; [congruence |].
    unfold step_UnconstrainedRunning.
    destruct (minimize _ _ _ _) as [res | e] eqn:Hmin; simpl; [| discriminate].
    apply (minimize_frozen i xi) in Hmin; [| assumption ..].
    destruct Hmin as [Hx' Hh'].
    assert (Hh'' : histFrozen i xi
              (if unconstrainedConverged2 (oi_normGrad res)
               then defaultLbfgsParams else oi_newLbfgsInfo res)).
    { destruct (unconstrainedConverged2 _); [apply histFrozen_default | exact Hh']. }
    destruct (oi_failed res); intros [= <-]; unfold frozenBound; simpl;
      split_and!; try assumption; right; split; assumption.
  - destruct Hcur as [? | [Hm Hh]]; [congruence |].
    unfold step_UnconstrainedConverged.
    destruct (epConvergedCheck _) as [b | e]; simpl; [| discriminate].
    intros [= <-]. unfold frozenBound. simpl. split_and!; try assumption.
    right. split; [| exact Hh].
    destruct b; [exact Hm | apply Hfac; exact Hi].
  - intros [= <-]. unfold frozenBound. rewrite Hst. auto.
  - intros [= <-]. unfold frozenBound. rewrite Hst. auto.
Qed.

Lemma stepsFrom_frozenBound (i : nat) (xi : float) (s s' : State float) (ks : list Z) :
  frozenBound i xi s → stepsFrom initConstraintWeight s ks s' → frozenBound i xi s'.
Proof.
  intros Hb Hsteps. induction Hsteps as [s | s s1 s2 k ks Hstep _ IH]; [exact Hb |].
  apply IH. eapply step_frozenBound; eassumption.
Qed.

(** C1, amended.  Take a problem of the builder and a state in status
    [NewIter], whose step binds the oracle with [frozenValues] (the builder
    itself binds the initial oracle with the empty set).  On binary64
    numbers, for every [i] in [frozenValues], in all the states that
    successive calls of [step] return the component [x[i]] is equal to its
    initial value ([x[i] == xi]), or it is NaN (which the L-BFGS recursion
    produces at a frozen index when it overflows). *)
Theorem frozen_index_immutable
    (genCode : ad_Num float → list (ad_Num float) → Compiled float)
    (inputs : list InputMeta) (objEngs constrEngs : list (ad_Num float))
    (s0 s' : State float) (budgets : list Z) (i : nat) (xi : float) :
  objectiveAndGradient (params s0)
    = objectiveAndGradient
        (genOptProblem initConstraintWeight genCode inputs objEngs constrEngs) →
  optStatus (params s0) = NewIter →
  i ∈ frozenValues s0 →
  varyingValues s0 !! i = Some xi →
  stepsFrom initConstraintWeight s0 budgets s' →
  ∃ x' : float,
    varyingValues s' !! i = Some x'
    ∧ ((x' =? xi) = true ∨ is_nan x' = true).
Proof.
  intros Hfac Hst Hi Hx Hsteps.
  assert (Hb : frozenBound i xi s0).
  { unfold frozenBound. split_and!; try assumption; [| | left; exact Hst].
    - exists xi. split; [exact Hx | apply heldAt_refl].
    - intros w frozen Hin. rewrite Hfac. simpl.
      apply mkObjectiveAndGradient_masks. exact Hin. }
  apply (stepsFrom_frozenBound i xi _ _ _ Hb) in Hsteps.
  destruct Hsteps as (_ & (x' & Hx' & Hheld) & _).
  exists x'. split; [exact Hx' |]. apply orb_true_iff. exact Hheld.
Qed.

End Frozen.

(** ** The optimizer on the example problems *)

Section Examples.
Local Open Scope float_scope.

(** *** Frozen indices (C1) *)

(** From the state the builder produces, whose oracle is bound with the
    empty frozen set, one call of [step] moves the frozen component
    [x[1]] from 7 to 0. *)
Lemma builder_state_frozen_moves :
  ∃ s' : State float,
    step example_weight example_state 1 = Ok s'
    ∧ 1%nat ∈ frozenValues example_state
    ∧ varyingValues example_state !! 1%nat = Some 7
    ∧ varyingValues s' !! 1%nat = Some 0
    ∧ varyingValues s' !! 1%nat ≠ Some 7.
Proof.
  eexists. split; [vm_compute; reflexivity |].
  split; [apply elem_of_singleton; reflexivity |].
  split; [reflexivity |]. split; [reflexivity |].
  intros Heq. discriminate Heq.
Qed.

(** The frozen component can become NaN: from a [NewIter] state of the
    same problem at [x = (1e200, 7)], the second turn of L-BFGS overflows,
    computes [0·∞], and the frozen component [x[1]] becomes NaN. *)
Lemma frozen_index_binary64_overflow :
  ∃ s1 s2 : State float,
    step example_weight example_state_huge 1 = Ok s1
    ∧ step example_weight s1 2 = Ok s2
    ∧ varyingValues s1 !! 1%nat = Some 7
    ∧ varyingValues s2 !! 1%nat = Some nan.
Proof.
  eexists _, _. split; [vm_compute; reflexivity |].
  split; [vm_compute; reflexivity |]. split; reflexivity.
Qed.

(** On [ϕ(x) = x₀⁴ + x₁²] from [(100, 7)] with index 1 frozen, four calls
    of [step] leave [x[1]] at 7, with five pairs in the L-BFGS history. *)
Lemma frozen_index_immutable_witness :
  ∃ s' : State float,
    stepsFrom example_weight quartic_new [1; 3; 1; 2]%Z s'
    ∧ varyingValues s' !! 1%nat = Some 7
    ∧ length (s_list (lbfgsInfo (params s'))) = 5%nat
    ∧ ∃ x' : float,
        varyingValues s' !! 1%nat = Some x'
        ∧ ((x' =? 7) = true ∨ is_nan x' = true).
Proof.
  assert (Hsteps : ∃ s' : State float,
            stepsFrom example_weight quartic_new [1; 3; 1; 2]%Z s'
            ∧ varyingValues s' !! 1%nat = Some 7
            ∧ length (s_list (lbfgsInfo (params s'))) = 5%nat).
  { eexists. split.
    - eapply stepsFrom_cons; [vm_compute; reflexivity |].
      eapply stepsFrom_cons; [vm_compute; reflexivity |].
      eapply stepsFrom_cons; [vm_compute; reflexivity |].
      eapply stepsFrom_cons; [vm_compute; reflexivity |].
      apply stepsFrom_nil.
    - split; reflexivity. }
  destruct Hsteps as (s' & Hsteps & H7 & Hlen). exists s'.
  split; [exact Hsteps |]. split; [exact H7 |]. split; [exact Hlen |].
  apply (frozen_index_immutable example_weight (interpCompile quartic_grad)
           example_inputs
           [ Unary squared (Unary squared (Input 0 100));
             Unary squared (Input 1 7) ] []
           quartic_new s' [1; 3; 1; 2]%Z 1%nat 7).
  - reflexivity.
  - reflexivity.
  - apply elem_of_singleton. reflexivity.
  - reflexivity.
  - exact Hsteps.
Defined.

(** *** NaN in the state (C2) *)

(** C2.  [minimize] on a parameter vector that holds NaN: [containsNaN]
    answers [false], no error is raised, the oracle is evaluated at the
    point, and the call returns with [failed] set and the point
    unchanged. *)
Theorem minimize_NaN_in_xs_not_raised :
  containsNaN [nan; 7] = false
  ∧ ∃ res : OptInfo float,
      minimize [nan; 7] (currObjectiveAndGradient (params example_state))
        defaultLbfgsParams 1 = Ok res
      ∧ oi_xs res = [nan; 7]
      ∧ oi_energyVal res = nan
      ∧ oi_failed res = true.
Proof.
  split; [reflexivity |]. eexists. split; [vm_compute; reflexivity |].
  repeat split.
Qed.

(** *** The scalarized energy (C3) *)

(** With the single constraint [x₀ ≤ 0] at [x₀ = 1] and weight 1 the
    oracle returns [10⁵], where the formula with [c₀ = 10⁴] gives [10⁴]. *)
Lemma oracle_energy_weight_is_1e5 :
  ∃ r : FnEvaled float,
    objectiveAndGradient example_constr_params 1 (Some ∅) [1] = Ok r
    ∧ fe_f r = 100000
    ∧ spec_energy (evalNum [1; 1] <$> [])
        (evalNum [1; 1] <$> example_constrEngs) 1 = 10000
    ∧ fe_f r ≠ spec_energy (evalNum [1; 1] <$> [])
                 (evalNum [1; 1] <$> example_constrEngs) 1.
Proof.
  eexists. split; [vm_compute; reflexivity |].
  split; [vm_compute; reflexivity |]. split; [vm_compute; reflexivity |].
  vm_compute. discriminate.
Qed.

(** With the objective [x₀²] and the constraint [x₀ ≤ 0] at [x₀ = 3] and
    weight 2, the oracle returns [9 + 9·(10⁵·2) = 1800009]. *)
Lemma oracle_energy_witness :
  ∃ r : FnEvaled float,
    objectiveAndGradient example_both_params 2 (Some ∅) [3] = Ok r
    ∧ fe_f r = 1800009
    ∧ fe_f r = (sumList (evalNum ([3] ++ [2]) <$> [ Unary squared (Input 0 3) ])
                + sumList (penalty <$> (evalNum ([3] ++ [2]) <$> example_constrEngs))
                  * (lit 100000 * 2))%num.
Proof.
  eexists. split; [vm_compute; reflexivity |]. split; [reflexivity |].
  apply (oracle_energy example_weight (interpCompile (fun _ => []))
           [ {| tag := Optimized |} ] [ Unary squared (Input 0 3) ]
           example_constrEngs 2 (Some ∅) [3]).
  - intros g sec inp. reflexivity.
  - reflexivity.
  - vm_compute. reflexivity.
Defined.

(** *** The step budget (C4) *)

(** With [steps = 0], [step] returns a state on an [EPConverged] state
    and on a [NewIter] state. *)
Lemma step_zero_budget_returns :
  step example_weight (withStatus EPConverged example_state) 0
  = Ok (withStatus EPConverged example_state)
  ∧ step example_weight (withStatus NewIter example_state) 0
    = Ok (step_NewIter example_weight (withStatus NewIter example_state)).
Proof. split; reflexivity. Qed.

Lemma step_insufficient_steps_witness :
  step example_weight example_state 0 = Throw InsufficientSteps.
Proof.
  apply (step_insufficient_steps example_weight example_state 0); [lia | reflexivity].
Defined.

(** *** The descent test of L-BFGS (C5) *)

(** With a zero gradient [lbfgs] returns [gPre] with [⟨gPre, g⟩ = 0]
    without resetting, on the initial call and on a later call that
    extends the history. *)
Lemma lbfgs_zero_gradient_not_strict :
  (∃ info' : LbfgsParams float,
     lbfgs [1] [0] defaultLbfgsParams = Ok ([0], info')
     ∧ (0 <? dot [0] [0])%num = false)
  ∧ (∃ (gPre : list float) (info' : LbfgsParams float),
       lbfgs [0.5] [0] lbfgs_after_first = Ok (gPre, info')
       ∧ numUnconstrSteps info' = 2%Z
       ∧ length (s_list info') = 1%nat
       ∧ (0 <? dot gPre [0])%num = false).
Proof.
  split.
  - eexists. split; [vm_compute; reflexivity | reflexivity].
  - eexists _, _. split; [vm_compute; reflexivity |]. repeat split.
Qed.

(** [⟨gPre, g⟩] can be NaN: at [x = 1] with gradient [1e-11], after the
    point 0 with gradient [2e-11], [yᵀs + EPSD] cancels, [ρ] is infinite,
    and [lbfgs] returns the direction NaN without resetting. *)
Lemma lbfgs_nan_direction :
  ∃ info' : LbfgsParams float,
    lbfgs [1] [1e-11] lbfgs_cancelling = Ok ([nan], info')
    ∧ numUnconstrSteps info' = 2%Z
    ∧ is_nan (dot [nan] [1e-11]) = true
    ∧ (0 <=? dot [nan] [1e-11]) = false.
Proof.
  eexists. split; [vm_compute; reflexivity |]. repeat split.
Qed.

Lemma lbfgs_descent_check_witness :
  ∃ (gPre : list float) (info' : LbfgsParams float),
    lbfgs [0.5] [1] lbfgs_after_first = Ok (gPre, info')
    ∧ numUnconstrSteps info' = 2%Z
    ∧ ((0 <=? dot gPre [1]) = true ∨ is_nan (dot gPre [1]) = true).
Proof.
  eexists _, _. split; [vm_compute; reflexivity |]. split; [reflexivity |].
  eapply (lbfgs_descent_check [0.5] [1] lbfgs_after_first).
  vm_compute. reflexivity.
Defined.

(** *** Leaving the line search (C6, C9) *)

(** On [ϕ(x) = 10¹²·x² - x] from [x₀ = 0] along the descent direction
    [d = 1], with 40 turns allowed, the search returns [t = 2⁻³¹ > 0] after
    31 turns, the bracket having become narrower than [minInterval]; the
    cap was not reached and the Armijo inequality fails at [t]. *)
Lemma awLineSearch2_small_interval_exit :
  awLineSearch2_vars [0] steep [-1] 0 (Some 40%Z) = Ok steep_exit
  ∧ awLineSearch2 [0] steep [-1] 0 (Some 40%Z) = Ok 0x1p-31
  ∧ (0 <? 0x1p-31) = true
  ∧ (ls_i steep_exit ≤ 40)%Z
  ∧ duf steep (negv [-1]) [0] = Ok (-1)
  ∧ ∃ r : FnEvaled float,
      steep (addv [0] (scalev 0x1p-31 (negv [-1]))) = Ok r
      ∧ armijo 0 (-1) 0x1p-31 (fe_f r) = false.
Proof.
  split; [vm_compute; reflexivity |]. split; [vm_compute; reflexivity |].
  split; [reflexivity |]. split; [vm_compute; discriminate |].
  split; [vm_compute; reflexivity |].
  eexists. split; [vm_compute; reflexivity | vm_compute; reflexivity].
Qed.

Lemma awLineSearch2_exit_witness :
  ∃ (dufAtx0 : float) (v : LsVars float),
    duf quadratic (negv [-6]) [0] = Ok dufAtx0
    ∧ awLineSearch2_vars [0] quadratic [-6] 9 None = Ok v
    ∧ 0.5 = ls_t v
    ∧ ((default 10 None < ls_i v)%Z
       ∨ (nabs (ls_b v - ls_a v) <? minInterval)%num = true
       ∨ ∃ r, quadratic (addv [0] (scalev 0.5 (negv [-6]))) = Ok r
              ∧ armijo 9 dufAtx0 0.5 (fe_f r) = true).
Proof.
  apply (awLineSearch2_exit [0] quadratic [-6] 9 None 0.5).
  vm_compute. reflexivity.
Defined.

(** In that run the loop stops on the bracket [[0, 2⁻³⁰]], which is
    narrower than [10⁻⁹] and wider than [10⁻¹⁰]: with [minInterval = 10⁻¹⁰]
    it would go on. *)
Lemma shouldStop_above_spec_interval :
  awLineSearch2_vars [0] steep [-1] 0 (Some 40%Z) = Ok steep_exit
  ∧ shouldStop 40 (ls_i steep_exit) (ls_a steep_exit) (ls_b steep_exit)
      (ls_t steep_exit) = true
  ∧ spec_shouldStop 40 (ls_i steep_exit) (ls_a steep_exit) (ls_b steep_exit) = false.
Proof. split; [vm_compute; reflexivity |]. split; reflexivity. Qed.

(** The loop stops on [steep_exit] without evaluating the oracle, and from
    the initial bracket it evaluates the oracle: an oracle that raises at
    the first trial point makes the loop raise. *)
Lemma awLineSearch_stopping_rule_witness :
  awLineSearch_loop [0] steep (negv [-1]) 0 (-1) (default 10%Z (Some 40%Z)) 10
    steep_exit = Ok steep_exit
  ∧ awLineSearch_loop [1] (currObjectiveAndGradient (params example_uncovered_state))
      (negv [1]) 0 (-1) (default 10%Z None) 11 lsInit = Throw TypeError.
Proof.
  split.
  - refine (proj1 (awLineSearch_stopping_rule [0] steep [-1] 0 (-1) (Some 40%Z) 10
                     steep_exit _) _).
    + vm_compute. discriminate.
    + vm_compute. reflexivity.
  - refine (proj1 (proj2 (awLineSearch_stopping_rule [1]
                            (currObjectiveAndGradient (params example_uncovered_state))
                            [1] 0 (-1) None 11 lsInit _)) _ TypeError _).
    + vm_compute. discriminate.
    + vm_compute. reflexivity.
    + vm_compute. reflexivity.
Defined.

Lemma lsReach_interval :
  forallb (fun m : nat =>
             forallb (fun v : LsVars float =>
                        negb (nabs (ls_b v - ls_a v) <? minInterval)%num)
                     (lsReach m))
          (seq 0 12) = true.
Proof. vm_compute. reflexivity. Qed.

(** X24.  With the default cap of 10 turns the bracket of a search on binary64
    numbers never becomes narrower than [minInterval]: the search is left
    by [break], with the Armijo inequality holding at the step returned,
    or by the cap. *)
Lemma awLineSearch2_default_exit (xs0 : list float) (f : FnCached float)
    (gradfxs0 : list float) (fxs0 : float) (t : float) :
  awLineSearch2 xs0 f gradfxs0 fxs0 None = Ok t →
  ∃ (dufAtx0 : float) (v : LsVars float),
    duf f (negv gradfxs0) xs0 = Ok dufAtx0
    ∧ awLineSearch2_vars xs0 f gradfxs0 fxs0 None = Ok v
    ∧ t = ls_t v
    ∧ ((10 < ls_i v)%Z
       ∨ ∃ r, f (addv xs0 (scalev t (negv gradfxs0))) = Ok r
              ∧ armijo fxs0 dufAtx0 t (fe_f r) = true).
Proof.
  unfold awLineSearch2, awLineSearch2_vars.
  destruct (duf f (negv gradfxs0) xs0) as [d0 | e] eqn:Hd;
    cbn [mbind result_bind]; [| discriminate].
  destruct (awLineSearch_loop _ _ _ _ _ _ _ _) as [v | e] eqn:Hloop;
    cbn [mbind result_bind mret result_ret]; [| discriminate].
  intros Heq. change (Ok (ls_t v) = Ok t) in Heq.
  assert (t = ls_t v) as -> by congruence. clear Heq.
  exists d0, v. split; [reflexivity |]. split; [reflexivity |].
  split; [reflexivity |].
  pose proof Hloop as Hreach.
  apply (awLineSearch_loop_reach _ _ _ _ _ _ _ 0%nat) in Hreach; [| left; reflexivity].
  destruct Hreach as (m & Hm & Hin).
  apply awLineSearch_loop_exit in Hloop; [| cbn; lia].
  destruct Hloop as [Hstop | (r & Hr & Ha & _)]; [| right; exists r; auto].
  left. unfold shouldStop in Hstop. apply orb_true_iff in Hstop as [Hsmall | Hmany].
  - exfalso. pose proof lsReach_interval as Hall.
    rewrite forallb_forall in Hall.
    assert (Hm' : In m (seq 0 12)).
    { apply in_seq. change (Z.to_nat (default 10%Z None + 1)) with 11%nat in Hm. lia. }
    specialize (Hall m Hm'). rewrite forallb_forall in Hall.
    specialize (Hall v Hin). rewrite Hsmall in Hall. discriminate.
  - apply Z.ltb_lt. exact Hmany.
Qed.

(** *** Terminal states (C7) *)

Lemma step_terminal_sticky_witness :
  step example_weight (withStatus Error example_state) 1
  = Ok (withStatus Error example_state)
  ∧ (step example_weight (withStatus Error example_state) 1
       ≫= fun s' => step example_weight s' 5)
    = step example_weight (withStatus Error example_state) 1.
Proof.
  apply (step_terminal_sticky example_weight (withStatus Error example_state) 1 5);
    [right; reflexivity | lia | lia].
Defined.

(** *** The history bound (C8) *)

(** On [ϕ(x) = x₀⁴ + x₁²] from [(100, 7)], a call of [step] with 19 turns
    returns a state whose history holds [memSize = 17] pairs, the counter
    being 19. *)
Lemma step_history_bound_witness :
  ∃ s' : State float,
    step example_weight (step_NewIter example_weight quartic_new) 19 = Ok s'
    ∧ numUnconstrSteps (lbfgsInfo (params s')) = 19%Z
    ∧ length (s_list (lbfgsInfo (params s'))) = 17%nat
    ∧ length (s_list (lbfgsInfo (params s'))) = length (y_list (lbfgsInfo (params s')))
    ∧ (Z.of_nat (length (s_list (lbfgsInfo (params s'))))
       ≤ memSize (lbfgsInfo (params s')))%Z
    ∧ (numUnconstrSteps (lbfgsInfo (params s')) = 0%Z →
       s_list (lbfgsInfo (params s')) = [] ∧ y_list (lbfgsInfo (params s')) = []).
Proof.
  eexists. split; [vm_compute; reflexivity |].
  split; [reflexivity |]. split; [reflexivity |].
  apply (step_history_bound example_weight
           (step_NewIter example_weight quartic_new) _ 19).
  - unfold lbfgsInv. simpl. repeat split; lia.
  - vm_compute. reflexivity.
Defined.

(** *** The energy returned by [minimize] (C10) *)

(** On [ϕ(x) = x₀⁴ + x₁²] from [(100, 7)], with two turns: the energy
    returned is that of the point before the second move, and the energy
    of the point returned is another. *)
Lemma minimize_exhausted_energy_witness :
  let f := currObjectiveAndGradient (params (step_NewIter example_weight quartic_new)) in
  ∃ (res : OptInfo float) (vprev : MinVars float) (r : FnEvaled float)
    (gPre : list float) (info' : LbfgsParams float) (t : float),
    (minimize [100; 7] f defaultLbfgsParams 2 = Ok res
     ∧ exhausts f (Z.to_nat 2 - 1) (minimize_init [100; 7] defaultLbfgsParams) vprev
     ∧ f (v_xs vprev) = Ok r
     ∧ lbfgs (v_xs vprev) (fe_gradf r) (v_newLbfgsInfo vprev) = Ok (gPre, info')
     ∧ awLineSearch2 (v_xs vprev) f gPre (fe_f r) None = Ok t
     ∧ oi_energyVal res = fe_f r
     ∧ length (oi_xs res) = length (v_xs vprev)
     ∧ ∀ (j : nat) (x : float),
         v_xs vprev !! j = Some x →
         oi_xs res !! j = Some (x - t * default (lit nan) (gPre !! j))%num)
    ∧ ∃ r' : FnEvaled float,
        f (oi_xs res) = Ok r' ∧ (fe_f r' <? oi_energyVal res) = true.
Proof.
  intros f.
  set (v0 := minimize_init [100; 7] defaultLbfgsParams).
  set (v1 := match minimize_body f v0 with Ok (Next v) => v | _ => v0 end).
  set (v2 := match minimize_body f v1 with Ok (Next v) => v | _ => v1 end).
  assert (H1 : minimize_body f v0 = Ok (Next v1)) by (vm_compute; reflexivity).
  assert (H2 : minimize_body f v1 = Ok (Next v2)) by (vm_compute; reflexivity).
  destruct (minimize_exhausted_energy [100; 7] f defaultLbfgsParams 2 v2)
    as (res & vprev & r & gPre & info' & t & Hmin & Hrest).
  - lia.
  - exact (exhausts_S f 1 v0 v1 v2 (exhausts_S f 0 v0 v0 v1 (exhausts_O f v0) H1) H2).
  - exists res, vprev, r, gPre, info', t. split; [split; [exact Hmin | exact Hrest] |].
    vm_compute in Hmin. injection Hmin as <-.
    eexists. split; vm_compute; reflexivity.
Defined.

(** On [ϕ(x) = (x - 3)²] from 0, one turn returns [xs = 3] with
    [energyVal = 9 = ϕ(0)], while [ϕ(3) = 0]. *)
Lemma minimize_energy_disagrees :
  ∃ (res : OptInfo float) (r : FnEvaled float),
    minimize [0] quadratic defaultLbfgsParams 1 = Ok res
    ∧ oi_xs res = [3] ∧ oi_energyVal res = 9
    ∧ quadratic (oi_xs res) = Ok r ∧ fe_f r = 0.
Proof.
  eexists _, _. split; [vm_compute; reflexivity |].
  split; [reflexivity |]. split; [reflexivity |].
  split; [vm_compute; reflexivity | reflexivity].
Qed.

End Examples.

(** * Further properties *)

(** ** Dimensions *)

Section Dimensions.
Context {num : Type} `{Number num}.
Local Open Scope num_scope.

Lemma colvecN_columnVector (xs : list num) : colvecN (length xs) (columnVector xs).
Proof.
  split.
  - unfold columnVector. apply length_fmap.
  - unfold columnVector. apply Forall_fmap, Forall_forall. reflexivity.
Qed.

Lemma colvecN_zip_with (op : num → num → num) (n : nat) (A B : list (list num)) :
  colvecN n A → colvecN n B → colvecN n (zip_with (zip_with op) A B).
Proof.
  intros [HlA HA] [HlB HB]. split.
  - rewrite length_zip_with. lia.
  - apply colvec_zip_with; assumption.
Qed.

Lemma colvecN_mul (n : nat) (c : num) (A : list (list num)) :
  colvecN n A → colvecN n (Matrix_mul A c).
Proof.
  intros [Hl HA]. unfold Matrix_mul. split.
  - rewrite length_fmap. exact Hl.
  - apply Forall_fmap. eapply Forall_impl; [exact HA |].
    intros r Hr. simpl. rewrite length_fmap. exact Hr.
Qed.

Lemma to1DArray_length (n : nat) (M : list (list num)) :
  colvecN n M → length (to1DArray M) = n.
Proof.
  unfold to1DArray. intros [<- HM].
  induction HM as [|r M Hr _ IH]; [reflexivity |].
  simpl. rewrite length_app, Hr, IH. reflexivity.
Qed.

(** Two column vectors with [n] rows have the same dimensions. *)
Lemma colvecN_dimensions (n : nat) (A B : Matrix num) :
  colvecN n A → colvecN n B → dimensionsDiffer A B = false.
Proof.
  intros [HlA HA] [HlB HB]. unfold dimensionsDiffer, rows.
  rewrite bool_decide_eq_true_2 by lia. simpl.
  rewrite bool_decide_eq_true_2; [reflexivity |].
  destruct HA as [|a A Ha _], HB as [|b B Hb _]; simpl in *; lia.
Qed.

Lemma Matrix_sub_colvecN (n : nat) (A B : Matrix num) :
  colvecN n A → colvecN n B → ∃ M, Matrix_sub A B = Ok M ∧ colvecN n M.
Proof.
  intros HA HB. unfold Matrix_sub.
  rewrite (colvecN_dimensions n) by assumption.
  eexists. split; [reflexivity |]. apply colvecN_zip_with; assumption.
Qed.

Lemma Matrix_add_colvecN (n : nat) (A B : Matrix num) :
  colvecN n A → colvecN n B → ∃ M, Matrix_add A B = Ok M ∧ colvecN n M.
Proof.
  intros HA HB. unfold Matrix_add.
  rewrite (colvecN_dimensions n) by assumption.
  eexists. split; [reflexivity |]. apply colvecN_zip_with; assumption.
Qed.

Lemma Matrix_dot_colvecN (n : nat) (A B : Matrix num) :
  colvecN n A → colvecN n B → ∃ d, Matrix_dot A B = Ok d.
Proof.
  intros HA HB. unfold Matrix_dot.
  rewrite bool_decide_eq_true_2; [simpl; eauto |].
  rewrite (to1DArray_length n A), (to1DArray_length n B) by assumption. reflexivity.
Qed.

(** A [reduce] whose callback returns on the values it meets returns. *)
Lemma reduceM_total {A B : Type} (P : B → Prop) (Q : A → Prop)
    (callback : B → A → result B) (l : list A) (init : B) :
  (∀ b a, P b → Q a → ∃ b', callback b a = Ok b' ∧ P b') →
  Forall Q l → P init → ∃ r, reduceM callback init l = Ok r ∧ P r.
Proof.
  intros Hstep Hl. revert init.
  induction Hl as [|a l Ha _ IH]; intros init Hinit; simpl; [eauto |].
  destruct (Hstep init a Hinit Ha) as (acc & -> & Hacc). simpl.
  apply IH. exact Hacc.
Qed.

Lemma mapM_total {A B : Type} (g : A → result B) (l : list A) :
  Forall (fun x => ∃ y, g x = Ok y) l → ∃ k, mapM g l = Ok k.
Proof.
  induction 1 as [|x l [y Hy] _ [k Hk]]; simpl; [eauto |].
  rewrite Hy. simpl. rewrite Hk. simpl. eauto.
Qed.

Lemma Forall_zip_both {A B : Type} (P : A → Prop) (Q : B → Prop)
    (l : list A) (k : list B) :
  Forall P l → Forall Q k → Forall (fun c => P c.1 ∧ Q c.2) (zip l k).
Proof.
  intros Hl Hk. apply Forall_lookup. intros j c Hc.
  apply lookup_zip_with_Some in Hc as (x & y & -> & Hx & Hy).
  split; [exact (proj1 (Forall_lookup _ _) Hl _ _ Hx)
         | exact (proj1 (Forall_lookup _ _) Hk _ _ Hy)].
Qed.

Lemma pull_q_back_colvecN (n : nat) (acc : Matrix num * list num)
    (curr : num * Matrix num * Matrix num) :
  colvecN n acc.1 → colvecN n curr.1.2 ∧ colvecN n curr.2 →
  ∃ acc', pull_q_back acc curr = Ok acc' ∧ colvecN n acc'.1.
Proof.
  destruct acc as [q alphas], curr as [[rho s] y]. simpl. intros Hq [Hs Hy].
  destruct (Matrix_dot_colvecN n s q Hs Hq) as [sq ->]. simpl.
  destruct (Matrix_sub_colvecN n q (Matrix_mul y (rho * sq)) Hq
              (colvecN_mul n _ y Hy)) as (q' & -> & Hq').
  simpl. eauto.
Qed.

Lemma push_r_forward_colvecN (n : nat) (r : Matrix num)
    (curr : (num * num) * (Matrix num * Matrix num)) :
  colvecN n r → colvecN n curr.2.1 ∧ colvecN n curr.2.2 →
  ∃ r', push_r_forward r curr = Ok r' ∧ colvecN n r'.
Proof.
  destruct curr as [[rho alpha] [s y]]. simpl. intros Hr [Hs Hy].
  destruct (Matrix_dot_colvecN n y r Hy Hr) as [yr ->]. simpl.
  destruct (Matrix_add_colvecN n r (Matrix_mul s (alpha - rho * yr)) Hr
              (colvecN_mul n _ s Hs)) as (r' & -> & Hr').
  simpl. eauto.
Qed.

Lemma estimate_hess_colvecN (n : nat) (y s q : Matrix num) :
  colvecN n y → colvecN n s →
  ∃ h, estimate_hess y s = Ok h ∧ colvecN n (Matrix_mmul h q).
Proof.
  intros Hy Hs. unfold estimate_hess.
  destruct (Matrix_dot_colvecN n s y Hs Hy) as [sy ->]. simpl.
  destruct (Matrix_dot_colvecN n y y Hy Hy) as [yy ->]. simpl.
  eexists. split; [reflexivity |].
  unfold Matrix_mmul, Matrix_mul, Matrix_identity, rows. split.
  - rewrite !length_fmap, length_seq. apply Hy.
  - apply Forall_fmap, Forall_forall. reflexivity.
Qed.

(** On column vectors with [n] rows, and lists that are not empty, the
    two-loop recursion returns a column vector with [n] rows. *)
Lemma lbfgsInner_colvecN (n : nat) (g : Matrix num) (ss ys : list (Matrix num)) :
  colvecN n g →
  Forall (colvecN n) ss →
  Forall (colvecN n) ys →
  ss ≠ [] → ys ≠ [] →
  ∃ M, lbfgsInner g ss ys = Ok M ∧ colvecN n M.
Proof.
  intros Hg Hss Hys Hs0 Hy0. unfold lbfgsInner.
  pose proof (Forall_zip_both _ _ _ _ Hss Hys) as Hzip.
  destruct (mapM_total (fun p : Matrix num * Matrix num => calculate_rho p.1 p.2)
              (zip2 ss ys)) as [rhos ->].
  { eapply Forall_impl; [exact Hzip |]. intros [s y] [Hs Hy]. simpl in *.
    unfold calculate_rho.
    destruct (Matrix_dot_colvecN n y s Hy Hs) as [d ->]. simpl. eauto. }
  simpl.
  destruct (reduceM_total (fun acc : Matrix num * list num => colvecN n acc.1)
              (fun c : num * Matrix num * Matrix num =>
                 colvecN n c.1.2 ∧ colvecN n c.2)
              pull_q_back (zip3 rhos ss ys) (g, []))
    as ([q alphas] & -> & Hq).
  { intros b a. apply pull_q_back_colvecN. }
  { unfold zip3. apply Forall_lookup. intros j c Hc.
    apply lookup_zip_with_Some in Hc as (rs & y & -> & Hrs & Hy).
    apply lookup_zip_with_Some in Hrs as (rho & s & -> & _ & Hs). simpl.
    split; [exact (proj1 (Forall_lookup _ _) Hss _ _ Hs)
           | exact (proj1 (Forall_lookup _ _) Hys _ _ Hy)]. }
  { exact Hg. }
  simpl in Hq. simpl.
  destruct ys as [|y0 ys']; [contradiction |].
  destruct ss as [|s0 ss']; [contradiction |].
  destruct (estimate_hess_colvecN n y0 s0 q) as (h & -> & Hr).
  { inversion Hys; assumption. }
  { inversion Hss; assumption. }
  simpl.
  apply (reduceM_total (colvecN n)
           (fun c : (num * num) * (Matrix num * Matrix num) =>
              colvecN n c.2.1 ∧ colvecN n c.2.2)).
  - intros b a. apply push_r_forward_colvecN.
  - apply Forall_reverse. unfold zip2. apply Forall_lookup. intros j c Hc.
    apply lookup_zip_with_Some in Hc as (ra & sy & -> & _ & Hsy). simpl.
    exact (proj1 (Forall_lookup _ _) Hzip _ _ Hsy).
  - exact Hr.
Qed.

Lemma lbfgsInner_empty (g : Matrix num) :
  lbfgsInner g [] [] = Throw TypeError.
Proof. reflexivity. Qed.

(** The outcomes of [lbfgs] on a point, a gradient and a state whose
    vectors all have [n] components. *)
Lemma lbfgs_wellformed (xs gradfxs : list num) (info : LbfgsParams num) :
  length gradfxs = length xs →
  histDim (length xs) info →
  (∃ gPre info',
     lbfgs xs gradfxs info = Ok (gPre, info')
     ∧ length gPre = length xs ∧ histDim (length xs) info'
     ∧ (numUnconstrSteps info = 0%Z
        ∨ (is_Some (lastState info) ∧ is_Some (lastGrad info)
           ∧ (1 ≤ memSize info)%Z)))
  ∨ (lbfgs xs gradfxs info = Throw InvalidLbfgsState
     ∧ numUnconstrSteps info ≠ 0%Z
     ∧ (lastState info = None ∨ lastGrad info = None))
  ∨ (lbfgs xs gradfxs info = Throw TypeError
     ∧ numUnconstrSteps info ≠ 0%Z
     ∧ is_Some (lastState info) ∧ is_Some (lastGrad info)
     ∧ (memSize info < 1)%Z).
Proof.
  intros Hg (HX & HG & Hss & Hys). unfold lbfgs.
  pose proof (colvecN_columnVector xs) as Hxk.
  pose proof (colvecN_columnVector gradfxs) as Hgk. rewrite Hg in Hgk.
  assert (Hfresh : ∀ sl yl c m,
            Forall (colvecN (length xs)) sl → Forall (colvecN (length xs)) yl →
            histDim (length xs)
              {| lastState := Some (columnVector xs);
                 lastGrad := Some (columnVector gradfxs);
                 s_list := sl; y_list := yl;
                 numUnconstrSteps := c; memSize := m |}).
  { intros sl yl c m Hsl Hyl. unfold histDim. simpl. split_and!; try assumption.
    - intros X [= <-]. exact Hxk.
    - intros G [= <-]. exact Hgk. }
  destruct (Z.eqb_spec (numUnconstrSteps info) 0) as [H0 | H0].
  { left. eexists _, _. split; [reflexivity |].
    split; [exact Hg |]. split; [apply Hfresh; constructor | left; exact H0]. }
  destruct (lastState info) as [X |]; [| right; left; auto].
  destruct (lastGrad info) as [G |]; [| right; left; auto].
  specialize (HX _ eq_refl). specialize (HG _ eq_refl).
  destruct (Matrix_sub_colvecN _ _ _ Hxk HX) as (s & -> & Hs).
  destruct (Matrix_sub_colvecN _ _ _ Hgk HG) as (y & -> & Hy).
  cbn [mbind result_bind].
  destruct (Z.to_nat (memSize info)) as [|m] eqn:Hm.
  { right; right. cbn [take]. rewrite lbfgsInner_empty.
    split; [reflexivity |]. split; [exact H0 |].
    split; [eauto |]. split; [eauto | lia]. }
  left.
  assert (Hss' : Forall (colvecN (length xs)) (take (S m) ([s] ++ s_list info))).
  { apply Forall_take. constructor; assumption. }
  assert (Hys' : Forall (colvecN (length xs)) (take (S m) ([y] ++ y_list info))).
  { apply Forall_take. constructor; assumption. }
  destruct (lbfgsInner_colvecN (length xs) (columnVector gradfxs)
              (take (S m) ([s] ++ s_list info)) (take (S m) ([y] ++ y_list info)))
    as (M & -> & HM); try assumption; try discriminate.
  cbn [mbind result_bind]. unfold descentDirCheck.
  destruct (Matrix_dot_colvecN _ _ _ HM Hgk) as [d ->].
  cbn [mbind result_bind mret result_ret].
  destruct (nltb (lit 0.0) (lit (-1.0) * d)); eexists _, _;
    (split; [reflexivity |]).
  - split; [exact Hg |]. split; [apply Hfresh; constructor |].
    right. split; [eauto |]. split; [eauto | lia].
  - split; [apply to1DArray_length; exact HM |].
    split; [apply Hfresh; assumption |].
    right. split; [eauto |]. split; [eauto | lia].
Qed.

(** X4.  When the point, the gradient and every vector of the L-BFGS state have
    [n] components, the direction [lbfgs] returns has [n] components, and
    so has every vector of the state it returns. *)
Theorem lbfgs_dimension (xs gradfxs : list num) (info : LbfgsParams num)
    (gPre : list num) (info' : LbfgsParams num) :
  length gradfxs = length xs →
  histDim (length xs) info →
  lbfgs xs gradfxs info = Ok (gPre, info') →
  length gPre = length xs ∧ histDim (length xs) info'.
Proof.
  intros Hg Hh Hl.
  destruct (lbfgs_wellformed xs gradfxs info Hg Hh)
    as [(gPre1 & info1 & Hl1 & Hlen & Hh1 & _) | [(Hl1 & _) | (Hl1 & _)]];
    rewrite Hl1 in Hl; [| discriminate ..].
  injection Hl as <- <-. auto.
Qed.

Lemma gdUpdate_length (t : num) (gPre xs : list num) :
  length (gdUpdate t gPre xs) = length xs.
Proof. unfold gdUpdate. apply length_imap. Qed.

(** The lengths in a turn of the loop of [minimize], for an oracle that
    returns gradients of length [n] at points of length [n]. *)
Lemma minimize_body_dimension (f : FnCached num) (n : nat) (v : MinVars num)
    (fl : flow num) :
  (∀ xs r, length xs = n → f xs = Ok r → length (fe_gradf r) = n) →
  length (v_xs v) = n →
  histDim n (v_newLbfgsInfo v) →
  minimize_body f v = Ok fl →
  let v' := match fl with Next v' | Break v' => v' end in
  length (v_xs v') = n
  ∧ length (v_gradfxs v') = n
  ∧ length (v_gradientPreconditioned v') = n
  ∧ histDim n (v_newLbfgsInfo v').
Proof.
  intros Hf Hx Hh Hb. apply minimize_body_cases in Hb.
  destruct Hb as (r & gPre & info' & Hr & Hl & Hfl).
  apply Hf in Hr; [| exact Hx]. subst n.
  destruct (lbfgs_wellformed _ _ _ Hr Hh)
    as [(gPre1 & info1 & Hl1 & Hp' & Hh' & _) | [(Hl1 & _) | (Hl1 & _)]];
    rewrite Hl1 in Hl; [| discriminate ..].
  injection Hl as <- <-.
  destruct Hfl as [[_ ->] | (_ & t & _ & [[_ ->] | [_ ->]])]; simpl;
    rewrite ?gdUpdate_length; auto.
Qed.

Lemma minimize_loop_dimension (f : FnCached num) (n : nat) (k : nat)
    (v v' : MinVars num) :
  (∀ xs r, length xs = n → f xs = Ok r → length (fe_gradf r) = n) →
  length (v_xs v) = n →
  length (v_gradfxs v) = n →
  length (v_gradientPreconditioned v) = n →
  histDim n (v_newLbfgsInfo v) →
  minimize_loop f k v = Ok v' →
  length (v_xs v') = n
  ∧ length (v_gradfxs v') = n
  ∧ length (v_gradientPreconditioned v') = n
  ∧ histDim n (v_newLbfgsInfo v').
Proof.
  intros Hf. revert v. induction k as [|k IH]; intros v Hx Hg Hp Hh; simpl.
  - intros [= <-]. auto.
  - destruct (minimize_body f v) as [fl | e] eqn:Hb; simpl; [| discriminate].
    apply (minimize_body_dimension f n) in Hb; [| assumption ..].
    destruct fl as [v1 | v1]; simpl in Hb.
    + apply IH; apply Hb.
    + intros [= <-]. exact Hb.
Qed.

(** X5.  When the oracle returns gradients of the length of its argument and
    every vector of the L-BFGS state has the length of the starting point,
    the point, the gradient and the preconditioned gradient [minimize]
    returns have that length (the update [x - t·gPre[j]] never reads past
    the end of [gPre]), and so has every vector of the L-BFGS state it
    returns. *)
Theorem minimize_dimension (xs0 : list num) (f : FnCached num)
    (info : LbfgsParams num) (numSteps : Z) (res : OptInfo num) :
  (∀ xs r, f xs = Ok r → length (fe_gradf r) = length xs) →
  histDim (length xs0) info →
  minimize xs0 f info numSteps = Ok res →
  length (oi_xs res) = length xs0
  ∧ length (oi_gradient res) = length xs0
  ∧ length (oi_gradientPreconditioned res) = length xs0
  ∧ histDim (length xs0) (oi_newLbfgsInfo res).
Proof.
  intros Hf Hh. unfold minimize.
  destruct (numSteps <? MIN_STEPS)%Z; [discriminate |].
  destruct (minimize_loop _ _ _) as [v | e] eqn:Hloop; simpl; [| discriminate].
  intros [= <-]. simpl.
  eapply minimize_loop_dimension; [| | | | | exact Hloop]; simpl;
    unfold repeat; rewrite ?length_replicate; auto.
  intros xs r Hlen Hr. rewrite <- Hlen. eapply Hf. exact Hr.
Qed.

End Dimensions.

(** ** L-BFGS: errors and the recorded point *)

Section LbfgsMore.
Context {num : Type} `{Number num}.
Local Open Scope num_scope.

(** X1.  When [lbfgs] returns and when it raises.  The initial call always
    returns.  A later call raises [InvalidLbfgsState] when the last point or
    the last gradient is missing.  With both present, it raises a
    [RangeError] when the last point has not the number of rows of the
    point, or the last gradient that of the gradient.  On a state whose
    vectors all have the length of the point and of the gradient, and
    whose two lists have one length, it raises a [TypeError] when
    [memSize] is below 1 (the history is cut to nothing and [ys[0]] is
    [undefined]) and returns when [memSize] is at least 1. *)
Theorem lbfgs_outcome (xs gradfxs : list num) (info : LbfgsParams num) :
  (numUnconstrSteps info = 0%Z → ∃ p, lbfgs xs gradfxs info = Ok p)
  ∧ (numUnconstrSteps info ≠ 0%Z →
     lastState info = None ∨ lastGrad info = None →
     lbfgs xs gradfxs info = Throw InvalidLbfgsState)
  ∧ (numUnconstrSteps info ≠ 0%Z →
     ∀ X G : Matrix num,
       lastState info = Some X → lastGrad info = Some G →
       length X ≠ length xs ∨ length G ≠ length gradfxs →
       lbfgs xs gradfxs info = Throw RangeError)
  ∧ (numUnconstrSteps info ≠ 0%Z →
     is_Some (lastState info) → is_Some (lastGrad info) →
     length gradfxs = length xs →
     histDim (length xs) info →
     length (s_list info) = length (y_list info) →
     ((memSize info < 1)%Z → lbfgs xs gradfxs info = Throw TypeError)
     ∧ ((1 ≤ memSize info)%Z → ∃ p, lbfgs xs gradfxs info = Ok p)).
Proof.
  split_and!.
  - unfold lbfgs. intros ->. simpl. eauto.
  - unfold lbfgs. intros H0 Hmiss.
    destruct (Z.eqb_spec (numUnconstrSteps info) 0); [contradiction |].
    destruct Hmiss as [-> | ->]; [reflexivity |].
    destruct (lastState info); reflexivity.
  - unfold lbfgs. intros H0 X G -> -> Hdiff.
    destruct (Z.eqb_spec (numUnconstrSteps info) 0); [contradiction |].
    destruct (Matrix_sub (columnVector xs) X) as [s | e] eqn:Hs; simpl;
      [| apply Matrix_sub_Throw in Hs as ->; reflexivity].
    destruct (Matrix_sub (columnVector gradfxs) G) as [y | e] eqn:Hy; simpl;
      [| apply Matrix_sub_Throw in Hy as ->; reflexivity].
    exfalso. apply Matrix_sub_Ok in Hs as (_ & Hs & _), Hy as (_ & Hy & _).
    unfold columnVector in Hs, Hy. rewrite length_fmap in Hs, Hy.
    destruct Hdiff; congruence.
  - intros H0 HsX HsG Hg Hh _.
    destruct (lbfgs_wellformed xs gradfxs info Hg Hh)
      as [(gPre & info' & Hl & _ & _ & Hcase) | [(Hl & _ & Hmiss) | (Hl & _ & _ & _ & Hm)]].
    + destruct Hcase as [? | (_ & _ & Hm)]; [contradiction |].
      split; [lia | eauto].
    + exfalso. destruct Hmiss as [Hn | Hn]; rewrite Hn in *;
        [destruct HsX | destruct HsG]; discriminate.
    + split; [auto | lia].
Qed.

(** X2.  Every call of [lbfgs] that returns records the current point and
    gradient as the last ones, keeps [memSize], and leaves a counter of at
    least 1 when the counter was not negative. *)
Theorem lbfgs_records_point (xs gradfxs : list num) (info : LbfgsParams num)
    (gPre : list num) (info' : LbfgsParams num) :
  lbfgs xs gradfxs info = Ok (gPre, info') →
  lastState info' = Some (columnVector xs)
  ∧ lastGrad info' = Some (columnVector gradfxs)
  ∧ memSize info' = memSize info
  ∧ ((0 ≤ numUnconstrSteps info)%Z → (1 ≤ numUnconstrSteps info')%Z).
Proof.
  destruct (Z.eq_dec (numUnconstrSteps info) 0) as [H0 | H0].
  { unfold lbfgs. rewrite H0. intros [= <- <-]. simpl.
    split_and!; (reflexivity || lia). }
  intros Hl. apply lbfgs_later in Hl; [| exact H0].
  destruct Hl as (X & G & s & y & M & check & _ & _ & _ & _ & _ & _
                  & [(_ & _ & ->) | (_ & _ & ->)]);
    simpl; split_and!; (reflexivity || lia).
Qed.

End LbfgsMore.

(** ** The inner minimizer: errors and the values it returns *)

Section MinimizeMore.
Context {num : Type} `{Number num}.
Local Open Scope num_scope.

Lemma lbfgs_throws (xs g : list num) (info : LbfgsParams num) (e : exn) :
  length g = length xs →
  histDim (length xs) info →
  lbfgs xs g info = Throw e → e = InvalidLbfgsState ∨ e = TypeError.
Proof.
  intros Hg Hh Hl.
  destruct (lbfgs_wellformed xs g info Hg Hh)
    as [(gPre & info' & Hl1 & _) | [(Hl1 & _) | (Hl1 & _)]];
    rewrite Hl1 in Hl; [discriminate | |]; injection Hl as <-; auto.
Qed.

Lemma awLineSearch_loop_throws (xs0 : list num) (f : FnCached num) (d : list num)
    (fxs0 dufAtx0 : num) (maxSteps : Z) (fuel : nat) (v : LsVars num) (e : exn) :
  awLineSearch_loop xs0 f d fxs0 dufAtx0 maxSteps fuel v = Throw e →
  ∃ xs, f xs = Throw e.
Proof.
  revert v. induction fuel as [|fuel IH]; intros v; simpl.
  - destruct (shouldStop _ _ _ _ _); discriminate.
  - destruct (shouldStop _ _ _ _ _); [discriminate |].
    destruct (f (addv xs0 (scalev (ls_t v) d))) as [r | e'] eqn:Hr; simpl.
    + destruct (armijo fxs0 dufAtx0 (ls_t v) (fe_f r)); simpl.
      * destruct (wolfe d dufAtx0 (ls_t v) (fe_gradf r)); simpl; [discriminate |].
        apply IH.
      * apply IH.
    + intros [= <-]. eauto.
Qed.

Lemma awLineSearch2_throws (xs0 : list num) (f : FnCached num) (g : list num)
    (fxs0 : num) (maxSteps : option Z) (e : exn) :
  awLineSearch2 xs0 f g fxs0 maxSteps = Throw e → ∃ xs, f xs = Throw e.
Proof.
  unfold awLineSearch2, awLineSearch2_vars, duf.
  destruct (f xs0) as [r | e'] eqn:Hr; simpl; [| intros [= <-]; eauto].
  destruct (awLineSearch_loop _ _ _ _ _ _ _ _) as [v | e2] eqn:Hloop; simpl;
    [discriminate |].
  intros [= <-]. eapply awLineSearch_loop_throws. exact Hloop.
Qed.

Lemma minimize_body_throws (f : FnCached num) (n : nat) (v : MinVars num) (e : exn) :
  (∀ xs r, length xs = n → f xs = Ok r → length (fe_gradf r) = n) →
  length (v_xs v) = n →
  histDim n (v_newLbfgsInfo v) →
  minimize_body f v = Throw e →
  e = InvalidLbfgsState ∨ e = TypeError ∨ ∃ xs, f xs = Throw e.
Proof.
  intros Hf Hx Hh. unfold minimize_body, BREAK_EARLY, USE_LINE_SEARCH.
  rewrite containsNaN_false.
  destruct (f (v_xs v)) as [r | e'] eqn:Hr; cbn [mbind result_bind];
    [| intros [= <-]; eauto].
  rewrite containsNaN_false.
  destruct (lbfgs _ _ _) as [[gPre info'] | e'] eqn:Hl; cbn [mbind result_bind fst snd andb].
  - destruct (unconstrainedConverged2 _); [discriminate |].
    destruct (awLineSearch2 _ _ _ _ _) as [t | e2] eqn:Ht; cbn [mbind result_bind].
    + destruct (_ || _); discriminate.
    + intros [= <-]. right; right. eapply awLineSearch2_throws. exact Ht.
  - intros [= <-]. apply Hf in Hr; [| exact Hx]. subst n.
    apply lbfgs_throws in Hl; [tauto | exact Hr | exact Hh].
Qed.

(** X6.  The errors [minimize] raises, for an oracle that returns
    gradients of the length of the point and an L-BFGS state whose vectors
    have that length and whose two lists have one length: its own
    [InsufficientSteps], the [InvalidLbfgsState] and [TypeError] of
    [lbfgs], and the errors the oracle raises.  The two NaN checks never
    raise, and no operation on vectors or matrices meets operands of
    different sizes. *)
Theorem minimize_throws_only (xs0 : list num) (f : FnCached num)
    (info : LbfgsParams num) (numSteps : Z) (e : exn) :
  (∀ xs r, length xs = length xs0 → f xs = Ok r →
           length (fe_gradf r) = length xs0) →
  histDim (length xs0) info →
  length (s_list info) = length (y_list info) →
  minimize xs0 f info numSteps = Throw e →
  e = InsufficientSteps ∨ e = InvalidLbfgsState ∨ e = TypeError
  ∨ ∃ xs, f xs = Throw e.
Proof.
  intros Hf Hh _. unfold minimize.
  destruct (numSteps <? MIN_STEPS)%Z; [intros [= <-]; auto |].
  destruct (minimize_loop _ _ _) as [v | e'] eqn:Hloop; simpl; [discriminate |].
  intros [= ->]. right.
  assert (Hinit : length (v_xs (minimize_init xs0 info)) = length xs0
                  ∧ histDim (length xs0) (v_newLbfgsInfo (minimize_init xs0 info)))
    by (split; [reflexivity | exact Hh]).
  revert Hinit Hloop. generalize (minimize_init xs0 info).
  induction (Z.to_nat numSteps) as [|k IH]; intros v [Hx Hv]; simpl; [discriminate |].
  destruct (minimize_body f v) as [fl | e2] eqn:Hb; simpl.
  - apply (minimize_body_dimension f (length xs0)) in Hb; [| assumption ..].
    destruct fl as [v1 | v1]; [apply IH; split; apply Hb | discriminate].
  - intros [= ->]. eapply minimize_body_throws; eassumption.
Qed.

(** X7.  An error of the oracle at the starting point is the error of
    [minimize], and of [step] on an [UnconstrainedRunning] state. *)
Theorem oracle_error_propagates (initConstraintWeight : num) (s : State num)
    (steps : Z) (e : exn) :
  (1 ≤ steps)%Z →
  currObjectiveAndGradient (params s) (varyingValues s) = Throw e →
  minimize (varyingValues s) (currObjectiveAndGradient (params s))
    (lbfgsInfo (params s)) steps = Throw e
  ∧ (optStatus (params s) = UnconstrainedRunning →
     step initConstraintWeight s steps = Throw e).
Proof.
  intros Hsteps Hf.
  assert (Hmin : minimize (varyingValues s) (currObjectiveAndGradient (params s))
                   (lbfgsInfo (params s)) steps = Throw e).
  { unfold minimize, MIN_STEPS. destruct (Z.ltb_spec steps 1); [lia |].
    destruct (Z.to_nat steps) as [|k] eqn:Hk; [lia |]. simpl.
    unfold minimize_body. rewrite containsNaN_false. simpl. rewrite Hf. reflexivity. }
  split; [exact Hmin |].
  intros Hst. unfold step. rewrite Hst. unfold step_UnconstrainedRunning.
  rewrite Hmin. reflexivity.
Qed.

(** What [minimize] returns is of one evaluation of the oracle. *)
Lemma minimize_loop_consistent (f : FnCached num) (k : nat) (v v' : MinVars num) :
  v_failed v = false →
  minimize_loop f (S k) v = Ok v' →
  ∃ (x : list num) (r : FnEvaled num),
    f x = Ok r
    ∧ v_fxs v' = fe_f r ∧ v_gradfxs v' = fe_gradf r
    ∧ v_objEngs v' = fe_objEngs r ∧ v_constrEngs v' = fe_constrEngs r
    ∧ v_normGradfxs v' = dot (v_gradfxs v') (v_gradientPreconditioned v')
    ∧ (unconstrainedConverged2 (v_normGradfxs v') = true ∨ v_failed v' = true →
       x = v_xs v')
    ∧ (v_failed v' = true →
       isNaN (v_fxs v') || isNaN (normList (v_gradfxs v')) = true
       ∧ unconstrainedConverged2 (v_normGradfxs v') = false).
Proof.
  revert v. induction k as [|k IH]; intros v Hfail; simpl.
  - destruct (minimize_body f v) as [fl | e] eqn:Hb; simpl; [| discriminate].
    apply minimize_body_cases in Hb.
    destruct Hb as (r & gPre & info' & Hr & _ & Hfl).
    destruct Hfl as [[Hc ->] | (Hc & t & _ & [[Hn ->] | [Hn ->]])];
      intros [= <-]; exists (v_xs v), r; simpl; split_and!; try reflexivity;
      try assumption; rewrite ?Hfail, ?Hc; try (intros [? | ?]; congruence);
      try discriminate; auto.
  - destruct (minimize_body f v) as [fl | e] eqn:Hb; [| discriminate].
    cbn [mbind result_bind].
    destruct fl as [v1 | v1].
    + intros Hloop. apply (IH v1); [| exact Hloop].
      apply minimize_body_cases in Hb.
      destruct Hb as (r & gPre & info' & _ & _ & Hfl).
      destruct Hfl as [[_ Hfl] | (_ & t & _ & [[_ Hfl] | [_ Hfl]])];
        try discriminate.
      injection Hfl as ->. exact Hfail.
    + apply minimize_body_cases in Hb.
      destruct Hb as (r & gPre & info' & Hr & _ & Hfl).
      destruct Hfl as [[Hc Hfl] | (Hc & t & _ & [[Hn Hfl] | [_ Hfl]])];
        try discriminate; injection Hfl as ->;
        intros [= <-]; exists (v_xs v), r; simpl; split_and!; try reflexivity;
        try assumption; rewrite ?Hfail, ?Hc; try (intros [? | ?]; congruence);
        try discriminate; auto.
Qed.

(** X8.  The energy, the gradient and the per-term energies [minimize] returns
    come from one evaluation of the oracle, and [normGrad] is
    [⟨gradient, gradientPreconditioned⟩].  When the result counts as
    converged ([normGrad < uoStop]) or [failed] is set, that evaluation is
    at the point returned.  [failed] is set only with a NaN energy or
    gradient norm, and never together with convergence. *)
Theorem minimize_result_consistent (xs0 : list num) (f : FnCached num)
    (info : LbfgsParams num) (numSteps : Z) (res : OptInfo num) :
  minimize xs0 f info numSteps = Ok res →
  ∃ (x : list num) (r : FnEvaled num),
    f x = Ok r
    ∧ oi_energyVal res = fe_f r ∧ oi_gradient res = fe_gradf r
    ∧ oi_objEngs res = fe_objEngs r ∧ oi_constrEngs res = fe_constrEngs r
    ∧ oi_normGrad res = dot (oi_gradient res) (oi_gradientPreconditioned res)
    ∧ (unconstrainedConverged2 (oi_normGrad res) = true ∨ oi_failed res = true →
       x = oi_xs res)
    ∧ (oi_failed res = true →
       isNaN (oi_energyVal res) || isNaN (normList (oi_gradient res)) = true
       ∧ unconstrainedConverged2 (oi_normGrad res) = false).
Proof.
  unfold minimize, MIN_STEPS. destruct (Z.ltb_spec numSteps 1); [discriminate |].
  destruct (Z.to_nat numSteps) as [|k] eqn:Hk; [lia |].
  destruct (minimize_loop _ _ _) as [v | e] eqn:Hloop; [| discriminate].
  cbn [mbind result_bind]. intros Heq.
  assert (res = minimize_return v) as -> by (cbv [mret result_ret] in Heq; congruence).
  apply minimize_loop_consistent in Hloop; [| reflexivity].
  exact Hloop.
Qed.

(** X9.  At a point where the oracle's gradient has [⟨g, g⟩ < uoStop], a call of
    [minimize] with a fresh L-BFGS state returns the point unchanged after
    one evaluation, with the energy and gradient of the point and the
    L-BFGS state recording it. *)
Theorem minimize_converged_fixpoint (xs0 : list num) (f : FnCached num)
    (info : LbfgsParams num) (numSteps : Z) (r : FnEvaled num) :
  (1 ≤ numSteps)%Z →
  numUnconstrSteps info = 0%Z →
  f xs0 = Ok r →
  unconstrainedConverged2 (dot (fe_gradf r) (fe_gradf r)) = true →
  minimize xs0 f info numSteps
  = Ok {| oi_xs := xs0;
          oi_energyVal := fe_f r;
          oi_normGrad := dot (fe_gradf r) (fe_gradf r);
          oi_newLbfgsInfo :=
            {| lastState := Some (columnVector xs0);
               lastGrad := Some (columnVector (fe_gradf r));
               s_list := []; y_list := [];
               numUnconstrSteps := 1; memSize := memSize info |};
          oi_gradient := fe_gradf r;
          oi_gradientPreconditioned := fe_gradf r;
          oi_failed := false;
          oi_objEngs := fe_objEngs r;
          oi_constrEngs := fe_constrEngs r |}.
Proof.
  intros Hsteps H0 Hr Hc. unfold minimize, MIN_STEPS.
  destruct (Z.ltb_spec numSteps 1); [lia |].
  destruct (Z.to_nat numSteps) as [|k] eqn:Hk; [lia |]. simpl.
  unfold minimize_body, BREAK_EARLY. rewrite containsNaN_false. simpl.
  rewrite Hr. cbn [mbind result_bind]. rewrite containsNaN_false.
  unfold lbfgs. simpl. rewrite H0. simpl. rewrite Hc. reflexivity.
Qed.

Lemma minimize_length (xs0 : list num) (f : FnCached num) (info : LbfgsParams num)
    (numSteps : Z) (res : OptInfo num) :
  minimize xs0 f info numSteps = Ok res → length (oi_xs res) = length xs0.
Proof.
  unfold minimize. destruct (numSteps <? MIN_STEPS)%Z; [discriminate |].
  destruct (minimize_loop _ _ _) as [v | e] eqn:Hloop; simpl; [| discriminate].
  intros [= <-]. simpl.
  change (length xs0) with (length (v_xs (minimize_init xs0 info))).
  revert Hloop. generalize (minimize_init xs0 info).
  induction (Z.to_nat numSteps) as [|k IH]; intros v0; simpl.
  - intros [= <-]. reflexivity.
  - destruct (minimize_body f v0) as [fl | e] eqn:Hb; simpl; [| discriminate].
    apply minimize_body_cases in Hb.
    destruct Hb as (r & gPre & info' & _ & _ & Hfl).
    destruct Hfl as [[_ ->] | (_ & t & _ & [[_ ->] | [_ ->]])].
    + intros [= <-]. reflexivity.
    + intros [= <-]. reflexivity.
    + intros Hloop. apply IH in Hloop. rewrite Hloop. simpl.
      apply length_imap.
Qed.

End MinimizeMore.

(** ** The line search: turns, acceptance, edge cases *)

Section LineSearchMore.
Context {num : Type} `{Number num}.
Local Open Scope num_scope.

(** X10.  The loop of the line search makes at most [maxSteps + 1] turns: it
    leaves its counter [i] between 0 and [maxSteps + 1] (at 0 when
    [maxSteps] is negative). *)
Theorem awLineSearch2_turns_bound (xs0 : list num) (f : FnCached num)
    (gradfxs0 : list num) (fxs0 : num) (maxSteps : option Z) (v : LsVars num) :
  awLineSearch2_vars xs0 f gradfxs0 fxs0 maxSteps = Ok v →
  (0 ≤ ls_i v ≤ Z.max 0 (default 10%Z maxSteps + 1))%Z.
Proof.
  unfold awLineSearch2_vars.
  destruct (duf f (negv gradfxs0) xs0) as [d0 | e]; simpl; [| discriminate].
  intros Hloop. apply awLineSearch_loop_turns in Hloop. exact Hloop.
Qed.

(** X11.  When the search is left neither by the cap nor by the narrow bracket,
    it is left by [break]: the oracle was evaluated at [x₀ + t·d] for the
    [t] returned, and both the Armijo and the weak Wolfe condition hold
    there. *)
Theorem awLineSearch2_accepted (xs0 : list num) (f : FnCached num)
    (gradfxs0 : list num) (fxs0 : num) (maxSteps : option Z) (v : LsVars num) :
  awLineSearch2_vars xs0 f gradfxs0 fxs0 maxSteps = Ok v →
  (ls_i v ≤ default 10%Z maxSteps)%Z →
  (nabs (ls_b v - ls_a v) <? minInterval) = false →
  ∃ (dufAtx0 : num) (r : FnEvaled num),
    duf f (negv gradfxs0) xs0 = Ok dufAtx0
    ∧ f (addv xs0 (scalev (ls_t v) (negv gradfxs0))) = Ok r
    ∧ armijo fxs0 dufAtx0 (ls_t v) (fe_f r) = true
    ∧ weakWolfe (negv gradfxs0) dufAtx0 (ls_t v) (fe_gradf r) = true.
Proof.
  unfold awLineSearch2_vars.
  destruct (duf f (negv gradfxs0) xs0) as [d0 | e]; simpl; [| discriminate].
  intros Hloop Hi Hint.
  apply awLineSearch_loop_exit in Hloop; [| simpl; lia].
  destruct Hloop as [Hstop | (r & Hr & Ha & Hw)].
  - unfold shouldStop in Hstop. rewrite Hint in Hstop. simpl in Hstop.
    apply Z.ltb_lt in Hstop. lia.
  - exists d0, r. auto.
Qed.

(** X12.  With a negative [maxSteps] the loop makes no turn: the oracle is
    evaluated once, at [x₀], and the initial step 1 is returned. *)
Theorem awLineSearch2_negative_cap (xs0 : list num) (f : FnCached num)
    (gradfxs0 : list num) (fxs0 : num) (maxSteps : Z) (r : FnEvaled num) :
  (maxSteps < 0)%Z →
  f xs0 = Ok r →
  awLineSearch2 xs0 f gradfxs0 fxs0 (Some maxSteps) = Ok (lit 1.0).
Proof.
  intros Hneg Hr. unfold awLineSearch2, awLineSearch2_vars, duf.
  rewrite Hr. simpl.
  rewrite awLineSearch_loop_stopped; [reflexivity |].
  apply shouldStop_no_fuel. simpl. lia.
Qed.

Lemma awLineSearch_loop_break (xs0 : list num) (f : FnCached num) (d : list num)
    (fxs0 dufAtx0 : num) (maxSteps : Z) (fuel : nat) (v : LsVars num)
    (r : FnEvaled num) :
  shouldStop maxSteps (ls_i v) (ls_a v) (ls_b v) (ls_t v) = false →
  f (addv xs0 (scalev (ls_t v) d)) = Ok r →
  armijo fxs0 dufAtx0 (ls_t v) (fe_f r) = true →
  wolfe d dufAtx0 (ls_t v) (fe_gradf r) = true →
  awLineSearch_loop xs0 f d fxs0 dufAtx0 maxSteps (S fuel) v = Ok v.
Proof.
  intros Hstop Hr Ha Hw. simpl. rewrite Hstop, Hr. simpl. rewrite Ha, Hw.
  reflexivity.
Qed.

End LineSearchMore.

Section LineSearchBinary64.
Local Open Scope float_scope.

Lemma lsReach_range :
  forallb (fun m : nat =>
             forallb (fun v : LsVars float =>
                        (0x1p-11 <=? ls_t v) && (ls_t v <=? 0x1p11)
                        && (0 <=? ls_a v) && (ls_a v <=? ls_t v)
                        && (ls_t v <=? ls_b v))
                     (lsReach m))
          (seq 0 12) = true.
Proof. vm_compute. reflexivity. Qed.

(** X13.  On binary64 numbers, with the default cap of 10 turns, the step the
    search returns lies between [2⁻¹¹] and [2¹¹], inside the bracket
    [0 ≤ a ≤ t ≤ b] the loop is left with, whatever the oracle answers. *)
Theorem awLineSearch2_default_step_range (xs0 : list float) (f : FnCached float)
    (gradfxs0 : list float) (fxs0 : float) (v : LsVars float) :
  awLineSearch2_vars xs0 f gradfxs0 fxs0 None = Ok v →
  awLineSearch2 xs0 f gradfxs0 fxs0 None = Ok (ls_t v)
  ∧ (0x1p-11 <=? ls_t v) = true ∧ (ls_t v <=? 0x1p11) = true
  ∧ (0 <=? ls_a v) = true ∧ (ls_a v <=? ls_t v) = true
  ∧ (ls_t v <=? ls_b v) = true.
Proof.
  intros Hv. split.
  { unfold awLineSearch2. rewrite Hv. reflexivity. }
  unfold awLineSearch2_vars in Hv.
  destruct (duf f (negv gradfxs0) xs0) as [d0 | e]; cbn [mbind result_bind] in Hv;
    [| discriminate].
  apply (awLineSearch_loop_reach _ _ _ _ _ _ _ 0%nat) in Hv; [| left; reflexivity].
  destruct Hv as (m & Hm & Hin).
  pose proof lsReach_range as Hall. rewrite forallb_forall in Hall.
  assert (Hm' : In m (seq 0 12)).
  { apply in_seq. change (Z.to_nat (default 10%Z None + 1)) with 11%nat in Hm. lia. }
  specialize (Hall m Hm'). rewrite forallb_forall in Hall.
  specialize (Hall v Hin).
  repeat (apply andb_true_iff in Hall as [Hall ?]). auto.
Qed.

(** X14.  On binary64 numbers, when the Armijo and the weak Wolfe condition
    hold at the full step [t = 1], the search returns 1 after evaluating
    the oracle at [x₀] and at [x₀ + d]. *)
Theorem awLineSearch2_accepts_unit_step (xs0 : list float) (f : FnCached float)
    (gradfxs0 : list float) (fxs0 : float) (maxSteps : option Z)
    (dufAtx0 : float) (r : FnEvaled float) :
  (0 ≤ default 10%Z maxSteps)%Z →
  duf f (negv gradfxs0) xs0 = Ok dufAtx0 →
  f (addv xs0 (scalev 1 (negv gradfxs0))) = Ok r →
  armijo fxs0 dufAtx0 1 (fe_f r) = true →
  weakWolfe (negv gradfxs0) dufAtx0 1 (fe_gradf r) = true →
  awLineSearch2 xs0 f gradfxs0 fxs0 maxSteps = Ok 1.
Proof.
  intros Hcap Hd Hr Ha Hw. unfold awLineSearch2, awLineSearch2_vars.
  rewrite Hd. cbn [mbind result_bind].
  destruct (Z.to_nat (default 10%Z maxSteps + 1)) as [|fuel] eqn:Hfuel; [lia |].
  rewrite (awLineSearch_loop_break _ _ _ _ _ _ _ _ r); [reflexivity | | | |].
  - unfold shouldStop.
    destruct (Z.ltb_spec (default 10%Z maxSteps) (ls_i (lsInit (num:=float))));
      [cbn in *; lia |].
    vm_compute. reflexivity.
  - exact Hr.
  - exact Ha.
  - exact Hw.
Qed.

End LineSearchBinary64.

(** ** The driver: transitions and what a step leaves alone *)

Section DriverMore.
Context {num : Type} `{Number num}.
Local Open Scope num_scope.
Variable initConstraintWeight : num.

(** X15.  The state machine of [step]: [NewIter] goes to [UnconstrainedRunning];
    [UnconstrainedRunning] stays, or goes to [UnconstrainedConverged] or
    [Error]; [UnconstrainedConverged] goes to [EPConverged] or back to
    [UnconstrainedRunning]; [EPConverged] and [Error] stay.  No step
    returns a [NewIter] state. *)
Theorem step_status_transitions (s s' : State num) (steps : Z) :
  step initConstraintWeight s steps = Ok s' →
  statusNext (optStatus (params s)) (optStatus (params s'))
  ∧ optStatus (params s') ≠ NewIter.
Proof.
  unfold step. destruct (optStatus (params s)) eqn:Hst; simpl.
  - intros [= <-]. simpl. split; [reflexivity | discriminate].
  - unfold step_UnconstrainedRunning.
    destruct (minimize _ _ _ _) as [res | e]; simpl; [| discriminate].
    destruct (oi_failed res); intros [= <-]; simpl.
    + split; [auto | discriminate].
    + destruct (unconstrainedConverged2 _); split; (auto || discriminate).
  - unfold step_UnconstrainedConverged.
    destruct (epConvergedCheck _) as [b | e]; simpl; [| discriminate].
    intros [= <-]. simpl. destruct b; split; (auto || discriminate).
  - intros [= <-]. rewrite Hst. split; [reflexivity | discriminate].
  - intros [= <-]. rewrite Hst. split; [reflexivity | discriminate].
Qed.

(** X16.  What no step changes: the frozen set, the oracle factory, the energy
    graph, and the number of parameters. *)
Theorem step_frame (s s' : State num) (steps : Z) :
  step initConstraintWeight s steps = Ok s' →
  frozenValues s' = frozenValues s
  ∧ objectiveAndGradient (params s') = objectiveAndGradient (params s)
  ∧ energyGraph (params s') = energyGraph (params s)
  ∧ length (varyingValues s') = length (varyingValues s).
Proof.
  unfold step. destruct (optStatus (params s)).
  - intros [= <-]. simpl. auto.
  - unfold step_UnconstrainedRunning.
    destruct (minimize _ _ _ _) as [res | e] eqn:Hm; simpl; [| discriminate].
    apply minimize_length in Hm.
    destruct (oi_failed res); intros [= <-]; simpl; auto.
  - unfold step_UnconstrainedConverged.
    destruct (epConvergedCheck _) as [b | e]; simpl; [| discriminate].
    intros [= <-]. simpl. auto.
  - intros [= <-]. auto.
  - intros [= <-]. auto.
Qed.

(** X17.  At least two rounds: on an [UnconstrainedConverged] state with
    [EPround ≤ 1] the convergence test is not made.  The step always
    returns, in status [UnconstrainedRunning], with the weight multiplied
    by [weightGrowthFactor], [EPround] incremented, [UOround] reset, the
    oracle rebound with the new weight and the frozen set, the last UO
    snapshot saved as the EP snapshot, and the parameters and the L-BFGS
    state unchanged. *)
Theorem step_two_rounds_before_EP (s : State num) (steps : Z) :
  optStatus (params s) = UnconstrainedConverged →
  (EPround (params s) ≤ 1)%Z →
  ∃ s' : State num,
    step initConstraintWeight s steps = Ok s'
    ∧ optStatus (params s') = UnconstrainedRunning
    ∧ weight (params s') = weightGrowthFactor * weight (params s)
    ∧ EPround (params s') = (EPround (params s) + 1)%Z
    ∧ UOround (params s') = 0%Z
    ∧ currObjectiveAndGradient (params s')
      = objectiveAndGradient (params s) (weightGrowthFactor * weight (params s))
          (Some (frozenValues s))
    ∧ lastEPstate (params s') = lastUOstate (params s)
    ∧ lastEPenergy (params s') = lastUOenergy (params s)
    ∧ varyingValues s' = varyingValues s
    ∧ lbfgsInfo (params s') = lbfgsInfo (params s).
Proof.
  intros Hst Hround. exists (epTransition s false). split.
  - unfold step. rewrite Hst. unfold step_UnconstrainedConverged, epConvergedCheck.
    destruct (Z.ltb_spec 1 (EPround (params s))); [lia |]. reflexivity.
  - simpl. auto 10.
Qed.

(** X19.  On an [UnconstrainedConverged] state with [EPround > 1] and a missing
    snapshot the step raises a [TypeError]. *)
Theorem step_converged_missing_snapshot (s : State num) (steps : Z) :
  optStatus (params s) = UnconstrainedConverged →
  (1 < EPround (params s))%Z →
  lastEPstate (params s) = None ∨ lastUOstate (params s) = None →
  step initConstraintWeight s steps = Throw TypeError.
Proof.
  intros Hst Hr Hmiss. unfold step. rewrite Hst.
  unfold step_UnconstrainedConverged, epConvergedCheck.
  destruct (Z.ltb_spec 1 (EPround (params s))); [| lia].
  destruct Hmiss as [-> | ->]; [reflexivity |].
  destruct (lastEPstate (params s)); reflexivity.
Qed.

(** X21.  A terminal state is returned by every sequence of steps, whatever the
    budgets. *)
Theorem stepsFrom_terminal (s s' : State num) (budgets : list Z) :
  optStatus (params s) = EPConverged ∨ optStatus (params s) = Error →
  stepsFrom initConstraintWeight s budgets s' →
  s' = s.
Proof.
  intros Hterm Hsteps.
  induction Hsteps as [s | s s1 s2 k ks Hstep _ IH]; [reflexivity |].
  assert (s1 = s) as ->.
  { unfold step in Hstep. destruct Hterm as [Hst | Hst]; rewrite Hst in Hstep;
      congruence. }
  apply IH. exact Hterm.
Qed.

End DriverMore.

(** ** The oracle of the builder *)

Section OracleMore.
Context {num : Type} `{Number num}.
Local Open Scope num_scope.

Lemma mapM_result_length {A B : Type} (g : A → result B) (l : list A) (k : list B) :
  mapM g l = Ok k → length k = length l.
Proof.
  revert k. induction l as [|a l IH]; intros k; simpl.
  - intros [= <-]. reflexivity.
  - destruct (g a) as [b | e]; simpl; [| discriminate].
    destruct (mapM g l) as [k' | e]; simpl; [| discriminate].
    intros [= <-]. simpl. f_equal. apply IH. reflexivity.
Qed.

Lemma mapM_result_throw {A B : Type} (g : A → result B) (l : list A) (e : exn) :
  mapM g l = Throw e → ∃ (j : nat) (x : A), l !! j = Some x ∧ g x = Throw e.
Proof.
  induction l as [|a l IH]; simpl; [discriminate |].
  destruct (g a) as [b | e'] eqn:Hb; simpl.
  - destruct (mapM g l) as [k' | e'] eqn:Hm; simpl; [discriminate |].
    intros [= ->]. destruct (IH eq_refl) as (j & x & Hj & Hx).
    exists (S j), x. auto.
  - intros [= ->]. exists 0%nat, a. auto.
Qed.

Lemma mapM_result_ok {A B : Type} (g : A → result B) (l : list A) :
  (∀ x, x ∈ l → ∃ y, g x = Ok y) → ∃ k, mapM g l = Ok k.
Proof.
  induction l as [|a l IH]; intros Hall; simpl; [eauto |].
  destruct (Hall a) as [b ->]; [left |]. simpl.
  destruct IH as [k ->]; [intros x Hx; apply Hall; right; exact Hx |].
  simpl. eauto.
Qed.

Lemma oracle_gradf_length (f : Compiled num) (inputs : list InputMeta)
    (objEngs : list (ad_Num num)) (w : num) (frozen : option (gset nat))
    (xs : list num) (r : FnEvaled num) :
  mkObjectiveAndGradient f inputs objEngs w frozen xs = Ok r →
  length (fe_gradf r) = length xs.
Proof.
  unfold mkObjectiveAndGradient.
  destruct (mapM _ _) as [gradf | e] eqn:Hm; simpl; [| discriminate].
  intros [= <-]. simpl. rewrite (mapM_result_length _ _ _ Hm). apply length_seq.
Qed.

(** X22.  Gradient masking.  When the oracle returns, its energy is the primary
    output of the compiled function at [xs] extended with the weight, its
    per-term energies are the secondary outputs split at the number of
    objectives (the first [|objEngs|] of them are the objective energies,
    the others the constraint energies), and its gradient has one
    component per parameter.
    Component [i] is the compiled derivative when input [i] is [Optimized]
    and [i] is not in the frozen set; it is 0 when the compiled gradient
    has no entry [i], when input [i] is not [Optimized], when [i] is
    frozen, and when no frozen set is given. *)
Theorem oracle_gradient_masking (f : Compiled num) (inputs : list InputMeta)
    (objEngs : list (ad_Num num)) (w : num) (frozen : option (gset nat))
    (xs : list num) (r : FnEvaled num) :
  mkObjectiveAndGradient f inputs objEngs w frozen xs = Ok r →
  fe_f r = primary (f (xs ++ [w]))
  ∧ fe_objEngs r = take (length objEngs) (secondary (f (xs ++ [w])))
  ∧ fe_constrEngs r = drop (length objEngs) (secondary (f (xs ++ [w])))
  ∧ fe_objEngs r ++ fe_constrEngs r = secondary (f (xs ++ [w]))
  ∧ length (fe_gradf r) = length xs
  ∧ ∀ i : nat, (i < length xs)%nat →
      ∃ y : num,
        fe_gradf r !! i = Some y
        ∧ (∀ (g : num) (fs : gset nat),
             gradient (f (xs ++ [w])) !! i = Some (Some g) →
             tag <$> inputs !! i = Some Optimized →
             frozen = Some fs → i ∉ fs → y = g)
        ∧ (gradient (f (xs ++ [w])) !! i = None
           ∨ gradient (f (xs ++ [w])) !! i = Some None
           ∨ tag <$> inputs !! i = Some Pending
           ∨ frozen = None
           ∨ (∃ fs, frozen = Some fs ∧ i ∈ fs) →
           y = lit 0).
Proof.
  unfold mkObjectiveAndGradient.
  destruct (mapM _ _) as [gradf | e] eqn:Hm; simpl; [| discriminate].
  intros [= <-]. simpl. split; [reflexivity |].
  split; [reflexivity |]. split; [reflexivity |].
  split; [apply take_drop |].
  split; [rewrite (mapM_result_length _ _ _ Hm); apply length_seq |].
  intros i Hi.
  destruct (mapM_result_lookup _ _ _ i i Hm) as (y & Hy & Hlk);
    [apply lookup_seq_lt; exact Hi |].
  exists y. split; [exact Hlk |].
  unfold maskedGradient in Hy. split.
  - intros g fs Hg Ht -> Hnin. rewrite Hg in Hy.
    destruct (inputs !! i) as [meta |]; [| discriminate].
    injection Ht as Ht. rewrite Ht in Hy.
    rewrite bool_decide_eq_false_2 in Hy by exact Hnin. congruence.
  - intros Hzero.
    destruct (gradient (f (xs ++ [w])) !! i) as [[g |] |]; try congruence.
    destruct (inputs !! i) as [meta |]; [| discriminate].
    destruct Hzero as [? | [? | [Ht | [-> | (fs & -> & Hin)]]]]; try discriminate.
    + injection Ht as Ht. rewrite Ht in Hy. congruence.
    + destruct (tag meta); congruence.
    + rewrite bool_decide_eq_true_2 in Hy by exact Hin.
      destruct (tag meta); congruence.
Qed.

(** X23.  The oracle raises only a [TypeError], and only when the compiled
    gradient has an entry for a parameter that the list of inputs does not
    describe ([inputs[i]] is [undefined]); when the list of inputs covers
    the parameters the oracle returns. *)
Theorem oracle_inputs_cover (f : Compiled num) (inputs : list InputMeta)
    (objEngs : list (ad_Num num)) (w : num) (frozen : option (gset nat))
    (xs : list num) :
  ((length xs ≤ length inputs)%nat →
   ∃ r, mkObjectiveAndGradient f inputs objEngs w frozen xs = Ok r)
  ∧ (∀ e, mkObjectiveAndGradient f inputs objEngs w frozen xs = Throw e →
       e = TypeError
       ∧ ∃ (i : nat) (g : num),
           (i < length xs)%nat
           ∧ gradient (f (xs ++ [w])) !! i = Some (Some g)
           ∧ inputs !! i = None).
Proof.
  unfold mkObjectiveAndGradient. split.
  - intros Hlen.
    destruct (mapM_result_ok (maskedGradient inputs frozen (gradient (f (xs ++ [w]))))
                (seq 0 (length xs))) as [k ->]; [| simpl; eauto].
    intros i Hi. apply list_elem_of_lookup in Hi as [j Hj].
    apply lookup_seq in Hj as [-> Hj]. simpl.
    unfold maskedGradient.
    destruct (gradient (f (xs ++ [w])) !! j) as [[g |] |]; eauto.
    destruct (inputs !! j) as [meta |] eqn:Hmeta; [eauto |].
    apply lookup_ge_None in Hmeta. lia.
  - intros e.
    destruct (mapM _ _) as [gradf | e'] eqn:Hm; simpl; [discriminate |].
    intros [= ->]. apply mapM_result_throw in Hm as (j & i & Hj & Hthrow).
    apply lookup_seq in Hj as [-> Hj]. simpl in Hthrow.
    unfold maskedGradient in Hthrow.
    destruct (gradient (f (xs ++ [w])) !! j) as [[g |] |] eqn:Hg; try discriminate.
    destruct (inputs !! j) as [meta |] eqn:Hmeta; [discriminate |].
    injection Hthrow as <-. split; [reflexivity |]. exists j, g. auto.
Qed.

End OracleMore.

(** ** The further properties on the example problems *)

Section MoreExamples.
Local Open Scope float_scope.

(** The four ways a call after the initial one ends: the last point is
    missing; the last point has one row and the point two; [memSize] is 0;
    the state is well formed. *)
Lemma lbfgs_outcome_witness :
  lbfgs [0.5] [1] lbfgs_missing_state = Throw InvalidLbfgsState
  ∧ lbfgs [0.5; 1] [1; 1] lbfgs_after_first = Throw RangeError
  ∧ lbfgs [0.5] [1] lbfgs_no_memory = Throw TypeError
  ∧ ∃ p, lbfgs [0.5] [1] lbfgs_after_first = Ok p.
Proof.
  assert (Hdim : ∀ m, histDim (length [0.5])
            {| lastState := Some [[1]]; lastGrad := Some [[2]];
               s_list := []; y_list := [];
               numUnconstrSteps := 1; memSize := m |}).
  { intros m. unfold histDim, colvecN. simpl. split_and!.
    - intros X [= <-]. split; [reflexivity | repeat constructor].
    - intros G [= <-]. split; [reflexivity | repeat constructor].
    - constructor.
    - constructor. }
  split_and!.
  - refine (proj1 (proj2 (lbfgs_outcome [0.5] [1] lbfgs_missing_state)) _ _).
    + vm_compute. discriminate.
    + left. reflexivity.
  - refine (proj1 (proj2 (proj2 (lbfgs_outcome [0.5; 1] [1; 1] lbfgs_after_first)))
              _ [[1]] [[2]] eq_refl eq_refl _).
    + vm_compute. discriminate.
    + left. vm_compute. discriminate.
  - refine (proj1 (proj2 (proj2 (proj2 (lbfgs_outcome [0.5] [1] lbfgs_no_memory)))
                     _ _ _ eq_refl (Hdim 0%Z) eq_refl) _).
    + vm_compute. discriminate.
    + eexists. reflexivity.
    + eexists. reflexivity.
    + vm_compute. reflexivity.
  - refine (proj2 (proj2 (proj2 (proj2 (lbfgs_outcome [0.5] [1] lbfgs_after_first)))
                     _ _ _ eq_refl (Hdim 17%Z) eq_refl) _).
    + vm_compute. discriminate.
    + eexists. reflexivity.
    + eexists. reflexivity.
    + vm_compute. discriminate.
Defined.

Lemma lbfgs_records_point_witness :
  ∃ (gPre : list float) (info' : LbfgsParams float),
    lbfgs [0.5] [1] lbfgs_after_first = Ok (gPre, info')
    ∧ lastState info' = Some (columnVector [0.5])
    ∧ lastGrad info' = Some (columnVector [1])
    ∧ memSize info' = memSize lbfgs_after_first
    ∧ ((0 ≤ numUnconstrSteps lbfgs_after_first)%Z → (1 ≤ numUnconstrSteps info')%Z).
Proof.
  eexists _, _. split; [vm_compute; reflexivity |].
  eapply (lbfgs_records_point [0.5] [1] lbfgs_after_first).
  vm_compute. reflexivity.
Defined.

Lemma lbfgs_dimension_witness :
  ∃ (gPre : list float) (info' : LbfgsParams float),
    lbfgs [0.5] [1] lbfgs_after_first = Ok (gPre, info')
    ∧ length gPre = 1%nat ∧ histDim 1 info'.
Proof.
  eexists _, _. split; [vm_compute; reflexivity |].
  apply (lbfgs_dimension [0.5] [1] lbfgs_after_first).
  - reflexivity.
  - unfold histDim, colvecN. simpl. split_and!.
    + intros X [= <-]. split; [reflexivity | repeat constructor].
    + intros G [= <-]. split; [reflexivity | repeat constructor].
    + constructor.
    + constructor.
  - vm_compute. reflexivity.
Defined.

Lemma minimize_dimension_witness :
  ∃ res : OptInfo float,
    minimize [10; 7] (currObjectiveAndGradient (params example_state))
      defaultLbfgsParams 3 = Ok res
    ∧ length (oi_xs res) = 2%nat
    ∧ length (oi_gradient res) = 2%nat
    ∧ length (oi_gradientPreconditioned res) = 2%nat
    ∧ histDim 2 (oi_newLbfgsInfo res).
Proof.
  eexists. split; [vm_compute; reflexivity |].
  apply (minimize_dimension [10; 7] (currObjectiveAndGradient (params example_state))
           defaultLbfgsParams 3).
  - intros xs r Hr. exact (oracle_gradf_length _ _ _ _ _ _ _ Hr).
  - unfold histDim. simpl. split_and!; (discriminate || constructor).
  - vm_compute. reflexivity.
Defined.

(** With [memSize = 0] the second turn of [minimize] raises the
    [TypeError] of [lbfgs]. *)
Lemma minimize_throws_only_witness :
  minimize [0] quadratic lbfgs_fresh_no_memory 2 = Throw TypeError
  ∧ (TypeError = InsufficientSteps ∨ TypeError = InvalidLbfgsState
     ∨ TypeError = TypeError
     ∨ ∃ xs, quadratic xs = Throw TypeError).
Proof.
  assert (Hm : minimize [0] quadratic lbfgs_fresh_no_memory 2 = Throw TypeError)
    by (vm_compute; reflexivity).
  split; [exact Hm |].
  apply (minimize_throws_only [0] quadratic lbfgs_fresh_no_memory 2 TypeError).
  - intros xs r _ [= <-]. reflexivity.
  - unfold histDim. simpl. split_and!; (discriminate || constructor).
  - reflexivity.
  - exact Hm.
Defined.

Lemma oracle_error_propagates_witness :
  minimize (varyingValues example_uncovered_state)
    (currObjectiveAndGradient (params example_uncovered_state))
    (lbfgsInfo (params example_uncovered_state)) 5 = Throw TypeError
  ∧ (optStatus (params example_uncovered_state) = UnconstrainedRunning →
     step example_weight example_uncovered_state 5 = Throw TypeError).
Proof.
  apply (oracle_error_propagates example_weight example_uncovered_state 5 TypeError).
  - lia.
  - vm_compute. reflexivity.
Defined.

Lemma minimize_result_consistent_witness :
  ∃ (res : OptInfo float) (x : list float) (r : FnEvaled float),
    minimize [0] quadratic defaultLbfgsParams 2 = Ok res
    ∧ quadratic x = Ok r
    ∧ oi_energyVal res = fe_f r ∧ oi_gradient res = fe_gradf r
    ∧ oi_objEngs res = fe_objEngs r ∧ oi_constrEngs res = fe_constrEngs r
    ∧ oi_normGrad res = dot (oi_gradient res) (oi_gradientPreconditioned res)
    ∧ (unconstrainedConverged2 (oi_normGrad res) = true ∨ oi_failed res = true →
       x = oi_xs res)
    ∧ (oi_failed res = true →
       isNaN (oi_energyVal res) || isNaN (normList (oi_gradient res)) = true
       ∧ unconstrainedConverged2 (oi_normGrad res) = false).
Proof.
  destruct (minimize [0] quadratic defaultLbfgsParams 2) as [res |] eqn:Hm;
    [| vm_compute in Hm; discriminate].
  destruct (minimize_result_consistent [0] quadratic defaultLbfgsParams 2 res Hm)
    as (x & r & Hrest).
  exists res, x, r. split; [reflexivity | exact Hrest].
Defined.

Lemma minimize_converged_fixpoint_witness :
  ∃ res : OptInfo float,
    minimize [3] quadratic defaultLbfgsParams 50 = Ok res
    ∧ oi_xs res = [3] ∧ oi_energyVal res = 0 ∧ oi_failed res = false
    ∧ numUnconstrSteps (oi_newLbfgsInfo res) = 1%Z.
Proof.
  eexists. split.
  - apply (minimize_converged_fixpoint [3] quadratic defaultLbfgsParams 50
             {| fe_f := 0; fe_gradf := [0]; fe_objEngs := [0]; fe_constrEngs := [] |}).
    + lia.
    + reflexivity.
    + vm_compute. reflexivity.
    + vm_compute. reflexivity.
  - simpl. auto.
Defined.

Lemma awLineSearch2_turns_bound_witness :
  (0 ≤ ls_i steep_exit ≤ Z.max 0 (default 10 (Some 40) + 1))%Z.
Proof.
  apply (awLineSearch2_turns_bound [0] steep [-1] 0 (Some 40%Z) steep_exit).
  vm_compute. reflexivity.
Defined.

Lemma awLineSearch2_accepted_witness :
  ∃ (v : LsVars float) (dufAtx0 : float) (r : FnEvaled float),
    awLineSearch2_vars [0] quadratic [-6] 9 None = Ok v
    ∧ duf quadratic (negv [-6]) [0] = Ok dufAtx0
    ∧ quadratic (addv [0] (scalev (ls_t v) (negv [-6]))) = Ok r
    ∧ armijo 9 dufAtx0 (ls_t v) (fe_f r) = true
    ∧ weakWolfe (negv [-6]) dufAtx0 (ls_t v) (fe_gradf r) = true.
Proof.
  exists {| ls_a := 0; ls_b := 1; ls_t := 0.5; ls_i := 1 |}.
  destruct (awLineSearch2_accepted [0] quadratic [-6] 9 None
              {| ls_a := 0; ls_b := 1; ls_t := 0.5; ls_i := 1 |})
    as (d0 & r & Hrest).
  - vm_compute. reflexivity.
  - vm_compute. discriminate.
  - vm_compute. reflexivity.
  - exists d0, r. split; [vm_compute; reflexivity | exact Hrest].
Defined.

Lemma awLineSearch2_negative_cap_witness :
  awLineSearch2 [0] quadratic [-6] 9 (Some (-1)%Z) = Ok (lit 1.0).
Proof.
  apply (awLineSearch2_negative_cap [0] quadratic [-6] 9 (-1)
           {| fe_f := 9; fe_gradf := [-6]; fe_objEngs := [9]; fe_constrEngs := [] |}).
  - lia.
  - vm_compute. reflexivity.
Defined.

Lemma awLineSearch2_default_step_range_witness :
  awLineSearch2 [0] steep [-1] 0 None = Ok 0x1p-11
  ∧ (0x1p-11 <=? 0x1p-11) = true ∧ (0x1p-11 <=? 0x1p11) = true
  ∧ (0 <=? 0) = true ∧ (0 <=? 0x1p-11) = true
  ∧ (0x1p-11 <=? 0x1p-10) = true.
Proof.
  apply (awLineSearch2_default_step_range [0] steep [-1] 0
           {| ls_a := 0; ls_b := 0x1p-10; ls_t := 0x1p-11; ls_i := 11 |}).
  vm_compute. reflexivity.
Defined.

Lemma awLineSearch2_accepts_unit_step_witness :
  awLineSearch2 [0] quadratic [-3] 9 None = Ok 1.
Proof.
  apply (awLineSearch2_accepts_unit_step [0] quadratic [-3] 9 None (-18)
           {| fe_f := 0; fe_gradf := [0]; fe_objEngs := [0]; fe_constrEngs := [] |}).
  - vm_compute. discriminate.
  - vm_compute. reflexivity.
  - vm_compute. reflexivity.
  - vm_compute. reflexivity.
  - vm_compute. reflexivity.
Defined.

Lemma awLineSearch2_default_exit_witness :
  ∃ (dufAtx0 : float) (v : LsVars float),
    duf steep (negv [-1]) [0] = Ok dufAtx0
    ∧ awLineSearch2_vars [0] steep [-1] 0 None = Ok v
    ∧ 0x1p-11 = ls_t v
    ∧ ((10 < ls_i v)%Z
       ∨ ∃ r, steep (addv [0] (scalev 0x1p-11 (negv [-1]))) = Ok r
              ∧ armijo 0 dufAtx0 0x1p-11 (fe_f r) = true).
Proof.
  apply (awLineSearch2_default_exit [0] steep [-1] 0 0x1p-11).
  vm_compute. reflexivity.
Defined.

Lemma step_status_transitions_witness :
  ∃ s' : State float,
    step example_weight example_state 1 = Ok s'
    ∧ statusNext (optStatus (params example_state)) (optStatus (params s'))
    ∧ optStatus (params s') ≠ NewIter.
Proof.
  eexists. split; [vm_compute; reflexivity |].
  apply (step_status_transitions example_weight example_state _ 1).
  vm_compute. reflexivity.
Defined.

Lemma step_frame_witness :
  ∃ s' : State float,
    step example_weight example_state 2 = Ok s'
    ∧ frozenValues s' = frozenValues example_state
    ∧ objectiveAndGradient (params s') = objectiveAndGradient (params example_state)
    ∧ energyGraph (params s') = energyGraph (params example_state)
    ∧ length (varyingValues s') = length (varyingValues example_state).
Proof.
  eexists. split; [vm_compute; reflexivity |].
  apply (step_frame example_weight example_state _ 2).
  vm_compute. reflexivity.
Defined.

Lemma step_two_rounds_before_EP_witness :
  ∃ s' : State float,
    step example_weight (withStatus UnconstrainedConverged example_state) 1 = Ok s'
    ∧ optStatus (params s') = UnconstrainedRunning
    ∧ weight (params s') = 0.01
    ∧ EPround (params s') = 1%Z.
Proof.
  destruct (step_two_rounds_before_EP example_weight
              (withStatus UnconstrainedConverged example_state) 1)
    as (s' & Hstep & Hst & Hw & Hr & _).
  - reflexivity.
  - vm_compute. discriminate.
  - exists s'. split; [exact Hstep |]. split; [exact Hst |].
    split; [rewrite Hw; vm_compute; reflexivity | exact Hr].
Defined.

Lemma step_converged_missing_snapshot_witness :
  step example_weight example_state_round2 1 = Throw TypeError.
Proof.
  apply (step_converged_missing_snapshot example_weight example_state_round2 1).
  - reflexivity.
  - vm_compute. reflexivity.
  - left. reflexivity.
Defined.

Lemma stepsFrom_terminal_witness :
  stepsFrom example_weight (withStatus Error example_state) [1; 0; 5]%Z
    (withStatus Error example_state)
  ∧ withStatus Error example_state = withStatus Error example_state.
Proof.
  assert (Hs : stepsFrom example_weight (withStatus Error example_state) [1; 0; 5]%Z
                 (withStatus Error example_state)).
  { do 3 (apply (stepsFrom_cons _ _ (withStatus Error example_state));
          [reflexivity |]).
    apply stepsFrom_nil. }
  split; [exact Hs |].
  apply (stepsFrom_terminal example_weight (withStatus Error example_state)
           (withStatus Error example_state) [1; 0; 5]%Z).
  - right. reflexivity.
  - exact Hs.
Defined.

(** On the problem [x₀² + x₁²] at [(10, 7)] with index 1 frozen: the
    energy is 149, the two objective energies are 100 and 49, there is no
    constraint energy, and the gradient [(20, 14)] is masked to
    [(20, 0)]. *)
Lemma oracle_gradient_masking_witness :
  ∃ r : FnEvaled float,
    objectiveAndGradient (params example_state) 1 (Some {[ 1%nat ]}) [10; 7] = Ok r
    ∧ fe_gradf r = [20; 0]
    ∧ fe_f r = 149
    ∧ fe_objEngs r = [100; 49]
    ∧ fe_constrEngs r = []
    ∧ length (fe_gradf r) = 2%nat.
Proof.
  destruct (objectiveAndGradient (params example_state) 1 (Some {[ 1%nat ]}) [10; 7])
    as [r |] eqn:Hr; [| vm_compute in Hr; discriminate].
  destruct (oracle_gradient_masking _ _ _ _ _ _ _ Hr)
    as (Hf & Hobj & Hconstr & _ & Hlen & _).
  exists r. split; [reflexivity |].
  split; [vm_compute in Hr; injection Hr as <-; reflexivity |].
  split; [rewrite Hf; vm_compute; reflexivity |].
  split; [rewrite Hobj; vm_compute; reflexivity |].
  split; [rewrite Hconstr; vm_compute; reflexivity | exact Hlen].
Defined.

Lemma oracle_inputs_cover_witness :
  (∃ r, currObjectiveAndGradient (params example_state) [10; 7] = Ok r)
  ∧ ∃ (i : nat) (g : float),
      (i < 1)%nat
      ∧ gradient (interpCompile (fun _ => [Some 2]) 
                    (energyGraph (params example_uncovered_state)) [] ([1] ++ [example_weight]))
          !! i = Some (Some g)
      ∧ @nil InputMeta !! i = None.
Proof.
  split.
  - apply (proj1 (oracle_inputs_cover _ example_inputs _ example_weight (Some ∅) [10; 7])).
    simpl. lia.
  - apply (proj2 (oracle_inputs_cover _ [] [] example_weight (Some ∅) [1]) TypeError).
    vm_compute. reflexivity.
Defined.

End MoreExamples.
